(** * Miniiniob: the table engine, its value layer and the date literals

    A shallow embedding of
      - [sql/parser/parse.cpp]      (value constructors, date literals,
                                     numbers as text, file names),
      - [sql/executor/value.h]      (tuple values, their comparison and
                                     their text),
      - [storage/common/table.cpp]  (the table: insert, update, delete,
                                     scan, index creation, commit),
    together with models of the collaborators of the table whose code lives
    in other files (record manager, B+-tree index, table metadata,
    transaction).  The definitions come first, the theorems after them. *)

From Stdlib Require Import ZArith List Ascii String Lia Bool.
From Stdlib Require Import Strings.Byte.
From Stdlib Require DecimalString DecimalPos DecimalN.
From stdpp Require Import base option list gmap sorting.

Set Default Proof Using "Type".

(* ===================================================================== *)
(** * Result codes and machine data                                       *)
(* ===================================================================== *)

(** Modelled from the spec: the result codes of rc.h, which is not under
    src/; the "result codes returned to the client". *)
Inductive RC : Type :=
  | SUCCESS
  | INVALID_ARGUMENT
  | SCHEMA_TABLE_EXIST
  | SCHEMA_TABLE_NAME_ILLEGAL
  | SCHEMA_INDEX_EXIST
  | SCHEMA_FIELD_MISSING
  | SCHEMA_FIELD_NAME_ILLEGAL
  | SCHEMA_FIELD_TYPE_MISMATCH
  | SCHEMA_FIELD_NOT_EXIST
  | RECORD_EOF
  | RECORD_INVALID_KEY
  | IOERR
  | SQL_SYNTAX
  | GENERIC_ERROR.

#[global] Instance RC_eq_dec : EqDecision RC.
Proof. solve_decision. Defined.

(** Modelled from the spec: [AttrType] of parse.h, which is not under
    src/; the "closed set" of column types, with the tags that parse.cpp
    and table.cpp name. *)
Inductive AttrType : Type :=
  | UNDEFINED | CHARS | INTS | FLOATS | DATES | TEXTS | NULLS.

#[global] Instance AttrType_eq_dec : EqDecision AttrType.
Proof. solve_decision. Defined.

#[global] Instance byte_eq_dec : EqDecision byte := Byte.byte_eq_dec.

Abbreviation bytes := (list byte).

Definition byte_of_Z (z : Z) : byte :=
  default x00 (Byte.of_N (Z.to_N (z mod 256))).

Definition Z_of_byte (b : byte) : Z := Z.of_N (Byte.to_N b).

(** A 32-bit [int] in memory: four bytes, least significant first. *)
Definition int_to_bytes (v : Z) : bytes :=
  [byte_of_Z v; byte_of_Z (v / 256); byte_of_Z (v / 65536);
   byte_of_Z (v / 16777216)].

(** Two's complement wrap-around of a 32-bit signed [int]. *)
Definition wrap32 (z : Z) : Z := ((z + 2147483648) mod 4294967296 - 2147483648)%Z.

Definition INT_MAX : Z := 2147483647.

(** [strlen]: the bytes before the first NUL.  A [char *] that the parser
    hands over is the byte list followed by its terminator, so a list
    without NUL has its own length. *)
Fixpoint strlen (s : bytes) : nat :=
  match s with
  | [] => 0
  | b :: r => if decide (b = x00) then 0 else S (strlen r)
  end.

(** [memcpy (dst + off, src, n)].  The source is read for exactly [n]
    bytes; bytes past the end of [src] are indeterminate in C++ and read as
    NUL here (after a [strdup] the first of them is the terminator).
    Bytes that would land past the end of [dst] are dropped. *)
Definition read_bytes (src : bytes) (n : nat) : bytes :=
  take n (src ++ replicate n x00).

Definition memcpy (dst : bytes) (off : nat) (src : bytes) (n : nat) : bytes :=
  list_inserts off (read_bytes src n) dst.

(** [strcpy (dst, src)]: the bytes of [src] before its terminator, and the
    terminator.  Bytes that would land past the end of [dst] are
    dropped. *)
Definition strcpy (dst src : bytes) : bytes :=
  list_inserts 0 (take (strlen src) src ++ [x00]) dst.

(* ===================================================================== *)
(** * sql/parser/parse.cpp                                                *)
(* ===================================================================== *)

Module Parse.

Local Open Scope Z_scope.

(** Modelled from the spec: [struct Value] of parse.h, which is not under
    src/; "tagged union (type, payload, is_null)", with the members that
    parse.cpp sets. *)
Record Value : Type := mkValue {
  type : AttrType;
  data : bytes;
  is_null : bool
}.

Definition value_init_integer (v : Z) (is_null : bool) : Value :=
  {| type := INTS; data := int_to_bytes v; is_null := is_null |}.

(** [value_init_float]: the four bytes of the [float] are the argument. *)
Definition value_init_float (v : bytes) (is_null : bool) : Value :=
  {| type := FLOATS; data := read_bytes v 4; is_null := is_null |}.

Definition chars_of (s : string) : list ascii := list_ascii_of_string s.

(** [strdup (v)]: the characters and the terminator. *)
Definition strdup (s : string) : bytes :=
  list_byte_of_string s ++ [x00].

Definition is_digit (c : ascii) : bool :=
  (48 <=? Z.of_N (N_of_ascii c)) && (Z.of_N (N_of_ascii c) <=? 57).

Definition is_dash (c : ascii) : bool := Ascii.eqb c "-".

(** [\d{n}]: exactly [n] digits; the rest of the input is returned. *)
Fixpoint match_digits (n : nat) (l : list ascii) : option (list ascii) :=
  match n with
  | O => Some l
  | S n' =>
      match l with
      | c :: r => if is_digit c then match_digits n' r else None
      | [] => None
      end
  end.

Definition match_dash (l : list ascii) : option (list ascii) :=
  match l with
  | c :: r => if is_dash c then Some r else None
  | [] => None
  end.

(** One way of matching ["^\\d{4}-\\d{1,2}-\\d{1,2}"] against the whole
    input ([std::regex_match]): [a] digits of month, [b] digits of day. *)
Definition match_date_with (a b : nat) (l : list ascii) : bool :=
  match ((((match_digits 4 l ≫= match_dash) ≫= match_digits a)
           ≫= match_dash) ≫= match_digits b) with
  | Some [] => true
  | _ => false
  end.

Definition check_date_format (s : string) : bool :=
  let l := chars_of s in
  match_date_with 2 2 l || match_date_with 2 1 l ||
  match_date_with 1 2 l || match_date_with 1 1 l.

(** The body of the loop of [date2num] at index [i], on [(num, mul)].
    Both are [int] in the code and numbers without bound here; on a
    string that [check_date_format] accepts, the only ones that
    [value_init_string] passes to [date2num], neither exceeds
    [10 ^ 8]. *)
Definition date2num_step (s : list ascii) (len : Z) (i : nat)
    (st : Z * Z) : Z * Z :=
  let '(num, mul) := st in
  let c := nth i s "000"%char in
  if negb (Ascii.eqb c "-") then
    (num + mul * (Z.of_N (N_of_ascii c) - 48), mul * 10)
  else if Z.of_nat i =? len - 2 then (num, mul * 10)
  else if Z.of_nat i =? len - 5 then
    (if mul =? 1000 then (num, mul * 10) else (num, mul))
  else if Z.of_nat i =? len - 4 then (num, mul * 10)
  else (num, mul).

(** [for (int i = len - 1; i >= 0; i--)]: [n] indexes are left, the next
    one is [n - 1]. *)
Fixpoint date2num_loop (s : list ascii) (len : Z) (n : nat)
    (st : Z * Z) : Z * Z :=
  match n with
  | O => st
  | S i => date2num_loop s len i (date2num_step s len i st)
  end.

Definition date2num (s : string) : Z :=
  let l := chars_of s in
  fst (date2num_loop l (Z.of_nat (length l)) (length l) (0, 1)).

(** [check_date_data_convert (s, t)]: the number and the new value of the
    in-out flag [t].  [%] and [/] are C++'s (truncating). *)
Definition check_date_data_convert (s : string) (t : Z) : Z * Z :=
  let num := date2num s in
  let t := if (num <? 19700101) || (num >? 20380131) then 0 else t in
  let days := Z.rem num 100 in
  let t := if (days >? 31) || (days <? 1) then 0 else t in
  let mons := Z.quot (Z.rem num 10000) 100 in
  let t := if (mons >? 12) || (mons <? 1) then 0 else t in
  let years := Z.quot num 10000 in
  let t :=
    if mons =? 2 then
      if Z.rem years 4 =? 0 then (if days >? 29 then 0 else t)
      else (if days >? 28 then 0 else t)
    else t in
  let t :=
    if (mons =? 4) || (mons =? 6) || (mons =? 9) || (mons =? 11) then
      (if days >? 30 then 0 else t)
    else (if days >? 31 then 0 else t) in
  (num, t).

Definition value_init_string (v : string) (is_null : bool) : Value :=
  if is_null then
    {| type := NULLS; data := strdup v; is_null := is_null |}
  else if check_date_format v then
    let '(date_num, t) := check_date_data_convert v 1 in
    if negb (t =? 0) then
      {| type := DATES; data := int_to_bytes date_num; is_null := is_null |}
    else
      {| type := CHARS; data := strdup v; is_null := is_null |}
  else
    {| type := CHARS; data := strdup v; is_null := is_null |}.

(** [match_null]: ["^[Nn][Uu][Ll][Ll]$"] against the whole input. *)
Definition one_of (a b c : ascii) : bool := Ascii.eqb c a || Ascii.eqb c b.

Definition match_null (s : string) : bool :=
  match chars_of s with
  | [c1; c2; c3; c4] =>
      one_of "N" "n" c1 && one_of "U" "u" c2 && one_of "L" "l" c3 &&
      one_of "L" "l" c4
  | _ => false
  end.

(** [number % 10 + '0'], stored in a [char]. *)
Definition digit_char (number : Z) : ascii :=
  ascii_of_N (Z.to_N ((Z.rem number 10 + 48) mod 256)).

(** The [while (number != 0)] loop of [number_to_str]: what it appends to
    [s].  [fuel] bounds the number of rounds. *)
Fixpoint number_digits (fuel : nat) (number : Z) : list ascii :=
  match fuel with
  | O => []
  | S fuel' =>
      if number =? 0 then []
      else digit_char number :: number_digits fuel' (Z.quot number 10)
  end.

(** [number_to_str].  The buffers [s] and [ret] have 25 places, which is
    the bound of the loop here; [-number] is computed in [int]. *)
Definition number_to_str (number : Z) : string :=
  if number =? 0 then "0"%string
  else
    let sign := if number <? 0 then ["-"%char] else [] in
    let number := if number <? 0 then wrap32 (- number) else number in
    let s := number_digits 25 number in
    string_of_list_ascii (sign ++ s).

(** The two quotes that [load_data_init] strips. *)
Definition is_quote (c : ascii) : bool :=
  Ascii.eqb c "'" || Ascii.eqb c "034".

(** Modelled from the spec: [LoadData] of parse_defs.h, which is not under
    src/; the two members that [load_data_init] sets. *)
Record LoadData : Type := mkLoadData {
  relation_name : string;
  file_name : string
}.

(** [load_data_init].  With an empty name behind the leading quote the
    code reads [dup_file_name[-1]], which is outside the buffer
    ([None]). *)
Definition load_data_init (relation_name file_name : string)
    : option LoadData :=
  let f := chars_of file_name in
  let f :=
    match f with
    | c :: r => if is_quote c then r else f
    | [] => f
    end in
  let len := length f in
  if Nat.eqb len 0 then None
  else
    let dup_file_name :=
      if is_quote (nth (len - 1) f "000"%char) then take (len - 1) f
      else f in
    Some (mkLoadData relation_name (string_of_list_ascii dup_file_name)).

End Parse.

(** ** What a date literal denotes (the specification side) *)

Module DateSpec.

Local Open Scope Z_scope.

Definition digit_value (c : ascii) : Z := Z.of_N (N_of_ascii c) - 48.

(** The decimal number written by a run of digits. *)
Definition decimal (ds : list ascii) : Z :=
  fold_left (fun acc c => 10 * acc + digit_value c) ds 0.

(** The fields of ["Y-M-D"], cut at the dashes. *)
Fixpoint split_dash (l : list ascii) : list (list ascii) :=
  match l with
  | [] => [[]]
  | c :: r =>
      if Ascii.eqb c "-" then [] :: split_dash r
      else match split_dash r with
           | f :: fs => (c :: f) :: fs
           | [] => [[c]]
           end
  end.

Definition date_fields (s : string) : option (Z * Z * Z) :=
  match split_dash (list_ascii_of_string s) with
  | [y; m; d] => Some (decimal y, decimal m, decimal d)
  | _ => None
  end.

Definition packed (y m d : Z) : Z := y * 10000 + m * 100 + d.

Definition leap_year (y : Z) : bool :=
  ((y mod 4 =? 0) && negb (y mod 100 =? 0)) || (y mod 400 =? 0).

Definition days_in_month (y m : Z) : Z :=
  if m =? 2 then (if leap_year y then 29 else 28)
  else if (m =? 4) || (m =? 6) || (m =? 9) || (m =? 11) then 30
  else 31.

(** A date of the Gregorian calendar. *)
Definition gregorian_date (y m d : Z) : Prop :=
  1 <= m <= 12 /\ 1 <= d <= days_in_month y m.

(** A date that a DATE column can hold. *)
Definition storable_date (y m d : Z) : Prop :=
  19700101 <= packed y m d <= 20380131 /\ gregorian_date y m d.

End DateSpec.

(* ===================================================================== *)
(** * sql/executor/value.h                                                *)
(* ===================================================================== *)

(** [float] arithmetic is kept abstract: the type, the subtraction and the
    four tests that [FloatValue::compare] makes on the difference. *)
Section TupleValues.

Variable float : Type.
Variable float_sub : float -> float -> float.
Variable gt_minus_eps : float -> bool.   (* result > -1e-6 *)
Variable lt_eps : float -> bool.         (* result < 1e-6 *)
Variable gt_zero : float -> bool.        (* result > 0 *)
Variable lt_zero : float -> bool.        (* result < 0 *)

(** The three classes derived from [TupleValue], as one tagged union. *)
Inductive TupleValue : Type :=
  | IntValue (value_ : Z) (is_null_ : bool)
  | FloatValue (value_ : float) (is_null_ : bool)
  | StringValue (value_ : bytes) (is_null_ : bool).

Definition is_null (v : TupleValue) : bool :=
  match v with
  | IntValue _ n | FloatValue _ n | StringValue _ n => n
  end.

(** The kind of a value: which class it is an object of. *)
Definition same_kind (a b : TupleValue) : bool :=
  match a, b with
  | IntValue _ _, IntValue _ _ => true
  | FloatValue _ _, FloatValue _ _ => true
  | StringValue _ _, StringValue _ _ => true
  | _, _ => false
  end.

(** [strcmp] on the bytes before the terminator: the difference of the
    first pair of bytes that differ (only its sign is fixed by C). *)
Fixpoint strcmp (a b : bytes) : Z :=
  match a, b with
  | [], [] => 0
  | [], y :: _ => (0 - Z_of_byte y)%Z
  | x :: _, [] => Z_of_byte x
  | x :: a', y :: b' =>
      if decide (x = y) then
        (if decide (x = x00) then 0%Z else strcmp a' b')
      else (Z_of_byte x - Z_of_byte y)%Z
  end.

(** [compare].  The null test comes first; after it the other operand is
    cast to the class of [this], which is undefined when it is an object
    of another class ([None]). *)
Definition compare (self other : TupleValue) : option Z :=
  match self with
  | IntValue value_ is_null_ =>
      if is_null_ || is_null other then Some (-1)%Z
      else match other with
           | IntValue other_value_ _ => Some (wrap32 (value_ - other_value_))
           | _ => None
           end
  | FloatValue value_ is_null_ =>
      if is_null_ || is_null other then Some (-1)%Z
      else match other with
           | FloatValue other_value_ _ =>
               let result := float_sub value_ other_value_ in
               if gt_minus_eps result && lt_eps result then Some 0%Z
               else if gt_zero result then Some 1%Z
               else if lt_zero result then Some (-1)%Z
               else Some 0%Z
           | _ => None
           end
  | StringValue value_ is_null_ =>
      if is_null_ || is_null other then Some (-1)%Z
      else match other with
           | StringValue other_value_ _ => Some (strcmp value_ other_value_)
           | _ => None
           end
  end.

End TupleValues.

Arguments IntValue {float} value_ is_null_.
Arguments FloatValue {float} value_ is_null_.
Arguments StringValue {float} value_ is_null_.
Arguments is_null {float} v.
Arguments same_kind {float} a b.

(** [FloatValue::to_string], behind [sprintf (ftos, "%.2f", value_)]:
    [ftos] is what [sprintf] has written.  The [while] loop steps back
    over the zeros at the end; [n] is [s_end + 1], and with [s_end = -1]
    the loop reads in front of the buffer ([None]). *)
Fixpoint to_string_end (ftos : list ascii) (n : nat) : option nat :=
  match n with
  | O => None
  | S s_end =>
      if Ascii.eqb (nth s_end ftos "000"%char) "0" then to_string_end ftos s_end
      else Some s_end
  end.

Definition float_to_string (ftos : list ascii) : option (list ascii) :=
  match to_string_end ftos (length ftos) with
  | None => None
  | Some s_end =>
      if Ascii.eqb (nth s_end ftos "000"%char) "." then Some (take s_end ftos)
      else Some (take (S s_end) ftos)
  end.

(* ===================================================================== *)
(** * Collaborators of the table                                          *)
(* ===================================================================== *)

(** The files below ([table_meta], [field_meta], [index_meta],
    [record_manager], [bplus_tree_index], [trx], [condition_filter],
    [common/lang/string]) are used by table.cpp through their interfaces. *)

(** Modelled from the spec: [common::is_blank] of common/lang/string, which
    is not under src/; a name is blank when it has white space only. *)
Definition is_space (c : ascii) : bool :=
  let n := N_of_ascii c in
  (n =? 32)%N || ((9 <=? n)%N && (n <=? 13)%N).

Definition is_blank (s : string) : bool :=
  forallb is_space (list_ascii_of_string s).

(** Modelled from the spec: [RID] of record_manager.h, which is not under
    src/; "RID = (page, slot)". *)
Record RID : Type := mkRID { page_num : N; slot_num : N }.

#[global] Instance RID_eq_dec : EqDecision RID.
Proof. solve_decision. Defined.

#[global] Program Instance RID_countable : Countable RID :=
  inj_countable' (fun r => (page_num r, slot_num r))
                 (fun p => mkRID p.1 p.2) _.
Next Obligation. by intros []. Qed.

#[global] Program Instance byte_countable : Countable byte :=
  inj_countable Byte.to_N Byte.of_N _.
Next Obligation. intros b. apply Byte.of_to_N. Qed.

(** Page by page, slot by slot: the order of a heap scan. *)
Definition RID_le (a b : RID) : Prop :=
  (page_num a < page_num b)%N \/
  (page_num a = page_num b /\ (slot_num a <= slot_num b)%N).

#[global] Instance RID_le_dec a b : Decision (RID_le a b).
Proof. unfold RID_le. apply _. Defined.

(** Modelled from the spec: [struct Record] of record_manager.h, which is
    not under src/; the address and the bytes, the two members table.cpp
    uses.  In C++ [data] points into the page; here the bytes travel with
    the address and go back to the heap through the record manager. *)
Record Rec : Type := mkRec { rid : RID; data : bytes }.

(** Modelled from the spec: [FieldMeta] of field_meta.h, which is not under
    src/; "{ name, type, byte_offset_in_record, byte_length, nullable }". *)
Module FieldMeta.
Record t : Type := mk {
  name : string;
  type : AttrType;
  offset : nat;
  len : nat;
  nullable : bool
}.
(** What an index past the end of the field list yields (undefined in
    C++). *)
Definition invalid : t :=
  {| name := ""; type := UNDEFINED; offset := 0; len := 0;
     nullable := false |}.
End FieldMeta.

(** Modelled from the spec: [IndexMeta] of index_meta.h, which is not under
    src/; "{ index_name, field_name (single-column) }". *)
Module IndexMeta.
Record t : Type := mk { name : string; field : string }.

Definition init (name : string) (field : FieldMeta.t) : RC * t :=
  if is_blank name then (INVALID_ARGUMENT, mk "" "")
  else (SUCCESS, mk name (FieldMeta.name field)).
End IndexMeta.

(** Modelled from the spec: [TableMeta] of table_meta.h, which is not under
    src/; "{ name, ordered list of FieldMeta, record_size, list of
    IndexMeta }", the first [sys_field_num] fields being reserved for the
    transaction.  The accessors are the ones table.cpp calls. *)
Module TableMeta.
Record t : Type := mk {
  name : string;
  fields : list FieldMeta.t;
  indexes : list IndexMeta.t;
  record_size : nat;
  sys_field_num : nat
}.

Definition field_num (m : t) : nat := length (fields m).

(** [field (int index)] *)
Definition field (m : t) (i : nat) : FieldMeta.t :=
  nth i (fields m) FieldMeta.invalid.

(** [field (const char *name)] *)
Definition field_by_name (m : t) (n : string) : option FieldMeta.t :=
  List.find (fun f => String.eqb (FieldMeta.name f) n) (fields m).

Fixpoint index_of_name (n : string) (fs : list FieldMeta.t) (i : Z) : Z :=
  match fs with
  | [] => (-1)%Z
  | f :: r =>
      if String.eqb (FieldMeta.name f) n then i
      else index_of_name n r (i + 1)%Z
  end.

(** [find_field_index_by_name]: the position in the field list, -1 when no
    field has the name. *)
Definition find_field_index_by_name (m : t) (n : string) : Z :=
  index_of_name n (fields m) 0.

Definition find_field_by_offset (m : t) (off : nat) : option FieldMeta.t :=
  List.find (fun f => Nat.eqb (FieldMeta.offset f) off) (fields m).

(** [index (const char *name)] *)
Definition index (m : t) (n : string) : option IndexMeta.t :=
  List.find (fun i => String.eqb (IndexMeta.name i) n) (indexes m).

Definition find_index_by_field (m : t) (f : string) : option IndexMeta.t :=
  List.find (fun i => String.eqb (IndexMeta.field i) f) (indexes m).

Definition add_index (m : t) (i : IndexMeta.t) : RC * t :=
  (SUCCESS,
   {| name := name m; fields := fields m; indexes := indexes m ++ [i];
      record_size := record_size m; sys_field_num := sys_field_num m |}).

(** The offset behind the last field, where table.cpp puts the null
    marks: [last_field->offset() + last_field->len()]. *)
Definition null_field_index (m : t) : nat :=
  let last_field := field m (field_num m - 1) in
  FieldMeta.offset last_field + FieldMeta.len last_field.

(** The layout that table creation assigns: the fields follow each other
    from offset 0. *)
Fixpoint contiguous (off : nat) (fs : list FieldMeta.t) : bool :=
  match fs with
  | [] => true
  | f :: r =>
      Nat.eqb (FieldMeta.offset f) off &&
      contiguous (off + FieldMeta.len f) r
  end.

Definition total_len (fs : list FieldMeta.t) : nat :=
  foldr (fun f n => FieldMeta.len f + n) 0 fs.

End TableMeta.

(** Modelled from the spec: [RecordFileHandler] of record_manager, which is
    not under src/.  "insert_record: scan pages for a page with a free
    slot (create one if none), copy bytes, return (page, slot)";
    "update_record: overwrite in place"; "delete_record: clear bitmap
    bit"; the scanner advances "page-by-page, skipping empty slots".
    The live records are a finite map from RID to bytes; a call on an
    address without a record returns [GENERIC_ERROR]. *)
Module RecordFileHandler.
Record t : Type := mk {
  record_capacity : N;          (* slots of a page *)
  slots : gmap RID bytes
}.

(** The [n]-th slot of the file; pages are numbered from 1. *)
Definition rid_of (cap : N) (n : N) : RID :=
  mkRID (1 + n / cap) (n mod cap).

(** The first free slot at or after slot [n], looking at [fuel] slots. *)
Fixpoint first_free (h : t) (n : N) (fuel : nat) : RID :=
  match fuel with
  | O => rid_of (record_capacity h) n
  | S fuel' =>
      match slots h !! rid_of (record_capacity h) n with
      | None => rid_of (record_capacity h) n
      | Some _ => first_free h (n + 1)%N fuel'
      end
  end.

Definition free_slot (h : t) : RID := first_free h 0 (size (slots h)).

Definition insert_record (h : t) (data : bytes) (record_size : nat)
    : RC * RID * t :=
  let rid := free_slot h in
  (SUCCESS, rid,
   mk (record_capacity h) (<[rid := read_bytes data record_size]> (slots h))).

Definition get_record (h : t) (rid : RID) : RC * Rec :=
  match slots h !! rid with
  | Some d => (SUCCESS, mkRec rid d)
  | None => (GENERIC_ERROR, mkRec rid [])
  end.

Definition update_record (h : t) (rec : Rec) : RC * t :=
  match slots h !! rid rec with
  | Some _ =>
      (SUCCESS, mk (record_capacity h) (<[rid rec := data rec]> (slots h)))
  | None => (GENERIC_ERROR, h)
  end.

Definition delete_record (h : t) (rid : RID) : RC * t :=
  match slots h !! rid with
  | Some _ => (SUCCESS, mk (record_capacity h) (delete rid (slots h)))
  | None => (GENERIC_ERROR, h)
  end.

(** The addresses that a scan of the file visits, in its order. *)
Definition scan_order (h : t) : list RID :=
  merge_sort RID_le (elements (dom (slots h))).

End RecordFileHandler.

(** Modelled from the spec: [Index] / [BplusTreeIndex] of index.h and
    bplus_tree_index, which are not under src/.  "Leaf entries store
    (key, RID) pairs"; [insert_entry] and [delete_entry] extract the key
    from [field.offset/length] of the record.  The entries are a finite
    set; the order of the tree shows only through a scanner.
    The two [fault] marks stand for a failure of the index file, which the
    callers in table.cpp handle: a call on a faulty index returns [IOERR]
    and leaves the entries alone. *)
Module Index.
Record t : Type := mk {
  index_meta : IndexMeta.t;
  field_meta : FieldMeta.t;
  entries : gset (bytes * RID);
  insert_fault : bool;
  delete_fault : bool
}.

Definition key_of (idx : t) (record : bytes) : bytes :=
  take (FieldMeta.len (field_meta idx))
       (drop (FieldMeta.offset (field_meta idx)) record).

Definition with_entries (idx : t) (es : gset (bytes * RID)) : t :=
  mk (index_meta idx) (field_meta idx) es (insert_fault idx)
     (delete_fault idx).

Definition create (im : IndexMeta.t) (fm : FieldMeta.t) : t :=
  mk im fm ∅ false false.

Definition insert_entry (idx : t) (record : bytes) (rid : RID) : RC * t :=
  if insert_fault idx then (IOERR, idx)
  else (SUCCESS, with_entries idx ({[ (key_of idx record, rid) ]} ∪ entries idx)).

(** An entry that is not in the tree is reported as
    [RECORD_INVALID_KEY]. *)
Definition delete_entry (idx : t) (record : bytes) (rid : RID) : RC * t :=
  if delete_fault idx then (IOERR, idx)
  else if decide ((key_of idx record, rid) ∈ entries idx) then
    (SUCCESS, with_entries idx (entries idx ∖ {[ (key_of idx record, rid) ]}))
  else (RECORD_INVALID_KEY, idx).

End Index.

(** An [IndexScanner] is what it will yield: [next_entry] hands out the
    head, and [RECORD_EOF] when nothing is left. *)
Abbreviation IndexScanner := (list RID).

(** Modelled from the spec: [Trx] of storage/trx, which is not under src/.
    The head of every record, here the first system field, "encodes
    { owning_trx_id, deleted_flag }"; the operation log is "an ordered list
    of { op_kind, table, RID, (old_bytes | new_bytes) }".  One table is in
    scope, so an entry does not name it.  The packing of the two header
    components into the 32-bit field (the flag in the top bit) is this
    model's choice.
    [log_fault] stands for a failure of [Trx::insert_record], which
    [Table::insert_record] handles: the call then returns [GENERIC_ERROR]
    and logs nothing. *)
Module Trx.

Local Open Scope Z_scope.

Inductive OperationType : Type := INSERT | DELETE | UPDATE.

Record Operation : Type := mkOp {
  op_type : OperationType;
  op_rid : RID;
  old_bytes : bytes;
  new_bytes : bytes
}.

Record t : Type := mk {
  trx_id : Z;
  operations : list Operation;
  log_fault : bool
}.

Definition log (x : t) (o : Operation) : t :=
  mk (trx_id x) (operations x ++ [o]) (log_fault x).

Definition trx_field (m : TableMeta.t) : FieldMeta.t := TableMeta.field m 0.

Definition bytes_to_int (b : bytes) : Z :=
  Z_of_byte (nth 0 b x00) + 256 * Z_of_byte (nth 1 b x00) +
  65536 * Z_of_byte (nth 2 b x00) + 16777216 * Z_of_byte (nth 3 b x00).

Definition set_record_trx_id (m : TableMeta.t) (record : bytes)
    (id : Z) (deleted : bool) : bytes :=
  memcpy record (FieldMeta.offset (trx_field m))
         (int_to_bytes (id mod 2147483648 +
                        (if deleted then 2147483648 else 0))) 4.

Definition get_record_trx_id (m : TableMeta.t) (record : bytes) : Z * bool :=
  let v := bytes_to_int (drop (FieldMeta.offset (trx_field m)) record) in
  (v mod 2147483648, 2147483648 <=? v).

(** "stamps record header with current trx id" *)
Definition init_trx_info (x : t) (m : TableMeta.t) (record : bytes) : bytes :=
  set_record_trx_id m record (trx_id x) false.

(** "appends an INSERT log entry" *)
Definition insert_record (x : t) (record : Rec) : RC * t :=
  if log_fault x then (GENERIC_ERROR, x)
  else (SUCCESS, log x (mkOp INSERT (rid record) [] [])).

(** "appends an UPDATE entry with the old and new payloads" *)
Definition update_record (x : t) (record : Rec) (new_record_data : bytes)
    : RC * t :=
  (SUCCESS, log x (mkOp UPDATE (rid record) (data record) new_record_data)).

(** "sets deleted_flag, writes the record back in place via the record
    manager, appends a DELETE entry" *)
Definition delete_record (x : t) (m : TableMeta.t)
    (h : RecordFileHandler.t) (record : Rec)
    : RC * t * RecordFileHandler.t :=
  let record' :=
    mkRec (rid record) (set_record_trx_id m (data record) (trx_id x) true) in
  let '(rc, h') := RecordFileHandler.update_record h record' in
  if bool_decide (rc <> SUCCESS) then (rc, x, h')
  else (SUCCESS, log x (mkOp DELETE (rid record) [] []), h').

(** The undo of [delete_record]: the header goes back to "committed, not
    deleted" and the record is written back in place. *)
Definition rollback_delete (x : t) (m : TableMeta.t)
    (h : RecordFileHandler.t) (record : Rec) : RC * RecordFileHandler.t :=
  RecordFileHandler.update_record h
    (mkRec (rid record) (set_record_trx_id m (data record) 0 false)).

(** "A record is visible to transaction T iff either (a) its owner is 0
    and it is not deleted, or (b) its owner equals T"; "records deleted by
    T but not yet committed are invisible to T". *)
Definition is_visible (x : t) (m : TableMeta.t) (record : bytes) : bool :=
  let '(owner, deleted) := get_record_trx_id m record in
  ((owner =? 0) && negb deleted) || ((owner =? trx_id x) && negb deleted).

End Trx.

(** Modelled from the spec: the condition filters of condition_filter,
    which are not under src/.  A [DefaultConditionFilter] holds "one
    triple (left, op, right)"; table.cpp reads the two sides and the
    operator, and calls the virtual [filter (record)], kept here as the
    function the object carries.  A [CompositeConditionFilter] is "an AND
    over a list" of filters. *)
Inductive CompOp : Type :=
  | EQUAL_TO | LESS_EQUAL | NOT_EQUAL | LESS_THAN | GREAT_EQUAL | GREAT_THAN
  | NO_OP.

Record ConDesc : Type := mkConDesc {
  is_attr : bool;
  attr_length : nat;
  attr_offset : nat;
  value : bytes;
  null_field_index : Z
}.

Record DefaultConditionFilter : Type := mkDefaultConditionFilter {
  left : ConDesc;
  right : ConDesc;
  comp_op : CompOp;
  filter_ : Rec -> bool
}.

#[warnings="-register-all"] Inductive ConditionFilter : Type :=
  | Default (f : DefaultConditionFilter)
  | Composite (fs : list ConditionFilter).

Fixpoint filter_record (f : ConditionFilter) (r : Rec) : bool :=
  match f with
  | Default d => filter_ d r
  | Composite fs =>
      (fix all (l : list ConditionFilter) : bool :=
         match l with
         | [] => true
         | g :: l' => if filter_record g r then all l' else false
         end) fs
  end.

(** [filter == nullptr || filter->filter (record)] *)
Definition passes (filter : option ConditionFilter) (r : Rec) : bool :=
  match filter with
  | None => true
  | Some f => filter_record f r
  end.

(** Modelled from the spec: [RelAttr] and [Condition] of parse_defs.h,
    which is not under src/; the conditions of a WHERE clause, which "the
    parser may produce" with a "table qualifier".  The members are the
    ones that [relation_attr_init] and [condition_init] of parse.cpp set;
    a null [char *] is [None]. *)
Module ParseDefs.

Record RelAttr : Type := mkRelAttr {
  relation_name : option string;
  attribute_name : string;
  window_function_name : option string;
  is_desc : Z
}.

Definition relation_attr_init (relation_name : option string)
    (attribute_name : string) (window_function_name : option string)
    (_is_desc : Z) : RelAttr :=
  {| relation_name := relation_name; attribute_name := attribute_name;
     window_function_name := window_function_name; is_desc := _is_desc |}.

Record Condition : Type := mkCondition {
  comp : CompOp;
  is_valid : bool;
  left_is_attr : Z;
  left_attr : RelAttr;
  left_value : Parse.Value;
  right_is_attr : Z;
  right_attr : RelAttr;
  right_value : Parse.Value
}.

(** [condition_init] writes into [*condition]: of each side the member
    that the flag selects, the other one stays as it was. *)
Definition condition_init (condition : Condition) (comp : CompOp)
    (left_is_attr : Z) (left_attr : RelAttr) (left_value : Parse.Value)
    (right_is_attr : Z) (right_attr : RelAttr) (right_value : Parse.Value)
    : Condition :=
  {| comp := comp;
     is_valid := true;
     left_is_attr := left_is_attr;
     left_attr :=
       if negb (left_is_attr =? 0)%Z then left_attr
       else ParseDefs.left_attr condition;
     left_value :=
       if negb (left_is_attr =? 0)%Z then ParseDefs.left_value condition
       else left_value;
     right_is_attr := right_is_attr;
     right_attr :=
       if negb (right_is_attr =? 0)%Z then right_attr
       else ParseDefs.right_attr condition;
     right_value :=
       if negb (right_is_attr =? 0)%Z then ParseDefs.right_value condition
       else right_value |}.

End ParseDefs.

(* ===================================================================== *)
(** * storage/common/table.cpp                                            *)
(* ===================================================================== *)

Module Table.

Abbreviation Value := Parse.Value.

(** The members of [Table] that the operations below touch (table.h is
    not under src/; these are the ones table.cpp names). *)
Record t : Type := mk {
  table_meta_ : TableMeta.t;
  record_handler_ : RecordFileHandler.t;
  indexes_ : list Index.t
}.

Definition with_handler (tb : t) (h : RecordFileHandler.t) : t :=
  mk (table_meta_ tb) h (indexes_ tb).

Definition with_indexes (tb : t) (l : list Index.t) : t :=
  mk (table_meta_ tb) (record_handler_ tb) l.

(** A record reader: it gets the record, the table it may change (the
    readers of table.cpp hold a reference to it) and its own context. *)
Definition record_reader (C : Type) : Type := Rec -> t -> C -> RC * t * C.

(** ** The index list *)

Fixpoint insert_entry_of_indexes (indexes : list Index.t) (record : bytes)
    (rid : RID) : RC * list Index.t :=
  match indexes with
  | [] => (SUCCESS, [])
  | index :: rest =>
      let '(rc, index') := Index.insert_entry index record rid in
      if bool_decide (rc <> SUCCESS) then (rc, index' :: rest)
      else
        let '(rc', rest') := insert_entry_of_indexes rest record rid in
        (rc', index' :: rest')
  end.

(** The loop of [delete_entry_of_indexes]; [rc] is the code of the last
    call so far. *)
Fixpoint delete_entry_loop (rc : RC) (indexes : list Index.t)
    (record : bytes) (rid : RID) (error_on_not_exists : bool)
    : RC * list Index.t :=
  match indexes with
  | [] => (rc, [])
  | index :: rest =>
      let '(rc, index') := Index.delete_entry index record rid in
      if bool_decide (rc <> SUCCESS) &&
         (bool_decide (rc <> RECORD_INVALID_KEY) || negb error_on_not_exists)
      then (rc, index' :: rest)
      else
        let '(rc', rest') :=
          delete_entry_loop rc rest record rid error_on_not_exists in
        (rc', index' :: rest')
  end.

Definition delete_entry_of_indexes (indexes : list Index.t) (record : bytes)
    (rid : RID) (error_on_not_exists : bool) : RC * list Index.t :=
  delete_entry_loop SUCCESS indexes record rid error_on_not_exists.

Fixpoint find_index_from (k : nat) (indexes : list Index.t)
    (index_name : string) : option nat :=
  match indexes with
  | [] => None
  | index :: rest =>
      if String.eqb (IndexMeta.name (Index.index_meta index)) index_name
      then Some k
      else find_index_from (S k) rest index_name
  end.

(** [find_index]: the position of the index in [indexes_] stands for the
    pointer. *)
Definition find_index (tb : t) (index_name : string) : option nat :=
  find_index_from 0 (indexes_ tb) index_name.

(** ** Insertion *)

Definition rollback_insert (tb : t) (rid : RID) : RC * t :=
  let '(rc, record) := RecordFileHandler.get_record (record_handler_ tb) rid in
  if bool_decide (rc <> SUCCESS) then (rc, tb)
  else
    let '(rc, idx) :=
      delete_entry_of_indexes (indexes_ tb) (data record) rid false in
    if bool_decide (rc <> SUCCESS) then (rc, with_indexes tb idx)
    else
      let '(rc, h) :=
        RecordFileHandler.delete_record (record_handler_ tb) rid in
      (rc, mk (table_meta_ tb) h idx).

(** [insert_record (Trx *trx, Record *record)] *)
Definition insert_record (tb : t) (trx : option Trx.t) (record : Rec)
    : RC * t * option Trx.t * Rec :=
  let m := table_meta_ tb in
  let record :=
    match trx with
    | Some x => mkRec (rid record) (Trx.init_trx_info x m (data record))
    | None => record
    end in
  let '(rc, new_rid, h) :=
    RecordFileHandler.insert_record (record_handler_ tb) (data record)
      (TableMeta.record_size m + TableMeta.field_num m) in
  if bool_decide (rc <> SUCCESS) then (rc, tb, trx, record)
  else
    let record := mkRec new_rid (data record) in
    let '(rc, trx') :=
      match trx with
      | Some x => let '(rc, x') := Trx.insert_record x record in (rc, Some x')
      | None => (SUCCESS, None)
      end in
    if bool_decide (rc <> SUCCESS) then
      let '(rc2, h2) := RecordFileHandler.delete_record h (rid record) in
      (rc, with_handler tb h2, trx', record)
    else
      let '(rc, idx) :=
        insert_entry_of_indexes (indexes_ tb) (data record) (rid record) in
      if bool_decide (rc <> SUCCESS) then
        let '(rc2, idx2) :=
          delete_entry_of_indexes idx (data record) (rid record) true in
        let '(rc2, h2) := RecordFileHandler.delete_record h (rid record) in
        (rc, mk m h2 idx2, trx', record)
      else (rc, mk m h idx, trx', record).

Definition is_legal (value : Value) (field : FieldMeta.t) : RC :=
  let rc :=
    if bool_decide (Parse.type value = NULLS) then
      (if negb (FieldMeta.nullable field) then SCHEMA_FIELD_NAME_ILLEGAL
       else SUCCESS)
    else if bool_decide (FieldMeta.type field <> Parse.type value) then
      SCHEMA_FIELD_TYPE_MISMATCH
    else SUCCESS in
  if bool_decide (rc <> SUCCESS) then rc
  else if bool_decide (Parse.type value = CHARS) then
    (if Nat.ltb (FieldMeta.len field) (strlen (Parse.data value))
     then SCHEMA_FIELD_MISSING else SUCCESS)
  else SUCCESS.

(** The first loop of [make_record], from value [i] on. *)
Fixpoint check_values (m : TableMeta.t) (i : nat) (values : list Value) : RC :=
  match values with
  | [] => SUCCESS
  | value :: rest =>
      let field := TableMeta.field m (i + TableMeta.sys_field_num m) in
      let rc := is_legal value field in
      if bool_decide (rc <> SUCCESS) then rc
      else check_values m (S i) rest
  end.

Definition null_flag (b : bool) : bytes := [if b then x01 else x00].

(** What [make_record] stores for a null value of a field. *)
Definition null_payload (record : bytes) (field : FieldMeta.t) : bytes :=
  let off := FieldMeta.offset field in
  let len := FieldMeta.len field in
  match FieldMeta.type field with
  | CHARS => memcpy record off (Parse.strdup "NULL") len
  | DATES => memcpy record off (int_to_bytes 19700101) len
  | FLOATS => memcpy record off [x00; x00; x00; x00] len
  | INTS => memcpy record off (int_to_bytes 0) len
  | _ => record
  end.

(** The second loop of [make_record], from value [i] on. *)
Fixpoint fill_record (m : TableMeta.t) (null_field_index : nat) (i : nat)
    (values : list Value) (record : bytes) : bytes :=
  match values with
  | [] => record
  | value :: rest =>
      let field := TableMeta.field m (i + TableMeta.sys_field_num m) in
      let record :=
        if Parse.is_null value then
          memcpy (null_payload record field) (null_field_index + i)
                 (null_flag true) 1
        else
          memcpy (memcpy record (FieldMeta.offset field) (Parse.data value)
                         (FieldMeta.len field))
                 (null_field_index + i) (null_flag false) 1 in
      fill_record m null_field_index (S i) rest record
  end.

(** [make_record]; [value_num] is the length of [values].  The fresh
    [new char[...]] is indeterminate in C++ and zero here. *)
Definition make_record (tb : t) (values : list Value) : RC * bytes :=
  let m := table_meta_ tb in
  let value_num := length values in
  if bool_decide (value_num + TableMeta.sys_field_num m <> TableMeta.field_num m)
  then (SCHEMA_FIELD_MISSING, [])
  else
    let rc := check_values m 0 values in
    if bool_decide (rc <> SUCCESS) then (rc, [])
    else
      let record_size := TableMeta.record_size m in
      let field :=
        TableMeta.field m (value_num - 1 + TableMeta.sys_field_num m) in
      let null_field_index := FieldMeta.offset field + FieldMeta.len field in
      let record := replicate (record_size + value_num) x00 in
      (SUCCESS, fill_record m null_field_index 0 values record).

(** [insert_record (Trx *trx, int value_num, const Value *values, ...)];
    the array and its length are the list. *)
Definition insert_record_values (tb : t) (trx : option Trx.t)
    (values : list Value) : RC * t * option Trx.t :=
  if bool_decide (length values <= 0) then (INVALID_ARGUMENT, tb, trx)
  else
    let '(rc, record_data) := make_record tb values in
    if bool_decide (rc <> SUCCESS) then (rc, tb, trx)
    else
      let record := mkRec (mkRID 0 0) record_data in
      let '(rc, tb', trx', _) := insert_record tb trx record in
      (rc, tb', trx').

(** ** Scans *)

(** [trx == nullptr || trx->is_visible (this, &record)] *)
Definition visible (tb : t) (trx : option Trx.t) (record : Rec) : bool :=
  match trx with
  | None => true
  | Some x => Trx.is_visible x (table_meta_ tb) (data record)
  end.

Section Scans.

(** [Index::create_scanner (comp_op, value, null_field_index)] belongs to
    the B+-tree, whose key comparison is not under src/; the scans take it
    as a parameter. *)
Variable create_scanner : Index.t -> CompOp -> bytes -> Z -> IndexScanner.

Context {C : Type}.

(** The [while] loop of [scan_record_by_index]; [scanner] is what the
    scanner still has to yield. *)
Fixpoint scan_record_by_index_loop (trx : option Trx.t)
    (scanner : IndexScanner) (filter : option ConditionFilter)
    (limit record_count : Z) (reader : record_reader C)
    (tb : t) (context : C) : RC * t * C :=
  if (record_count <? limit)%Z then
    match scanner with
    | [] => (SUCCESS, tb, context)
    | rid :: scanner' =>
        let '(rc, record) :=
          RecordFileHandler.get_record (record_handler_ tb) rid in
        if bool_decide (rc <> SUCCESS) then (rc, tb, context)
        else if visible tb trx record && passes filter record then
          let '(rc, tb', context') := reader record tb context in
          if bool_decide (rc <> SUCCESS) then (rc, tb', context')
          else
            scan_record_by_index_loop trx scanner' filter limit
              (record_count + 1)%Z reader tb' context'
        else
          scan_record_by_index_loop trx scanner' filter limit
            (record_count + 1)%Z reader tb context
    end
  else (SUCCESS, tb, context).

Definition scan_record_by_index (tb : t) (trx : option Trx.t)
    (scanner : IndexScanner) (filter : option ConditionFilter) (limit : Z)
    (context : C) (reader : record_reader C) : RC * t * C :=
  scan_record_by_index_loop trx scanner filter limit 0 reader tb context.

(** The [for] loop of the heap path of [scan_record].  Modelled from the
    spec: the [RecordFileScanner] of record_manager, which is not under
    src/, "produces an iterator over live records" that pass the filter it
    was opened with; [rids] are the slots it has not looked at yet, and a
    slot is read when the scanner reaches it. *)
Fixpoint scan_record_heap_loop (trx : option Trx.t) (rids : list RID)
    (filter : option ConditionFilter) (limit record_count : Z)
    (reader : record_reader C) (tb : t) (context : C) : RC * t * C :=
  match rids with
  | [] => (SUCCESS, tb, context)
  | rid :: rids' =>
      match RecordFileHandler.slots (record_handler_ tb) !! rid with
      | Some d =>
          let record := mkRec rid d in
          if passes filter record then
            if (record_count <? limit)%Z then
              if visible tb trx record then
                let '(rc, tb', context') := reader record tb context in
                if bool_decide (rc <> SUCCESS) then (rc, tb', context')
                else
                  scan_record_heap_loop trx rids' filter limit
                    (record_count + 1)%Z reader tb' context'
              else
                scan_record_heap_loop trx rids' filter limit record_count
                  reader tb context
            else (SUCCESS, tb, context)
          else
            scan_record_heap_loop trx rids' filter limit record_count
              reader tb context
      | None =>
          scan_record_heap_loop trx rids' filter limit record_count
            reader tb context
      end
  end.

Definition find_index_for_scan_default (tb : t)
    (filter : DefaultConditionFilter) : option IndexScanner :=
  let conds :=
    if is_attr (left filter) && negb (is_attr (right filter)) then
      Some (left filter, right filter)
    else if is_attr (right filter) && negb (is_attr (left filter)) then
      Some (right filter, left filter)
    else None in
  match conds with
  | None => None
  | Some (field_cond_desc, value_cond_desc) =>
      match TableMeta.find_field_by_offset (table_meta_ tb)
              (attr_offset field_cond_desc) with
      | None => None
      | Some field_meta =>
          match TableMeta.find_index_by_field (table_meta_ tb)
                  (FieldMeta.name field_meta) with
          | None => None
          | Some index_meta =>
              match find_index tb (IndexMeta.name index_meta) with
              | None => None
              | Some k =>
                  match indexes_ tb !! k with
                  | None => None
                  | Some index =>
                      Some (create_scanner index (comp_op filter)
                              (value value_cond_desc)
                              (null_field_index field_cond_desc))
                  end
              end
          end
      end
  end.

Fixpoint find_index_for_scan_filter (tb : t) (filter : ConditionFilter)
    : option IndexScanner :=
  match filter with
  | Default f => find_index_for_scan_default tb f
  | Composite fs =>
      (fix first (l : list ConditionFilter) : option IndexScanner :=
         match l with
         | [] => None
         | g :: l' =>
             match find_index_for_scan_filter tb g with
             | Some scanner => Some scanner
             | None => first l'
             end
         end) fs
  end.

(** [find_index_for_scan (const ConditionFilter *filter)] *)
Definition find_index_for_scan (tb : t) (filter : option ConditionFilter)
    : option IndexScanner :=
  match filter with
  | None => None
  | Some f => find_index_for_scan_filter tb f
  end.

(** [scan_record (trx, filter, limit, context, record_reader)]; a null
    [record_reader] is [None]. *)
Definition scan_record (tb : t) (trx : option Trx.t)
    (filter : option ConditionFilter) (limit : Z) (context : C)
    (reader : option (record_reader C)) : RC * t * C :=
  match reader with
  | None => (INVALID_ARGUMENT, tb, context)
  | Some reader =>
      if (limit =? 0)%Z then (SUCCESS, tb, context)
      else
        let limit := if (limit <? 0)%Z then INT_MAX else limit in
        match find_index_for_scan tb filter with
        | Some index_scanner =>
            scan_record_by_index tb trx index_scanner filter limit context
              reader
        | None =>
            scan_record_heap_loop trx
              (RecordFileHandler.scan_order (record_handler_ tb))
              filter limit 0 reader tb context
        end
  end.

End Scans.

(** ** Index creation *)

(** [IndexInserter] holds the index that is being filled. *)
Definition insert_index_record_reader_adapter : record_reader Index.t :=
  fun record tb index =>
    let '(rc, index') := Index.insert_entry index (data record) (rid record) in
    (rc, tb, index').

(** How the system calls of [create_index] turn out: the creation of the
    index file, the opening of the temporary metadata file, the dump of
    the metadata and the [rename]. *)
Record SysCalls : Type := mkSysCalls {
  index_file_created : bool;
  tmp_file_opened : bool;
  meta_serialized : bool;
  tmp_file_renamed : bool
}.

Definition is_some {A : Type} (o : option A) : bool :=
  match o with Some _ => true | None => false end.

Section CreateIndex.

Variable create_scanner : Index.t -> CompOp -> bytes -> Z -> IndexScanner.

(** [create_index (trx, index_name, attribute_name)]; a null name is
    [None]. *)
Definition create_index (tb : t) (trx : option Trx.t)
    (index_name attribute_name : option string) (sys : SysCalls) : RC * t :=
  match index_name, attribute_name with
  | Some index_name, Some attribute_name =>
      if is_blank index_name || is_blank attribute_name then
        (INVALID_ARGUMENT, tb)
      else if is_some (TableMeta.index (table_meta_ tb) index_name) ||
              is_some (TableMeta.find_index_by_field (table_meta_ tb)
                         attribute_name)
      then (SCHEMA_INDEX_EXIST, tb)
      else
        match TableMeta.field_by_name (table_meta_ tb) attribute_name with
        | None => (SCHEMA_FIELD_MISSING, tb)
        | Some field_meta =>
            let '(rc, new_index_meta) :=
              IndexMeta.init index_name field_meta in
            if bool_decide (rc <> SUCCESS) then (rc, tb)
            else if negb (index_file_created sys) then (IOERR, tb)
            else
              let index := Index.create new_index_meta field_meta in
              let '(rc, tb, index) :=
                scan_record create_scanner tb trx None (-1) index
                  (Some insert_index_record_reader_adapter) in
              if bool_decide (rc <> SUCCESS) then (rc, tb)
              else
                let tb := with_indexes tb (indexes_ tb ++ [index]) in
                let '(rc, new_table_meta) :=
                  TableMeta.add_index (table_meta_ tb) new_index_meta in
                if bool_decide (rc <> SUCCESS) then (rc, tb)
                else if negb (tmp_file_opened sys) then (IOERR, tb)
                else if negb (meta_serialized sys) then (IOERR, tb)
                else if negb (tmp_file_renamed sys) then (IOERR, tb)
                else
                  (rc, mk new_table_meta (record_handler_ tb) (indexes_ tb))
        end
  | _, _ => (INVALID_ARGUMENT, tb)
  end.

End CreateIndex.

(** ** Update and delete of one record *)

(** [update_record (Trx *trx, Record *record, const char *attribute_name,
    const Value *value)].  The block under [if (false)] is kept as it
    stands in the source. *)
Definition update_record (tb : t) (trx : option Trx.t) (record : Rec)
    (attribute_name : string) (value : Value)
    : RC * t * option Trx.t * Rec :=
  let m := table_meta_ tb in
  let i := TableMeta.find_field_index_by_name m attribute_name in
  if (i =? -1)%Z then (SCHEMA_FIELD_NOT_EXIST, tb, trx, record)
  else
    let field_meta := TableMeta.field m (Z.to_nat i) in
    let '(rc, trx) :=
      if false then
        let new_record_data :=
          memcpy (take (strlen (data record)) (data record) ++ [x00])
                 (FieldMeta.offset field_meta) (Parse.data value)
                 (FieldMeta.len field_meta) in
        match trx with
        | Some x =>
            let '(rc, x') := Trx.update_record x record new_record_data in
            (rc, Some x')
        | None => (SUCCESS, None)
        end
      else (SUCCESS, trx) in
    if bool_decide (rc <> SUCCESS) then (rc, tb, trx, record)
    else
      let index := find_index tb attribute_name in
      let '(rc, indexes) :=
        match index with
        | Some k =>
            match indexes_ tb !! k with
            | Some idx =>
                let '(rc, idx') :=
                  Index.delete_entry idx (data record) (rid record) in
                (rc, <[k := idx']> (indexes_ tb))
            | None => (SUCCESS, indexes_ tb)
            end
        | None => (SUCCESS, indexes_ tb)
        end in
      if bool_decide (rc <> SUCCESS) then
        (rc, with_indexes tb indexes, trx, record)
      else
        let rc := is_legal value field_meta in
        if bool_decide (rc <> SUCCESS) then
          (rc, with_indexes tb indexes, trx, record)
        else
          let d :=
            memcpy (data record) (FieldMeta.offset field_meta)
                   (Parse.data value) (FieldMeta.len field_meta) in
          let null_field_index := TableMeta.null_field_index m in
          let pos := (Z.of_nat null_field_index + i - 1)%Z in
          let d :=
            if (0 <=? pos)%Z then
              memcpy d (Z.to_nat pos) (null_flag (Parse.is_null value)) 1
            else d in
          let record := mkRec (rid record) d in
          let '(rc, h) :=
            RecordFileHandler.update_record (record_handler_ tb) record in
          if bool_decide (rc <> SUCCESS) then
            (rc, mk m h indexes, trx, record)
          else
            match index with
            | Some k =>
                match indexes !! k with
                | Some idx =>
                    let '(rc, idx') :=
                      Index.insert_entry idx (data record) (rid record) in
                    let indexes := <[k := idx']> indexes in
                    if bool_decide (rc <> SUCCESS) then
                      let '(rc2, indexes2) :=
                        delete_entry_of_indexes indexes (data record)
                          (rid record) true in
                      let '(rc2, h2) :=
                        RecordFileHandler.delete_record h (rid record) in
                      (rc, mk m h2 indexes2, trx, record)
                    else (rc, mk m h indexes, trx, record)
                | None => (rc, mk m h indexes, trx, record)
                end
            | None => (rc, mk m h indexes, trx, record)
            end.

(** [RecordUpdater]: the transaction, the count and the assignment. *)
Record RecordUpdater : Type := mkRecordUpdater {
  trx_ : option Trx.t;
  updated_count_ : Z;
  attribute_name_ : string;
  value_ : Value
}.

Definition record_reader_update_adapter : record_reader RecordUpdater :=
  fun record tb u =>
    let '(rc, tb', trx', _) :=
      update_record tb (trx_ u) record (attribute_name_ u) (value_ u) in
    (rc, tb',
     mkRecordUpdater trx'
       (if bool_decide (rc = SUCCESS) then (updated_count_ u + 1)%Z
        else updated_count_ u)
       (attribute_name_ u) (value_ u)).

(** [delete_record (Trx *trx, Record *record)] *)
Definition delete_record (tb : t) (trx : option Trx.t) (record : Rec)
    : RC * t * option Trx.t :=
  match trx with
  | Some x =>
      let '(rc, x', h) :=
        Trx.delete_record x (table_meta_ tb) (record_handler_ tb) record in
      (rc, with_handler tb h, Some x')
  | None =>
      let '(rc, idx) :=
        delete_entry_of_indexes (indexes_ tb) (data record) (rid record)
          false in
      if bool_decide (rc <> SUCCESS) then (rc, with_indexes tb idx, None)
      else
        let '(rc, h) :=
          RecordFileHandler.delete_record (record_handler_ tb) (rid record) in
        (rc, mk (table_meta_ tb) h idx, None)
  end.

Definition rollback_delete (tb : t) (trx : Trx.t) (rid : RID) : RC * t :=
  let '(rc, record) := RecordFileHandler.get_record (record_handler_ tb) rid in
  if bool_decide (rc <> SUCCESS) then (rc, tb)
  else
    let '(rc, h) :=
      Trx.rollback_delete trx (table_meta_ tb) (record_handler_ tb) record in
    (rc, with_handler tb h).

(** ** Commit of a logged operation *)

(** [commit_delete (Trx *trx, const RID &rid)]; [rid0] is the argument.
    The code of the index deletion is logged and overwritten. *)
Definition commit_delete (tb : t) (rid0 : RID) : RC * t :=
  let '(rc, record) := RecordFileHandler.get_record (record_handler_ tb) rid0 in
  if bool_decide (rc <> SUCCESS) then (rc, tb)
  else
    let '(rc, idx) :=
      delete_entry_of_indexes (indexes_ tb) (data record) (rid record)
        false in
    let '(rc, h) := RecordFileHandler.delete_record (record_handler_ tb) rid0 in
    (rc, mk (table_meta_ tb) h idx).

(** [commit_update (Trx *trx, const RID &rid, char *new_record_data)];
    the new bytes go into the record by [strcpy]. *)
Definition commit_update (tb : t) (rid0 : RID) (new_record_data : bytes)
    : RC * t :=
  let m := table_meta_ tb in
  let '(rc, record) := RecordFileHandler.get_record (record_handler_ tb) rid0 in
  if bool_decide (rc <> SUCCESS) then (rc, tb)
  else
    let '(rc, idx) :=
      delete_entry_of_indexes (indexes_ tb) (data record) (rid record)
        false in
    if bool_decide (rc <> SUCCESS) then (rc, with_indexes tb idx)
    else
      let record := mkRec (rid record) (strcpy (data record) new_record_data) in
      let '(rc, h) :=
        RecordFileHandler.update_record (record_handler_ tb) record in
      if bool_decide (rc <> SUCCESS) then (rc, mk m h idx)
      else
        let '(rc, idx') :=
          insert_entry_of_indexes idx (data record) (rid record) in
        if bool_decide (rc <> SUCCESS) then
          let '(rc2, idx2) :=
            delete_entry_of_indexes idx' (data record) (rid record) true in
          let '(rc2, h2) := RecordFileHandler.delete_record h (rid record) in
          (rc, mk m h2 idx2)
        else (rc, mk m h idx').

(** [get_index_names] *)
Definition get_index_names (tb : t) : list string :=
  map (fun idx => IndexMeta.name (Index.index_meta idx)) (indexes_ tb).

(** ** The statements UPDATE and DELETE *)

(** [RecordDeleter]: the transaction and the count. *)
Module RecordDeleter.
Record t : Type := mk {
  trx_ : option Trx.t;
  deleted_count_ : Z
}.
End RecordDeleter.

Definition record_reader_delete_adapter : record_reader RecordDeleter.t :=
  fun record tb deleter =>
    let '(rc, tb', trx') :=
      delete_record tb (RecordDeleter.trx_ deleter) record in
    (rc, tb',
     RecordDeleter.mk trx'
       (if bool_decide (rc = SUCCESS)
        then (RecordDeleter.deleted_count_ deleter + 1)%Z
        else RecordDeleter.deleted_count_ deleter)).

(** The test that [update_record] makes on one condition: a side that is
    an attribute names another table than [rel_name]. *)
Definition names_other_table (rel_name : string)
    (cond : ParseDefs.Condition) : bool :=
  ((ParseDefs.left_is_attr cond =? 1)%Z &&
   match ParseDefs.relation_name (ParseDefs.left_attr cond) with
   | Some cond_rel_name => negb (String.eqb cond_rel_name rel_name)
   | None => false
   end) ||
  ((ParseDefs.right_is_attr cond =? 1)%Z &&
   match ParseDefs.relation_name (ParseDefs.right_attr cond) with
   | Some cond_rel_name => negb (String.eqb cond_rel_name rel_name)
   | None => false
   end).

Section Statements.

Variable create_scanner : Index.t -> CompOp -> bytes -> Z -> IndexScanner.

(** [CompositeConditionFilter::init (table, conditions, condition_num)]
    belongs to condition_filter, which is not under src/; the statement
    takes it as a parameter. *)
Variable composite_init :
  t -> list ParseDefs.Condition -> RC * ConditionFilter.

(** [delete_record (Trx *trx, ConditionFilter *filter, int
    *deleted_count)]; the count is returned. *)
Definition delete_record_filter (tb : t) (trx : option Trx.t)
    (filter : option ConditionFilter) : RC * t * option Trx.t * Z :=
  let deleter := RecordDeleter.mk trx 0 in
  let '(rc, tb', deleter') :=
    scan_record create_scanner tb trx filter (-1) deleter
      (Some record_reader_delete_adapter) in
  (rc, tb', RecordDeleter.trx_ deleter',
   RecordDeleter.deleted_count_ deleter').

(** [update_record (Trx *trx, const char *attribute_name, const Value
    *value, int condition_num, const Condition conditions[], int
    *updated_count)]; the array and its length are the list, a null
    pointer is [None], and the count is [None] where the code returns
    before it writes [*updated_count]. *)
Definition update_record_conditions (tb : t) (trx : option Trx.t)
    (attribute_name : option string) (value : option Value)
    (conditions : list ParseDefs.Condition)
    : RC * t * option Trx.t * option Z :=
  match value, attribute_name with
  | Some value, Some attribute_name =>
      let updater := mkRecordUpdater trx 0 attribute_name value in
      let finish (res : RC * t * RecordUpdater) :=
        let '(rc, tb', updater') := res in
        (rc, tb', trx_ updater', Some (updated_count_ updater')) in
      if Nat.ltb 0 (length conditions) then
        let rel_name := TableMeta.name (table_meta_ tb) in
        if existsb (names_other_table rel_name) conditions then
          (SCHEMA_TABLE_NAME_ILLEGAL, tb, trx, None)
        else
          let '(rc, condition_filter) := composite_init tb conditions in
          if bool_decide (rc <> SUCCESS) then (rc, tb, trx, None)
          else
            finish (scan_record create_scanner tb trx (Some condition_filter)
                      (-1) updater (Some record_reader_update_adapter))
      else
        finish (scan_record create_scanner tb trx None (-1) updater
                  (Some record_reader_update_adapter))
  | _, _ => (INVALID_ARGUMENT, tb, trx, None)
  end.

End Statements.

End Table.

(** Modelled from the spec: [Trx::rollback] of storage/trx, which is not
    under src/: it "iterates the log in reverse and calls the matching
    rollback_* on the table", then the log is discarded.  table.cpp has
    [rollback_insert] and [rollback_delete]; it has no rollback for an
    UPDATE entry, which leaves the table as it is. *)
Definition rollback_operation (x : Trx.t) (o : Trx.Operation) (tb : Table.t)
    : RC * Table.t :=
  match Trx.op_type o with
  | Trx.INSERT => Table.rollback_insert tb (Trx.op_rid o)
  | Trx.DELETE => Table.rollback_delete tb x (Trx.op_rid o)
  | Trx.UPDATE => (SUCCESS, tb)
  end.

Definition Trx_rollback (x : Trx.t) (tb : Table.t) : Trx.t * Table.t :=
  (Trx.mk (Trx.trx_id x) [] (Trx.log_fault x),
   foldr (fun o tb => snd (rollback_operation x o tb)) tb
         (Trx.operations x)).

(* ===================================================================== *)
(** * Predicates of the statements                                        *)
(* ===================================================================== *)

(** What a dash does to the multiplier in [date2num]. *)
Definition dash_mul (len : Z) (i : nat) (mul : Z) : Z :=
  if (Z.of_nat i =? len - 2)%Z then (mul * 10)%Z
  else if (Z.of_nat i =? len - 5)%Z then
    (if (mul =? 1000)%Z then (mul * 10)%Z else mul)
  else if (Z.of_nat i =? len - 4)%Z then (mul * 10)%Z
  else mul.


(** The bytes of a field in a record, and the null mark of the [j]-th
    user column (the place [make_record] gives it). *)
Definition field_bytes (f : FieldMeta.t) (d : bytes) : bytes :=
  take (FieldMeta.len f) (drop (FieldMeta.offset f) d).

Definition null_mark (m : TableMeta.t) (j : nat) (d : bytes) : option byte :=
  d !! (TableMeta.null_field_index m + j).

(** The bytes of a record after [update_record] has written the value of
    field [i] and the null mark. *)
Definition updated_data (m : TableMeta.t) (d : bytes) (i : Z)
    (value : Parse.Value) : bytes :=
  let field_meta := TableMeta.field m (Z.to_nat i) in
  let d1 :=
    memcpy d (FieldMeta.offset field_meta) (Parse.data value)
           (FieldMeta.len field_meta) in
  let pos := (Z.of_nat (TableMeta.null_field_index m) + i - 1)%Z in
  if (0 <=? pos)%Z then
    memcpy d1 (Z.to_nat pos) (Table.null_flag (Parse.is_null value)) 1
  else d1.

(** The metadata that table creation produces, as far as the statements
    need it: the fields follow each other from offset 0, there is one
    system field (the transaction header, at least the four bytes written
    into it) before at least one user field, and [record_size] covers the
    fields. *)
Definition well_formed (m : TableMeta.t) : bool :=
  TableMeta.contiguous 0 (TableMeta.fields m) &&
  Nat.eqb (TableMeta.sys_field_num m) 1 &&
  Nat.ltb 1 (TableMeta.field_num m) &&
  Nat.leb 4 (FieldMeta.len (TableMeta.field m 0)) &&
  Nat.leb (TableMeta.total_len (TableMeta.fields m)) (TableMeta.record_size m).

(** The values that the grammar builds: the null mark is set exactly on
    the values of type [NULLS] (yacc_sql: [value_init_integer] and
    [value_init_float] are called with [false]). *)
Definition value_wf (v : Parse.Value) : bool :=
  Bool.eqb (Parse.is_null v) (bool_decide (Parse.type v = NULLS)).




(** Invariant 1 of the data model, "every RID that appears in any index
    entry must point to a live record", as a test. *)
Definition index_rids_live (tb : Table.t) : bool :=
  forallb
    (fun idx =>
       forallb
         (fun e => Table.is_some
                     (RecordFileHandler.slots (Table.record_handler_ tb)
                        !! e.2))
         (elements (Index.entries idx)))
    (Table.indexes_ tb).

(** No index file refuses a deletion: the compensation can do its work. *)
Definition deletes_work (tb : Table.t) : bool :=
  forallb (fun idx => negb (Index.delete_fault idx)) (Table.indexes_ tb).

(** The entry of a fresh RID is in no index of the list. *)
Definition rid_unused (r : RID) (l : list Index.t) : Prop :=
  forall idx k, idx ∈ l -> (k, r) ∉ Index.entries idx.

Definition deletes_work_in (l : list Index.t) : Prop :=
  forall idx, idx ∈ l -> Index.delete_fault idx = false.

(** The index that the metadata already has under the name or on the
    column. *)
Definition index_known (m : TableMeta.t) (index_name attribute_name : string)
    : Prop :=
  exists im, im ∈ TableMeta.indexes m /\
    (IndexMeta.name im = index_name \/ IndexMeta.field im = attribute_name).

(** What a scan hands over for the record at an address: the record, if
    it is live, visible to the transaction and lets the filter pass. *)
Definition delivered (tb : Table.t) (trx : option Trx.t)
    (filter : option ConditionFilter) (r : RID) : option Rec :=
  match RecordFileHandler.slots (Table.record_handler_ tb) !! r with
  | Some d =>
      if Table.visible tb trx (mkRec r d) && passes filter (mkRec r d)
      then Some (mkRec r d) else None
  | None => None
  end.

(** A reader that keeps what it is given. *)
Definition collect : Table.record_reader (list Rec) :=
  fun record tb acc => (SUCCESS, tb, acc ++ [record]).

(** What the two paths of [scan_record] hand to the reader. *)
Definition delivered_by_index (tb : Table.t) (trx : option Trx.t)
    (scanner : IndexScanner) (filter : option ConditionFilter) (limit : Z)
    : list Rec :=
  (Table.scan_record_by_index tb trx scanner filter limit [] collect).2.

Definition delivered_by_heap (tb : Table.t) (trx : option Trx.t)
    (filter : option ConditionFilter) (limit : Z) : list Rec :=
  (Table.scan_record_heap_loop trx
     (RecordFileHandler.scan_order (Table.record_handler_ tb))
     filter limit 0 collect tb []).2.

(** The contract of an index scanner towards the heap: it yields no RID
    twice, only RIDs of live records, and every live record that the
    transaction sees and the filter lets pass. *)
Definition scanner_exact (tb : Table.t) (trx : option Trx.t)
    (filter : option ConditionFilter) (scanner : IndexScanner) : bool :=
  let h := RecordFileHandler.slots (Table.record_handler_ tb) in
  bool_decide (NoDup scanner) &&
  forallb (fun r => Table.is_some (h !! r)) scanner &&
  forallb
    (fun r =>
       match h !! r with
       | Some d =>
           implb (Table.visible tb trx (mkRec r d) &&
                  passes filter (mkRec r d))
                 (bool_decide (r ∈ scanner))
       | None => true
       end)
    (RecordFileHandler.scan_order (Table.record_handler_ tb)).

(** The lower-case letter of an upper-case letter of ASCII; any other
    character is kept. *)
Definition lower_case (c : ascii) : ascii :=
  let n := N_of_ascii c in
  if ((65 <=? n) && (n <=? 90))%N then ascii_of_N (n + 32) else c.

(** The live records of a table. *)
Abbreviation slots_of tb :=
  (RecordFileHandler.slots (Table.record_handler_ tb)) (only parsing).

(** A record that a scan may hand over: it is in the heap, the
    transaction sees it and the filter lets it pass. *)
Definition matching (tb : Table.t) (trx : option Trx.t)
    (filter : option ConditionFilter) (rec : Rec) : Prop :=
  slots_of tb !! rid rec = Some (data rec) /\
  Table.visible tb trx rec = true /\ passes filter rec = true.

(** The entries of an index that was filled by a scan without filter:
    the keys of the records that the transaction sees, each with the
    address of its record. *)
Definition holds_visible (tb : Table.t) (trx : option Trx.t)
    (idx : Index.t) : Prop :=
  forall k r,
    (k, r) ∈ Index.entries idx <->
    exists d, slots_of tb !! r = Some d /\
              Table.visible tb trx (mkRec r d) = true /\
              k = Index.key_of idx d.

(** The order of the addresses is total. *)
#[global] Instance RID_le_total : Total RID_le.
Proof.
  intros a b. unfold RID_le.
  destruct (N.lt_trichotomy (page_num a) (page_num b)) as [?|[?|?]];
    [auto| |auto].
  destruct (N.le_ge_cases (slot_num a) (slot_num b)); auto.
Qed.

(** An index agrees with the heap: its entries are the keys of the live
    records, each with the address of its record. *)
Definition index_agrees (h : gmap RID bytes) (idx : Index.t) : Prop :=
  Index.entries idx = map_to_set (fun r d => (Index.key_of idx d, r)) h.

(** The bytes that [make_record] copies into the column for a value:
    the payload of the value, or for a null value the stand-in of the
    type of the column. *)
Definition stored_payload (f : FieldMeta.t) (v : Parse.Value)
    : option bytes :=
  if Parse.is_null v then
    match FieldMeta.type f with
    | CHARS => Some (Parse.strdup "NULL")
    | DATES => Some (int_to_bytes 19700101)
    | FLOATS => Some [x00; x00; x00; x00]
    | INTS => Some (int_to_bytes 0)
    | _ => None
    end
  else Some (Parse.data v).

Definition indexes_agree (tb : Table.t) : Prop :=
  Forall (index_agrees (RecordFileHandler.slots (Table.record_handler_ tb)))
         (Table.indexes_ tb).

(** The columns of the indexes lie within the first [n] bytes of a
    record. *)
Definition index_fields_within (n : nat) (tb : Table.t) : bool :=
  forallb
    (fun idx =>
       Nat.leb (FieldMeta.offset (Index.field_meta idx) +
                FieldMeta.len (Index.field_meta idx)) n)
    (Table.indexes_ tb).

(** What the statement UPDATE leaves at an address: the record with the
    new value of field [i], if the statement reaches it. *)
Definition updated_slot (tb : Table.t) (trx : option Trx.t)
    (filter : option ConditionFilter) (i : Z) (value : Parse.Value)
    (r : RID) : option bytes :=
  match RecordFileHandler.slots (Table.record_handler_ tb) !! r with
  | Some d =>
      if Table.visible tb trx (mkRec r d) && passes filter (mkRec r d)
      then Some (updated_data (Table.table_meta_ tb) d i value)
      else Some d
  | None => None
  end.

(** A record [d'] that [update_record] may leave for the record [d]: it
    has the bytes of [updated_data], except that nothing is said of the
    bytes of the field for which [memcpy] read past the end of the
    payload of the value (a text shorter than its column), which are
    whatever lay behind the payload in memory. *)
Definition updated_record (m : TableMeta.t) (d : bytes) (i : Z)
    (value : Parse.Value) (d' : bytes) : Prop :=
  let f := TableMeta.field m (Z.to_nat i) in
  length d' = length d /\
  forall p,
    ~ (FieldMeta.offset f + length (Parse.data value) <= p
       < FieldMeta.offset f + FieldMeta.len f)%nat ->
    d' !! p = updated_data m d i value !! p.

(** What the statement UPDATE leaves at an address: an updated record
    where it reached a record, the record as it was where it did not,
    and no record where there was none. *)
Definition update_leaves (tb : Table.t) (trx : option Trx.t)
    (filter : option ConditionFilter) (i : Z) (value : Parse.Value)
    (r : RID) (after : option bytes) : Prop :=
  match RecordFileHandler.slots (Table.record_handler_ tb) !! r with
  | Some d =>
      if Table.visible tb trx (mkRec r d) && passes filter (mkRec r d)
      then exists d', after = Some d' /\
                      updated_record (Table.table_meta_ tb) d i value d'
      else after = Some d
  | None => after = None
  end.

(** The filter that the statement UPDATE scans with: none without
    conditions; with conditions, none of which names another table, the
    one that [CompositeConditionFilter::init] builds. *)
Definition update_scans_with
    (composite_init : Table.t -> list ParseDefs.Condition ->
                      RC * ConditionFilter)
    (tb : Table.t) (conditions : list ParseDefs.Condition)
    (filter : option ConditionFilter) : Prop :=
  match conditions with
  | [] => filter = None
  | _ :: _ =>
      existsb (Table.names_other_table
                 (TableMeta.name (Table.table_meta_ tb))) conditions = false /\
      exists f, composite_init tb conditions = (SUCCESS, f) /\ filter = Some f
  end.

(** What the statement DELETE leaves at an address. *)
Definition remaining_slot (tb : Table.t) (filter : option ConditionFilter)
    (r : RID) : option bytes :=
  match RecordFileHandler.slots (Table.record_handler_ tb) !! r with
  | Some d => if passes filter (mkRec r d) then None else Some d
  | None => None
  end.

(* ===================================================================== *)
(** * The table of the end-to-end scenarios                               *)
(* ===================================================================== *)

(** [CREATE TABLE t (a INT, b CHAR(4) NULLABLE)], behind the transaction
    header, and the rows [(1, "foo")] and [(2, NULL)]. *)
Module Scenario.

Definition meta : TableMeta.t :=
  TableMeta.mk "t"
    [FieldMeta.mk "__trx" INTS 0 4 false;
     FieldMeta.mk "a" INTS 4 4 false;
     FieldMeta.mk "b" CHARS 8 4 true]
    [] 12 1.

Definition empty : Table.t :=
  Table.mk meta (RecordFileHandler.mk 4 ∅) [].

Definition row1 : list Parse.Value :=
  [Parse.value_init_integer 1 false; Parse.value_init_string "foo" false].

Definition row2 : list Parse.Value :=
  [Parse.value_init_integer 2 false; Parse.value_init_string "NULL" true].

Definition one_row : Table.t :=
  (Table.insert_record_values empty None row1).1.2.

Definition two_rows : Table.t :=
  (Table.insert_record_values one_row None row2).1.2.

Definition rid1 : RID := mkRID 1 0.
Definition rid2 : RID := mkRID 1 1.

(** The record at an address, as a scan hands it over. *)
Definition record_at (tb : Table.t) (r : RID) : Rec :=
  (RecordFileHandler.get_record (Table.record_handler_ tb) r).2.

(** [SELECT b FROM t] on one record. *)
Definition column_b (tb : Table.t) (r : RID) : bytes :=
  field_bytes (TableMeta.field meta 2) (data (record_at tb r)).

(** The row [(1, "foo")] is inserted by transaction 7, which has not
    committed; the row [(2, NULL)] is committed. *)
Definition mixed : Table.t :=
  (Table.insert_record_values
     (Table.insert_record_values empty (Some (Trx.mk 7 [] false)) row1).1.2
     None row2).1.2.

(** The rows in the other order: [(2, NULL)] is in the first slot and
    [(1, "foo")] in the second, so that the order of the keys of [a] is
    not the order of the addresses. *)
Definition swapped : Table.t :=
  (Table.insert_record_values
     (Table.insert_record_values empty None row2).1.2 None row1).1.2.

(** [a >= 1], as a filter object. *)
Definition a_at_least_1 : ConditionFilter :=
  Default
    (mkDefaultConditionFilter
       (mkConDesc true 4 4 [] 12)
       (mkConDesc false 0 0 (int_to_bytes 1) 0)
       GREAT_EQUAL
       (fun r =>
          (1 <=? Trx.bytes_to_int
                   (field_bytes (TableMeta.field meta 1) (data r)))%Z)).

(** [a >= k], as a filter object. *)
Definition a_at_least (k : Z) : ConditionFilter :=
  Default
    (mkDefaultConditionFilter
       (mkConDesc true 4 4 [] 12)
       (mkConDesc false 0 0 (int_to_bytes k) 0)
       GREAT_EQUAL
       (fun r =>
          (k <=? Trx.bytes_to_int
                   (field_bytes (TableMeta.field meta 1) (data r)))%Z)).

(** A transaction that has just begun. *)
Definition begin (id : Z) : Trx.t := Trx.mk id [] false.

(** An index on column [a], as [CREATE INDEX] fills it, and one whose
    file fails on insertion. *)
Definition index_on_a (name : string) (es : gset (bytes * RID)) (bad : bool)
    : Index.t :=
  Index.mk (IndexMeta.mk name "a") (TableMeta.field meta 1) es bad false.

(** The table with the row [(1, "foo")] and an index of the given name
    on column [a], which holds the key of the row. *)
Definition indexed (name : string) : Table.t :=
  Table.with_indexes one_row
    [index_on_a name {[ (int_to_bytes 1, rid1) ]} false].

End Scenario.

(* ===================================================================== *)
(** * Date literals                                                       *)
(* ===================================================================== *)

Section DateLiterals.

Import Parse DateSpec.
Local Open Scope Z_scope.

Lemma digit_not_dash c : is_digit c = true -> Ascii.eqb c "-" = false.
Proof.
  destruct c as [[] [] [] [] [] [] [] []]; vm_compute; congruence.
Qed.

Lemma digit_value_range c : is_digit c = true -> 0 <= digit_value c <= 9.
Proof.
  unfold is_digit, digit_value. intros H.
  apply andb_prop in H as [H1 H2].
  apply Z.leb_le in H1, H2. lia.
Qed.

Lemma match_digits_Some n l r :
  match_digits n l = Some r ->
  exists ds, l = ds ++ r /\ length ds = n /\ Forall (fun c => is_digit c = true) ds.
Proof.
  revert l. induction n as [|n IH]; intros l H; simpl in H.
  - exists []. by inversion H.
  - destruct l as [|c l]; [discriminate|].
    destruct (is_digit c) eqn:Hc; [|discriminate].
    destruct (IH _ H) as (ds & -> & Hlen & Hall).
    exists (c :: ds). simpl. repeat split; auto.
Qed.

Lemma match_dash_Some l r : match_dash l = Some r -> l = "-"%char :: r.
Proof.
  destruct l as [|c l]; simpl; [discriminate|].
  unfold is_dash. destruct (Ascii.eqb c "-") eqn:E; [|discriminate].
  apply Ascii.eqb_eq in E. congruence.
Qed.

(** The shape of a literal that the format accepts. *)
Lemma match_date_with_shape a b l :
  match_date_with a b l = true ->
  exists y m d,
    l = y ++ "-"%char :: m ++ "-"%char :: d /\
    length y = 4%nat /\ length m = a /\ length d = b /\
    Forall (fun c => is_digit c = true) (y ++ m ++ d).
Proof.
  unfold match_date_with. intros H.
  destruct (match_digits 4 l) as [r1|] eqn:E1; simpl in H; [|discriminate].
  destruct (match_dash r1) as [r2|] eqn:E2; simpl in H; [|discriminate].
  destruct (match_digits a r2) as [r3|] eqn:E3; simpl in H; [|discriminate].
  destruct (match_dash r3) as [r4|] eqn:E4; simpl in H; [|discriminate].
  destruct (match_digits b r4) as [r5|] eqn:E5; simpl in H; [|discriminate].
  destruct r5; [|discriminate].
  apply match_digits_Some in E1 as (y & -> & Hy & Fy).
  apply match_dash_Some in E2 as ->.
  apply match_digits_Some in E3 as (m & -> & Hm & Fm).
  apply match_dash_Some in E4 as ->.
  apply match_digits_Some in E5 as (d & -> & Hd & Fd).
  exists y, m, d. rewrite app_nil_r. repeat split; auto.
  rewrite !Forall_app. auto.
Qed.

Lemma check_date_format_shape s :
  check_date_format s = true ->
  exists y m d,
    chars_of s = y ++ "-"%char :: m ++ "-"%char :: d /\
    length y = 4%nat /\ (length m = 1 \/ length m = 2)%nat /\
    (length d = 1 \/ length d = 2)%nat /\
    Forall (fun c => is_digit c = true) (y ++ m ++ d).
Proof.
  unfold check_date_format. intros H.
  repeat (apply orb_prop in H as [H|H]);
    apply match_date_with_shape in H as (y & m & d & ? & ? & ? & ? & ?);
    exists y, m, d; repeat split; auto.
Qed.

Ltac digits_of H :=
  repeat match type of H with
  | Forall _ (_ :: _) => let Hc := fresh "Hc" in
      apply Forall_cons in H as [Hc H]
  end.

Lemma date2num_step_digit s len i num mul :
  Ascii.eqb (nth i s "000"%char) "-" = false ->
  date2num_step s len i (num, mul) =
  (num + mul * digit_value (nth i s "000"%char), mul * 10).
Proof. unfold date2num_step. by intros ->. Qed.

Lemma date2num_step_dash s len i num mul :
  nth i s "000"%char = "-"%char ->
  date2num_step s len i (num, mul) = (num, dash_mul len i mul).
Proof.
  unfold date2num_step, dash_mul. intros ->. simpl.
  repeat case_match; reflexivity.
Qed.

Ltac date2num_steps :=
  repeat first
    [ rewrite date2num_step_digit by (cbn [nth]; assumption)
    | rewrite date2num_step_dash by reflexivity;
      match goal with
      | |- context [dash_mul ?a ?b ?c] =>
          let v := eval vm_compute in (dash_mul a b c) in
          change (dash_mul a b c) with v
      end ].

(** On such a literal [date2num] is the packed number of its fields, and
    cutting at the dashes finds the same fields. *)
Lemma date_shape_num s y m d :
  chars_of s = y ++ "-"%char :: m ++ "-"%char :: d ->
  length y = 4%nat -> (length m = 1 \/ length m = 2)%nat ->
  (length d = 1 \/ length d = 2)%nat ->
  Forall (fun c => is_digit c = true) (y ++ m ++ d) ->
  date2num s = packed (decimal y) (decimal m) (decimal d) /\
  date_fields s = Some (decimal y, decimal m, decimal d) /\
  0 <= decimal y < 10000 /\ 0 <= decimal m < 100 /\ 0 <= decimal d < 100.
Proof.
  intros Hs Hy Hm Hd Hall.
  unfold date2num, date_fields. fold (chars_of s). rewrite Hs. clear Hs.
  destruct y as [|y1 [|y2 [|y3 [|y4 [|]]]]]; try discriminate.
  destruct Hm as [Hm|Hm]; destruct Hd as [Hd|Hd];
    destruct m as [|m1 [|m2 [|]]]; try discriminate;
    destruct d as [|d1 [|d2 [|]]]; try discriminate;
    simpl in Hall; digits_of Hall;
    repeat match goal with
    | H : is_digit ?c = true |- _ =>
        let E := fresh "E" in
        let R := fresh "R" in
        pose proof (digit_not_dash c H) as E;
        pose proof (digit_value_range c H) as R;
        revert E R; clear H; intros E R
    end;
    (split; [|split];
     [ cbn [app length date2num_loop]; date2num_steps;
       cbn [fst nth]; unfold packed, decimal; cbn [fold_left]; lia
     | cbn [app split_dash];
       repeat match goal with
       | E : Ascii.eqb _ _ = false |- _ => rewrite !E
       end;
       cbn [Ascii.eqb Bool.eqb]; cbn [split_dash]; reflexivity
     | unfold decimal; cbn [fold_left]; lia ]).
Qed.

Lemma packed_fields y m d :
  0 <= y -> 0 <= m < 100 -> 0 <= d < 100 ->
  Z.rem (packed y m d) 100 = d /\
  Z.quot (Z.rem (packed y m d) 10000) 100 = m /\
  Z.quot (packed y m d) 10000 = y.
Proof.
  intros Hy Hm Hd. unfold packed.
  assert (E1 : Z.rem (y * 10000 + m * 100 + d) 100 = d).
  { rewrite Z.rem_mod_nonneg by lia. symmetry.
    apply Z.mod_unique with (q := y * 100 + m); lia. }
  assert (E2 : Z.rem (y * 10000 + m * 100 + d) 10000 = m * 100 + d).
  { rewrite Z.rem_mod_nonneg by lia. symmetry.
    apply Z.mod_unique with (q := y); lia. }
  repeat split; [done| |].
  - rewrite E2, Z.quot_div_nonneg by lia. symmetry.
    apply Z.div_unique with (r := d); lia.
  - rewrite Z.quot_div_nonneg by lia. symmetry.
    apply Z.div_unique with (r := m * 100 + d); lia.
Qed.

(** Between 1970 and 2038 the years divisible by four are the leap
    years. *)
Lemma leap_year_in_range y :
  1970 <= y <= 2038 -> leap_year y = (Z.rem y 4 =? 0).
Proof.
  intros Hy. unfold leap_year. rewrite Z.rem_mod_nonneg by lia.
  destruct (Z.eq_dec y 2000) as [->|Hne]; [reflexivity|].
  assert (y mod 100 <> 0) by (intros E; apply Z.mod_divide in E; [|lia];
    destruct E as [k E]; lia).
  assert (y mod 400 <> 0) by (intros E; apply Z.mod_divide in E; [|lia];
    destruct E as [k E]; lia).
  destruct (Z.eqb_spec (y mod 100) 0); [lia|].
  destruct (Z.eqb_spec (y mod 400) 0); [lia|].
  simpl. by rewrite andb_true_r, orb_false_r.
Qed.

(** The checks of [check_date_data_convert] on a packed number. *)
Lemma convert_flag_iff s y m d :
  date2num s = packed y m d ->
  0 <= y < 10000 -> 0 <= m < 100 -> 0 <= d < 100 ->
  (snd (check_date_data_convert s 1) <> 0 <-> storable_date y m d).
Proof.
  intros Hn Hy Hm Hd. unfold check_date_data_convert. rewrite Hn.
  destruct (packed_fields y m d) as (-> & -> & ->); [lia..|].
  cbn [snd]. unfold storable_date, gregorian_date, days_in_month.
  destruct (Z.ltb_spec (packed y m d) 19700101) as [L|L]; cbn [orb];
    [repeat case_match; (split; [congruence|lia])|].
  destruct (Z.gtb_spec (packed y m d) 20380131) as [U|U];
    [repeat case_match; (split; [congruence|lia])|].
  assert (Hyr : 1970 <= y <= 2038) by (unfold packed in *; lia).
  rewrite (leap_year_in_range y Hyr).
  destruct (Z.eqb_spec m 2), (Z.eqb_spec m 4), (Z.eqb_spec m 6),
    (Z.eqb_spec m 9), (Z.eqb_spec m 11); try lia; cbn [orb];
    destruct (Z.gtb_spec m 12), (Z.ltb_spec m 1); try lia; cbn [orb];
    destruct (Z.gtb_spec d 31), (Z.ltb_spec d 1); try lia; cbn [orb];
    repeat match goal with
    | |- context [?a >? ?b] => destruct (Z.gtb_spec a b)
    | |- context [?a =? ?b] => destruct (Z.eqb_spec a b)
    end; (split; [try congruence; try lia | try congruence; try lia]).
Qed.

(** [date2num] computes in [int] without overflow on the literals that
    the format accepts. *)
Lemma date2num_fits_int s :
  check_date_format s = true -> 0 <= date2num s <= INT_MAX.
Proof.
  intros Hfmt.
  destruct (check_date_format_shape s Hfmt)
    as (y & m & d & Hs & Hy & Hm & Hd & Hall).
  destruct (date_shape_num s y m d Hs Hy Hm Hd Hall)
    as (-> & _ & Ry & Rm & Rd).
  unfold packed, INT_MAX. lia.
Qed.

End DateLiterals.

(* ===================================================================== *)
(** * Legality and rejected inserts                                       *)
(* ===================================================================== *)

Section Legality.

Implicit Types (tb : Table.t) (m : TableMeta.t) (values : list Parse.Value).

(** The first loop of [make_record] stops at the first value that is not
    legal and returns its code. *)
Lemma check_values_first_illegal m k values i v rc :
  values !! i = Some v ->
  (forall j w, (j < i)%nat -> values !! j = Some w ->
     Table.is_legal w (TableMeta.field m (k + j + TableMeta.sys_field_num m))
       = SUCCESS) ->
  Table.is_legal v (TableMeta.field m (k + i + TableMeta.sys_field_num m)) = rc ->
  rc <> SUCCESS ->
  Table.check_values m k values = rc.
Proof.
  revert k i. induction values as [|w values IH]; intros k i Hi Hbefore Hrc Hne;
    [done|].
  destruct i as [|i]; simpl in *.
  - inversion Hi; subst w. rewrite Nat.add_0_r in Hrc. rewrite Hrc.
    by rewrite bool_decide_eq_true_2.
  - rewrite (bool_decide_eq_false_2 _); cycle 1.
    { intros Hn. apply Hn. specialize (Hbefore 0%nat w).
      rewrite Nat.add_0_r in Hbefore. apply Hbefore; [lia|done]. }
    apply (IH (S k) i); [done| |by rewrite Nat.add_succ_comm|done].
    intros j w' Hj Hw'. rewrite Nat.add_succ_comm.
    apply (Hbefore (S j)); [lia|done].
Qed.


(** An insert whose record cannot be made leaves everything as it was. *)
Lemma insert_record_values_rejected tb trx values rc :
  values <> [] ->
  (Table.make_record tb values).1 = rc ->
  rc <> SUCCESS ->
  Table.insert_record_values tb trx values = (rc, tb, trx).
Proof.
  intros Hv Hrc Hne. unfold Table.insert_record_values.
  rewrite bool_decide_eq_false_2 by (destruct values; simpl; [done|lia]).
  destruct (Table.make_record tb values) as [rc' buf]. simpl in Hrc. subst rc'.
  by rewrite bool_decide_eq_true_2.
Qed.



End Legality.

(* ===================================================================== *)
(** * Date literals and DATE columns                                      *)
(* ===================================================================== *)



(** The two literals of the scenario: 2021 has no 29th of February, 2020
    has one. *)
Example impossible_date_is_chars :
  Parse.type (Parse.value_init_string "2021-02-29" false) = CHARS /\
  Parse.type (Parse.value_init_string "2020-02-29" false) = DATES.
Proof. split; reflexivity. Qed.

(** The ends of the range, and months of 30 days. *)
Example date_boundaries :
  map (fun s => Parse.type (Parse.value_init_string s false))
    ["1970-01-01"; "1969-12-31"; "2038-01-31"; "2038-02-01"; "2000-2-29";
     "2021-4-31"; "2021-04-30"; "2021-13-1"; "2021-1-0"]%string
  = [DATES; CHARS; DATES; CHARS; DATES; CHARS; DATES; CHARS; CHARS].
Proof. reflexivity. Qed.

(* ===================================================================== *)
(** * CHARS values and the declared length                                *)
(* ===================================================================== *)

(** C5.  A CHARS value longer than its CHARS column, behind values that
    are legal, makes the insert return SCHEMA_FIELD_MISSING with the table
    and the transaction unchanged; a CHARS value that is not longer than
    the column passes the legality check. *)
Theorem chars_length_check (tb : Table.t) (trx : option Trx.t)
    (values : list Parse.Value) (i : nat) (v : Parse.Value) :
  let m := Table.table_meta_ tb in
  let f := TableMeta.field m (i + TableMeta.sys_field_num m) in
  values !! i = Some v ->
  Parse.type v = CHARS ->
  FieldMeta.type f = CHARS ->
  (FieldMeta.len f < strlen (Parse.data v))%nat ->
  (forall j w, (j < i)%nat -> values !! j = Some w ->
     Table.is_legal w (TableMeta.field m (j + TableMeta.sys_field_num m))
       = SUCCESS) ->
  Table.insert_record_values tb trx values = (SCHEMA_FIELD_MISSING, tb, trx)
  /\
  (forall w, Parse.type w = CHARS ->
     (strlen (Parse.data w) <= FieldMeta.len f)%nat ->
     Table.is_legal w f = SUCCESS).
Proof.
  intros m f Hi Hv Hf Hlen Hbefore. split.
  - assert (Hleg : Table.is_legal v f = SCHEMA_FIELD_MISSING).
    { unfold Table.is_legal. rewrite Hv, Hf. simpl.
      by apply Nat.ltb_lt in Hlen as ->. }
    apply insert_record_values_rejected; [by destruct values| |done].
    unfold Table.make_record. fold m.
    case_bool_decide; [done|].
    rewrite (check_values_first_illegal m 0 values i v SCHEMA_FIELD_MISSING);
      done.
  - intros w Hw Hle. unfold Table.is_legal. rewrite Hw, Hf. simpl.
    by apply Nat.ltb_ge in Hle as ->.
Qed.

(** [INSERT INTO t VALUES (3, "toolong")] on the table of the scenario. *)
Lemma chars_length_check_witness :
  Table.insert_record_values Scenario.one_row None
    [Parse.value_init_integer 3 false;
     Parse.value_init_string "toolong" false]
  = (SCHEMA_FIELD_MISSING, Scenario.one_row, None)
  /\
  (forall w, Parse.type w = CHARS ->
     (strlen (Parse.data w) <=
      FieldMeta.len (TableMeta.field Scenario.meta 2))%nat ->
     Table.is_legal w (TableMeta.field Scenario.meta 2) = SUCCESS).
Proof.
  apply (chars_length_check Scenario.one_row None
           [Parse.value_init_integer 3 false;
            Parse.value_init_string "toolong" false] 1
           (Parse.value_init_string "toolong" false)).
  - reflexivity.
  - reflexivity.
  - reflexivity.
  - vm_compute. lia.
  - intros [|j] w Hj Hw; [|lia]. vm_compute in Hw. inversion Hw. reflexivity.
Defined.

(* ===================================================================== *)
(** * Comparison of tuple values and NULL                                 *)
(* ===================================================================== *)

Section CompareNull.

Context {float : Type}.
Variable float_sub : float -> float -> float.
Variables gt_minus_eps lt_eps gt_zero lt_zero : float -> bool.

(** C8.  When one of two tuple values of the same kind is NULL, [compare]
    returns -1: it never reports equality. *)
Theorem compare_null_never_equal (a b : TupleValue float) :
  same_kind a b = true ->
  is_null a = true \/ is_null b = true ->
  compare float float_sub gt_minus_eps lt_eps gt_zero lt_zero a b
    = Some (-1)%Z /\
  compare float float_sub gt_minus_eps lt_eps gt_zero lt_zero a b
    <> Some 0%Z.
Proof.
  intros _ Hnull.
  assert (E : compare float float_sub gt_minus_eps lt_eps gt_zero lt_zero a b
              = Some (-1)%Z).
  { destruct a as [va na|va na|va na]; simpl in *;
      (destruct Hnull as [->| ->]; [done|by rewrite orb_true_r]). }
  rewrite E. split; congruence.
Qed.

End CompareNull.

(** NULL against NULL, with integers standing in for the floats. *)
Lemma compare_null_never_equal_witness :
  compare Z Z.sub (fun r => (-1 <? r)%Z) (fun r => (r <? 1)%Z)
    (fun r => (0 <? r)%Z) (fun r => (r <? 0)%Z)
    (IntValue 7 true) (IntValue 7 true) = Some (-1)%Z /\
  compare Z Z.sub (fun r => (-1 <? r)%Z) (fun r => (r <? 1)%Z)
    (fun r => (0 <? r)%Z) (fun r => (r <? 0)%Z)
    (IntValue 7 true) (IntValue 7 true) <> Some 0%Z.
Proof.
  apply (compare_null_never_equal Z.sub (fun r => (-1 <? r)%Z)
           (fun r => (r <? 1)%Z) (fun r => (0 <? r)%Z) (fun r => (r <? 0)%Z)
           (IntValue 7 true) (IntValue 7 true)).
  - reflexivity.
  - left. reflexivity.
Defined.

(* ===================================================================== *)
(** * The record manager and the index list                               *)
(* ===================================================================== *)

Section RecordManager.

Import RecordFileHandler.

Lemma rid_of_inj cap a b : rid_of cap a = rid_of cap b -> a = b.
Proof.
  unfold rid_of. intros E. inversion E as [[E1 E2]].
  rewrite (N.div_mod' a cap), (N.div_mod' b cap).
  assert ((a `div` cap) = (b `div` cap))%N as -> by lia.
  by rewrite E2.
Qed.

(** The search either finds a free slot or has seen [fuel] taken slots. *)
Lemma first_free_cases h n fuel :
  slots h !! first_free h n fuel = None \/
  (first_free h n fuel = rid_of (record_capacity h) (n + N.of_nat fuel) /\
   forall k, (k < fuel)%nat ->
     is_Some (slots h !! rid_of (record_capacity h) (n + N.of_nat k))).
Proof.
  revert n. induction fuel as [|fuel IH]; intros n; simpl.
  - right. split; [f_equal; lia|intros k Hk; lia].
  - destruct (slots h !! rid_of (record_capacity h) n) as [d|] eqn:E;
      [|by left].
    destruct (IH (n + 1)%N) as [Hfree|[Heq Hall]]; [by left|right].
    split; [rewrite Heq; f_equal; lia|].
    intros [|k] Hk.
    + rewrite N.add_0_r, E. eauto.
    + replace (n + N.of_nat (S k))%N with (n + 1 + N.of_nat k)%N by lia.
      apply Hall. lia.
Qed.

(** The slot that an insert takes is free: a file with [n] live records
    has a free slot among its first [n + 1] slots. *)
Lemma free_slot_free h : slots h !! free_slot h = None.
Proof.
  unfold free_slot.
  destruct (first_free_cases h 0 (size (slots h))) as [Hfree|[Heq Hall]];
    [done|].
  rewrite Heq. apply not_elem_of_dom.
  set (cap := record_capacity h) in *.
  set (seen := (fun k => rid_of cap (0 + N.of_nat k)) <$> seq 0 (size (slots h))).
  assert (Hnd : NoDup seen).
  { apply NoDup_fmap_2; [|apply NoDup_seq].
    intros a b E. apply rid_of_inj in E. lia. }
  assert (Hsub : list_to_set (C := gset RID) seen ⊆ dom (slots h)).
  { intros r Hr. apply elem_of_list_to_set, list_elem_of_fmap in Hr
      as (k & -> & Hk). apply elem_of_seq in Hk.
    apply elem_of_dom, Hall. lia. }
  assert (Heqs : list_to_set (C := gset RID) seen = dom (slots h)).
  { apply set_subseteq_size_eq; [done|].
    rewrite size_dom, size_list_to_set by done.
    unfold seen. by rewrite length_fmap, length_seq. }
  rewrite <- Heqs. intros Hin.
  apply elem_of_list_to_set, list_elem_of_fmap in Hin as (k & E & Hk).
  apply rid_of_inj in E. apply elem_of_seq in Hk. lia.
Qed.

(** Deleting the record that an insert has just stored gives the file
    back. *)
Lemma delete_inserted h d size :
  let '(_, r, h') := insert_record h d size in
  delete_record h' r = (SUCCESS, h).
Proof.
  unfold insert_record, delete_record. simpl.
  rewrite lookup_insert_eq. f_equal.
  rewrite delete_insert_eq, delete_id by apply free_slot_free.
  by destruct h.
Qed.

End RecordManager.

Section IndexList.

Implicit Types (idx : Index.t) (l : list Index.t).

Lemma with_entries_same idx : Index.with_entries idx (Index.entries idx) = idx.
Proof. by destruct idx. Qed.

(** On an index without the entry a deletion reports the missing key and
    changes nothing. *)
Lemma delete_entry_absent idx record r :
  Index.delete_fault idx = false ->
  (Index.key_of idx record, r) ∉ Index.entries idx ->
  Index.delete_entry idx record r = (RECORD_INVALID_KEY, idx).
Proof.
  intros Hf Hn. unfold Index.delete_entry. rewrite Hf.
  by rewrite decide_False.
Qed.

(** A deletion undoes the insertion of a new entry. *)
Lemma delete_entry_inserted idx idx' record r :
  Index.delete_fault idx = false ->
  (Index.key_of idx record, r) ∉ Index.entries idx ->
  Index.insert_entry idx record r = (SUCCESS, idx') ->
  Index.delete_entry idx' record r = (SUCCESS, idx).
Proof.
  destruct idx as [im fm es fi fd]. unfold Index.key_of. simpl.
  intros -> Hn. unfold Index.insert_entry, Index.key_of. simpl.
  destruct fi; [done|]. intros [= <-].
  unfold Index.delete_entry, Index.with_entries, Index.key_of. simpl.
  rewrite decide_True by (apply elem_of_union_l, elem_of_singleton; done).
  do 2 f_equal. apply set_eq. intros e.
  rewrite elem_of_difference, elem_of_union, elem_of_singleton.
  split; [intros [[->|He] Hne]; done|].
  intros He. split; [by right|]. by intros ->.
Qed.

Lemma insert_entry_codes idx record r rc idx' :
  Index.insert_entry idx record r = (rc, idx') ->
  (rc = SUCCESS /\ Index.insert_fault idx = false) \/
  (rc = IOERR /\ idx' = idx).
Proof.
  unfold Index.insert_entry. destruct (Index.insert_fault idx);
    intros [= <- <-]; auto.
Qed.

(** Where no index has the entry, the compensating loop changes
    nothing. *)
Lemma delete_entry_loop_absent rc0 l record r :
  deletes_work_in l -> rid_unused r l ->
  exists rc, Table.delete_entry_loop rc0 l record r true = (rc, l).
Proof.
  revert rc0. induction l as [|idx l IH]; intros rc0 Hd Hu; simpl; [eauto|].
  rewrite delete_entry_absent;
    [|apply Hd; set_solver|apply Hu; set_solver].
  simpl.
  destruct (IH RECORD_INVALID_KEY) as [rc ->];
    [intros i Hi; apply Hd; set_solver
    |intros i k Hi; apply Hu; set_solver|].
  eauto.
Qed.

(** The compensation of [insert_record]: after an insertion into the
    index list that failed, deleting the entry from all indexes gives the
    list back. *)
Lemma delete_after_failed_insert l l1 record r rc rc0 :
  deletes_work_in l -> rid_unused r l ->
  Table.insert_entry_of_indexes l record r = (rc, l1) ->
  rc <> SUCCESS ->
  exists rc2, Table.delete_entry_loop rc0 l1 record r true = (rc2, l).
Proof.
  revert l1 rc0. induction l as [|idx l IH]; intros l1 rc0 Hd Hu; simpl.
  - by intros [= <- <-].
  - destruct (Index.insert_entry idx record r) as [rc1 idx'] eqn:Hins.
    assert (Hdl : deletes_work_in l) by (intros i Hi; apply Hd; set_solver).
    assert (Hul : rid_unused r l) by (intros i k Hi; apply Hu; set_solver).
    assert (Hdi : Index.delete_fault idx = false) by (apply Hd; set_solver).
    assert (Hui : (Index.key_of idx record, r) ∉ Index.entries idx)
      by (apply Hu; set_solver).
    case_bool_decide as Hrc1.
    + intros [= <- <-] _. simpl.
      destruct (insert_entry_codes _ _ _ _ _ Hins) as [[? _]|[_ ->]]; [done|].
      rewrite delete_entry_absent by done. simpl.
      destruct (delete_entry_loop_absent RECORD_INVALID_KEY l record r)
        as [rc2 ->]; eauto.
    + assert (rc1 = SUCCESS) as -> by (by destruct (decide (rc1 = SUCCESS))).
      destruct (Table.insert_entry_of_indexes l record r) as [rc' l'] eqn:Hrest.
      intros [= <- <-] Hne. simpl.
      assert (Index.key_of idx' record = Index.key_of idx record) as Hk.
      { unfold Index.insert_entry in Hins.
        destruct (Index.insert_fault idx); [done|]. by inversion Hins. }
      rewrite (delete_entry_inserted idx idx' record r) by done. simpl.
      destruct (IH l' SUCCESS Hdl Hul eq_refl Hne) as [rc2 ->]. eauto.
Qed.

End IndexList.

(* ===================================================================== *)
(** * Atomicity of an insert                                              *)
(* ===================================================================== *)

Lemma index_rids_live_unused tb :
  index_rids_live tb = true ->
  rid_unused
    (RecordFileHandler.free_slot (Table.record_handler_ tb))
    (Table.indexes_ tb).
Proof.
  unfold index_rids_live. rewrite forallb_forall.
  intros Hall idx k Hin Hk.
  apply list_elem_of_In, Hall in Hin. rewrite forallb_forall in Hin.
  specialize (Hin (k, RecordFileHandler.free_slot (Table.record_handler_ tb))).
  simpl in Hin. rewrite free_slot_free in Hin.
  enough (false = true) by done.
  apply Hin, list_elem_of_In, elem_of_elements, Hk.
Qed.

Lemma deletes_work_in_list tb :
  deletes_work tb = true -> deletes_work_in (Table.indexes_ tb).
Proof.
  unfold deletes_work. rewrite forallb_forall. intros Hall idx Hin.
  apply list_elem_of_In, Hall in Hin. by destruct (Index.delete_fault idx).
Qed.

(** C2.  An insert that fails after the record went into the heap,
    because the transaction could not log it or an index could not take
    it, leaves the table (metadata, heap and every index) as it was
    before the call; the index entries point to live records and no index
    refuses the compensating deletion. *)
Theorem insert_record_atomic (tb : Table.t) (trx : option Trx.t)
    (record : Rec) :
  index_rids_live tb = true ->
  deletes_work tb = true ->
  (Table.insert_record tb trx record).1.1.1 <> SUCCESS ->
  (Table.insert_record tb trx record).1.1.2 = tb.
Proof.
  intros Hlive Hdel.
  apply index_rids_live_unused in Hlive. apply deletes_work_in_list in Hdel.
  unfold Table.insert_record.
  set (rec1 := match trx with
               | Some x => mkRec (rid record)
                             (Trx.init_trx_info x (Table.table_meta_ tb)
                                (data record))
               | None => record
               end).
  set (size := (TableMeta.record_size (Table.table_meta_ tb) +
                TableMeta.field_num (Table.table_meta_ tb))%nat).
  pose proof (delete_inserted (Table.record_handler_ tb) (data rec1) size)
    as Hundo.
  destruct (RecordFileHandler.insert_record (Table.record_handler_ tb)
              (data rec1) size) as [[rc0 new_rid] h] eqn:Hins.
  assert (new_rid = RecordFileHandler.free_slot (Table.record_handler_ tb)
          /\ rc0 = SUCCESS) as [Hrid ->].
  { unfold RecordFileHandler.insert_record in Hins. by inversion Hins. }
  rewrite bool_decide_eq_false_2 by (by intros ?).
  cbn [rid data].
  destruct (match trx with
            | Some x =>
                let '(rc, x') := Trx.insert_record x (mkRec new_rid (data rec1))
                in (rc, Some x')
            | None => (SUCCESS, None)
            end) as [rc1 trx1].
  case_bool_decide as Hrc1.
  - (* the transaction did not log the insert *)
    rewrite Hundo. intros _. by destruct tb.
  - destruct (Table.insert_entry_of_indexes (Table.indexes_ tb) (data rec1)
                new_rid) as [rc2 idx] eqn:Hidx.
    case_bool_decide as Hrc2; [|done].
    (* an index did not take the entry *)
    subst new_rid.
    destruct (delete_after_failed_insert _ _ _ _ _ SUCCESS Hdel Hlive Hidx Hrc2)
      as [rc3 Hcomp].
    unfold Table.delete_entry_of_indexes. rewrite Hcomp, Hundo.
    intros _. by destruct tb.
Qed.

(** The row [(2, NULL)] goes into a table with two indexes on [a]; the
    file of the second one fails. *)
Lemma insert_record_atomic_witness :
  let tb :=
    Table.with_indexes Scenario.one_row
      [Scenario.index_on_a "ix"
         {[ (Index.key_of (Scenario.index_on_a "ix" ∅ false)
               (data (Scenario.record_at Scenario.one_row Scenario.rid1)),
             Scenario.rid1) ]} false;
       Scenario.index_on_a "iy" ∅ true] in
  let record := mkRec (mkRID 0 0) (Table.make_record tb Scenario.row2).2 in
  (Table.insert_record tb None record).1.1.1 = IOERR /\
  (Table.insert_record tb None record).1.1.2 = tb.
Proof.
  intros tb record. split.
  - vm_compute. reflexivity.
  - apply (insert_record_atomic tb None record).
    + vm_compute. reflexivity.
    + vm_compute. reflexivity.
    + vm_compute. discriminate.
Defined.

(* ===================================================================== *)
(** * The length of a record                                              *)
(* ===================================================================== *)

Lemma length_read_bytes src n : length (read_bytes src n) = n.
Proof.
  unfold read_bytes. rewrite length_take, length_app, length_replicate. lia.
Qed.

Lemma length_memcpy dst off src n : length (memcpy dst off src n) = length dst.
Proof. unfold memcpy. apply length_inserts. Qed.

Lemma length_null_payload record f :
  length (Table.null_payload record f) = length record.
Proof.
  unfold Table.null_payload.
  destruct (FieldMeta.type f); by rewrite ?length_memcpy.
Qed.

Lemma length_fill_record m nfi i values record :
  length (Table.fill_record m nfi i values record) = length record.
Proof.
  revert i record. induction values as [|v values IH]; intros i record;
    simpl; [done|].
  rewrite IH. destruct (Parse.is_null v);
    by rewrite !length_memcpy, ?length_null_payload.
Qed.

Lemma make_record_success tb values buf :
  Table.make_record tb values = (SUCCESS, buf) ->
  (length values + TableMeta.sys_field_num (Table.table_meta_ tb) =
   TableMeta.field_num (Table.table_meta_ tb))%nat /\
  Table.check_values (Table.table_meta_ tb) 0 values = SUCCESS /\
  buf =
    Table.fill_record (Table.table_meta_ tb)
      (FieldMeta.offset
         (TableMeta.field (Table.table_meta_ tb)
            (length values - 1 + TableMeta.sys_field_num (Table.table_meta_ tb))) +
       FieldMeta.len
         (TableMeta.field (Table.table_meta_ tb)
            (length values - 1 + TableMeta.sys_field_num (Table.table_meta_ tb))))
      0 values
      (replicate (TableMeta.record_size (Table.table_meta_ tb) + length values)
         x00).
Proof.
  unfold Table.make_record.
  case_bool_decide as Ha; [done|].
  case_bool_decide as Hc; [by intros [= E _]|].
  intros [= <-]. repeat split.
  - by destruct (decide (length values + TableMeta.sys_field_num
                           (Table.table_meta_ tb) =
                         TableMeta.field_num (Table.table_meta_ tb))%nat).
  - by destruct (decide (Table.check_values (Table.table_meta_ tb) 0 values
                         = SUCCESS)).
Qed.

(** C3.  The buffer that [make_record] builds has [record_size] bytes and
    one more per value, which is [sys_field_num] bytes less than the
    [record_size + field_num] bytes that [insert_record] tells the record
    manager to copy from it; the record in the heap has the latter
    length. *)
Theorem make_record_buffer_length (tb : Table.t) (trx : option Trx.t)
    (values : list Parse.Value) (buf : bytes) :
  let m := Table.table_meta_ tb in
  Table.make_record tb values = (SUCCESS, buf) ->
  (length buf + TableMeta.sys_field_num m =
   TableMeta.record_size m + TableMeta.field_num m)%nat /\
  forall tb' trx' r,
    Table.insert_record tb trx (mkRec (mkRID 0 0) buf)
      = (SUCCESS, tb', trx', r) ->
    exists d,
      RecordFileHandler.slots (Table.record_handler_ tb') !! rid r = Some d /\
      length d = (TableMeta.record_size m + TableMeta.field_num m)%nat.
Proof.
  intros m Hmk. destruct (make_record_success _ _ _ Hmk) as (Har & _ & ->).
  fold m in Har |- *. split.
  - rewrite length_fill_record, length_replicate. lia.
  - intros tb' trx' r Hins.
    unfold Table.insert_record, RecordFileHandler.insert_record in Hins.
    rewrite bool_decide_eq_false_2 in Hins by (by intros ?).
    repeat (case_match; simplify_eq/=);
      (eexists; split; [apply lookup_insert_eq|apply length_read_bytes]).
Qed.

(** The row [(1, "foo")] of the scenario: a buffer of 14 bytes, of which
    15 are copied. *)
Lemma make_record_buffer_length_witness :
  (length (Table.make_record Scenario.empty Scenario.row1).2 + 1 = 12 + 3)%nat
  /\
  forall tb' trx' r,
    Table.insert_record Scenario.empty None
      (mkRec (mkRID 0 0) (Table.make_record Scenario.empty Scenario.row1).2)
      = (SUCCESS, tb', trx', r) ->
    exists d,
      RecordFileHandler.slots (Table.record_handler_ tb') !! rid r = Some d /\
      length d = (12 + 3)%nat.
Proof.
  apply (make_record_buffer_length Scenario.empty None Scenario.row1).
  reflexivity.
Defined.

Example scenario_buffer_and_copy :
  length (Table.make_record Scenario.empty Scenario.row1).2 = 14%nat /\
  (TableMeta.record_size Scenario.meta + TableMeta.field_num Scenario.meta
   = 15)%nat /\
  length (data (Scenario.record_at Scenario.one_row Scenario.rid1)) = 15%nat.
Proof. repeat split; vm_compute; reflexivity. Qed.

(* ===================================================================== *)
(** * Update and rollback                                                 *)
(* ===================================================================== *)

(** The update of a record hands the transaction back as it got it. *)
Lemma update_record_keeps_trx tb trx record attribute_name value :
  (Table.update_record tb trx record attribute_name value).1.2 = trx.
Proof.
  unfold Table.update_record.
  repeat (case_match; simplify_eq/=); reflexivity.
Qed.

(** A rollback with an empty log is the identity on the table. *)
Lemma rollback_empty_log x tb :
  Trx.operations x = [] -> Trx_rollback x tb = (x, tb).
Proof. destruct x as [id ops f]. simpl. intros ->. reflexivity. Qed.

(** C1, as the code has it.  [update_record] does not tell the
    transaction about the update: the log after it is the log before it.
    A ROLLBACK therefore undoes what was logged before the update only;
    in a transaction that has logged nothing it leaves the table as the
    update made it. *)
Theorem update_not_undone_by_rollback (tb : Table.t) (x : Trx.t)
    (record : Rec) (attribute_name : string) (value : Parse.Value) :
  Trx.operations x = [] ->
  (Table.update_record tb (Some x) record attribute_name value).1.2 = Some x
  /\
  Trx_rollback x
    (Table.update_record tb (Some x) record attribute_name value).1.1.2
  = (x, (Table.update_record tb (Some x) record attribute_name value).1.1.2).
Proof.
  intros Hlog. split.
  - apply update_record_keeps_trx.
  - by apply rollback_empty_log.
Qed.

Lemma update_not_undone_by_rollback_witness :
  let x := Scenario.begin 1 in
  let r := Scenario.record_at Scenario.one_row Scenario.rid1 in
  let v := Parse.value_init_string "bar" false in
  (Table.update_record Scenario.one_row (Some x) r "b" v).1.2 = Some x /\
  Trx_rollback x (Table.update_record Scenario.one_row (Some x) r "b" v).1.1.2
  = (x, (Table.update_record Scenario.one_row (Some x) r "b" v).1.1.2).
Proof.
  intros x r v.
  apply (update_not_undone_by_rollback Scenario.one_row x r "b" v).
  reflexivity.
Defined.

(** [BEGIN; UPDATE t SET b = "bar" WHERE a = 1; ROLLBACK; SELECT b FROM t
    WHERE a = 1] on the table with the row [(1, "foo")]: the update
    succeeds, and after the rollback the column still reads "bar"; the
    table is not the one before the update. *)
Lemma update_rollback_counterexample :
  let x := Scenario.begin 1 in
  let r := Scenario.record_at Scenario.one_row Scenario.rid1 in
  let v := Parse.value_init_string "bar" false in
  let updated := Table.update_record Scenario.one_row (Some x) r "b" v in
  let rolled_back := (Trx_rollback x updated.1.1.2).2 in
  Scenario.column_b Scenario.one_row Scenario.rid1 = Parse.strdup "foo" /\
  updated.1.1.1 = SUCCESS /\
  Scenario.column_b rolled_back Scenario.rid1 = Parse.strdup "bar" /\
  rolled_back <> Scenario.one_row.
Proof.
  repeat split; try (vm_compute; reflexivity).
  intros E.
  assert (H : Scenario.column_b
                (Trx_rollback (Scenario.begin 1)
                   (Table.update_record Scenario.one_row
                      (Some (Scenario.begin 1))
                      (Scenario.record_at Scenario.one_row Scenario.rid1) "b"
                      (Parse.value_init_string "bar" false)).1.1.2).2
                Scenario.rid1 = Parse.strdup "foo")
    by (rewrite E; vm_compute; reflexivity).
  vm_compute in H. discriminate.
Qed.

(* ===================================================================== *)
(** * Index creation                                                      *)
(* ===================================================================== *)

Lemma is_some_find {A : Type} (p : A -> bool) (l : list A) :
  Table.is_some (List.find p l) = true <-> exists x, x ∈ l /\ p x = true.
Proof.
  split.
  - destruct (List.find p l) as [x|] eqn:E; [|done]. intros _.
    apply find_some in E as [Hin Hp]. exists x. by rewrite list_elem_of_In.
  - intros (x & Hin & Hp). destruct (List.find p l) eqn:E; [done|].
    apply list_elem_of_In in Hin.
    pose proof (find_none p l E x Hin). congruence.
Qed.

(** Filling a new index from the heap ends with SUCCESS or with the
    failure of the index file. *)
Lemma fill_index_codes trx rids filter limit count tb index :
  let rc := (Table.scan_record_heap_loop trx rids filter limit count
               Table.insert_index_record_reader_adapter tb index).1.1 in
  rc = SUCCESS \/ rc = IOERR.
Proof.
  revert count tb index. induction rids as [|r rids IH]; intros count tb index;
    simpl; [by left|].
  repeat case_match; simplify_eq/=; auto.
  - unfold Table.insert_index_record_reader_adapter in *.
    destruct (Index.insert_entry index _ _) as [rc' i'] eqn:Hins.
    simplify_eq.
    destruct (insert_entry_codes _ _ _ _ _ Hins) as [[-> _]|[-> _]]; auto.
Qed.

Section CreateIndexFacts.

Variable create_scanner : Index.t -> CompOp -> bytes -> Z -> IndexScanner.

Lemma index_known_test m index_name attribute_name :
  Table.is_some (TableMeta.index m index_name) ||
  Table.is_some (TableMeta.find_index_by_field m attribute_name) = true
  <-> index_known m index_name attribute_name.
Proof.
  unfold TableMeta.index, TableMeta.find_index_by_field, index_known.
  rewrite orb_true_iff, !is_some_find. split.
  - intros [(im & Hin & E)|(im & Hin & E)]; apply String.eqb_eq in E; eauto.
  - intros (im & Hin & [E|E]); [left|right]; exists im;
      by rewrite <- E, String.eqb_refl.
Qed.

(** The ways out of [create_index] for names that are not blank. *)
Lemma create_index_cases tb trx index_name attribute_name sys rc tb' :
  is_blank index_name = false ->
  is_blank attribute_name = false ->
  Table.create_index create_scanner tb trx (Some index_name)
    (Some attribute_name) sys = (rc, tb') ->
  (index_known (Table.table_meta_ tb) index_name attribute_name /\
   rc = SCHEMA_INDEX_EXIST /\ tb' = tb) \/
  (~ index_known (Table.table_meta_ tb) index_name attribute_name /\
   rc <> SCHEMA_INDEX_EXIST /\
   (rc = SUCCESS ->
    exists im, im ∈ TableMeta.indexes (Table.table_meta_ tb') /\
               IndexMeta.field im = attribute_name)).
Proof.
  intros Hn Ha. unfold Table.create_index.
  rewrite Hn, Ha. cbn [orb].
  pose proof (index_known_test (Table.table_meta_ tb) index_name attribute_name)
    as Hknown.
  destruct (Table.is_some (TableMeta.index (Table.table_meta_ tb) index_name) ||
            Table.is_some (TableMeta.find_index_by_field (Table.table_meta_ tb)
                             attribute_name)) eqn:Hex.
  { intros [= <- <-]. left. split; [by apply Hknown|done]. }
  assert (Hunknown : ~ index_known (Table.table_meta_ tb) index_name
                       attribute_name)
    by (intros H; apply Hknown in H; congruence).
  intros E. right. split; [done|]. revert E.
  destruct (TableMeta.field_by_name (Table.table_meta_ tb) attribute_name)
    as [field_meta|] eqn:Hfield; [|by intros [= <- <-]].
  unfold IndexMeta.init. rewrite Hn.
  rewrite bool_decide_eq_false_2 by (by intros ?).
  destruct (Table.index_file_created sys); [|by intros [= <- <-]].
  cbn [negb]. unfold Table.scan_record. cbn [Table.find_index_for_scan].
  change (-1 =? 0)%Z with false. change (-1 <? 0)%Z with true. cbv iota.
  pose proof (fill_index_codes trx
                (RecordFileHandler.scan_order (Table.record_handler_ tb))
                None INT_MAX 0 tb
                (Index.create (IndexMeta.mk index_name
                                 (FieldMeta.name field_meta)) field_meta))
    as Hcodes.
  destruct (Table.scan_record_heap_loop _ _ _ _ _ _ _ _) as [[rc1 tb1] index].
  cbn [fst] in Hcodes.
  case_bool_decide as Hrc.
  { intros [= <- <-]. split; [destruct Hcodes; congruence|done]. }
  unfold TableMeta.add_index.
  rewrite bool_decide_eq_false_2 by (by intros ?).
  destruct (Table.tmp_file_opened sys); [|by intros [= <- <-]].
  destruct (Table.meta_serialized sys); [|by intros [= <- <-]].
  destruct (Table.tmp_file_renamed sys); [|by intros [= <- <-]].
  cbn [negb]. intros [= <- <-]. split; [done|]. intros _.
  exists (IndexMeta.mk index_name (FieldMeta.name field_meta)). split.
  - cbn. apply elem_of_app. right. by apply list_elem_of_singleton.
  - cbn. unfold TableMeta.field_by_name in Hfield.
    apply find_some in Hfield as [_ E]. by apply String.eqb_eq in E.
Qed.

(** C7.  For names that are not blank, [create_index] returns
    SCHEMA_INDEX_EXIST exactly when the metadata has an index of that name
    or an index on that column, and then the table is unchanged; after a
    successful creation a second index on the same column is refused with
    SCHEMA_INDEX_EXIST and changes nothing. *)
Theorem create_index_exists_iff (tb : Table.t) (trx : option Trx.t)
    (index_name attribute_name : string) (sys : Table.SysCalls) :
  is_blank index_name = false ->
  is_blank attribute_name = false ->
  let result :=
    Table.create_index create_scanner tb trx (Some index_name)
      (Some attribute_name) sys in
  (result.1 = SCHEMA_INDEX_EXIST <->
   index_known (Table.table_meta_ tb) index_name attribute_name) /\
  (result.1 = SCHEMA_INDEX_EXIST -> result.2 = tb) /\
  (result.1 = SUCCESS ->
   forall trx2 name2 sys2,
     is_blank name2 = false ->
     Table.create_index create_scanner result.2 trx2 (Some name2)
       (Some attribute_name) sys2 = (SCHEMA_INDEX_EXIST, result.2)).
Proof.
  intros Hn Ha result.
  destruct result as [rc tb'] eqn:E. subst result. cbn [fst snd].
  destruct (create_index_cases _ _ _ _ _ _ _ Hn Ha E)
    as [(Hk & -> & ->)|(Hk & Hrc & Hok)].
  - repeat split; done.
  - repeat split; try done.
    intros -> trx2 name2 sys2 Hn2.
    destruct (Hok eq_refl) as (im & Hin & Hf).
    destruct (Table.create_index create_scanner tb' trx2 (Some name2)
                (Some attribute_name) sys2) as [rc2 tb2] eqn:E2.
    destruct (create_index_cases _ _ _ _ _ _ _ Hn2 Ha E2)
      as [(_ & -> & ->)|(Hk2 & _)]; [done|].
    destruct Hk2. exists im. auto.
Qed.

End CreateIndexFacts.

(** [CREATE INDEX ix2 ON t(a); CREATE INDEX ix3 ON t(a)] on the table of
    the scenario, all system calls succeeding. *)
Lemma create_index_exists_iff_witness :
  let cs : Index.t -> CompOp -> bytes -> Z -> IndexScanner :=
    fun _ _ _ _ => [] in
  let sys := Table.mkSysCalls true true true true in
  let result :=
    Table.create_index cs Scenario.two_rows None (Some "ix2"%string)
      (Some "a"%string) sys in
  (result.1 = SCHEMA_INDEX_EXIST <->
   index_known Scenario.meta "ix2" "a") /\
  (result.1 = SCHEMA_INDEX_EXIST -> result.2 = Scenario.two_rows) /\
  (result.1 = SUCCESS ->
   forall trx2 name2 sys2,
     is_blank name2 = false ->
     Table.create_index cs result.2 trx2 (Some name2) (Some "a"%string) sys2
     = (SCHEMA_INDEX_EXIST, result.2)).
Proof.
  intros cs sys.
  apply (create_index_exists_iff cs Scenario.two_rows None "ix2" "a" sys);
    reflexivity.
Defined.

Example second_index_on_column_refused :
  let cs : Index.t -> CompOp -> bytes -> Z -> IndexScanner :=
    fun _ _ _ _ => [] in
  let sys := Table.mkSysCalls true true true true in
  let first :=
    Table.create_index cs Scenario.two_rows None (Some "ix2"%string)
      (Some "a"%string) sys in
  first.1 = SUCCESS /\
  Table.create_index cs first.2 None (Some "ix3"%string) (Some "a"%string) sys
  = (SCHEMA_INDEX_EXIST, first.2).
Proof.
  split; vm_compute; reflexivity.
Qed.

(* ===================================================================== *)
(** * The two paths of a scan                                             *)
(* ===================================================================== *)

Section ScanPaths.

Implicit Types (tb : Table.t) (trx : option Trx.t)
  (filter : option ConditionFilter).

(** While the limit is not reached, the index path hands over what
    [delivered] says, entry by entry. *)
Lemma omap_cons_match {A B} (f : A -> option B) (x : A) (l : list A) :
  omap f (x :: l) =
  match f x with
  | Some y => y :: omap f l
  | None => omap f l
  end.
Proof. reflexivity. Qed.

Lemma index_path_collects tb trx filter limit scanner count acc :
  (count + Z.of_nat (length scanner) <= limit)%Z ->
  Forall (fun r => is_Some (RecordFileHandler.slots (Table.record_handler_ tb)
                              !! r)) scanner ->
  Table.scan_record_by_index_loop trx scanner filter limit count collect tb acc
  = (SUCCESS, tb, acc ++ omap (delivered tb trx filter) scanner).
Proof.
  revert count acc. induction scanner as [|r scanner IH]; intros count acc Hl Hlive.
  - simpl. rewrite app_nil_r. by destruct (count <? limit)%Z.
  - apply Forall_cons in Hlive as [[d Hd] Hlive].
    rewrite omap_cons_match. unfold delivered at 1. rewrite Hd.
    cbn [Table.scan_record_by_index_loop length] in *.
    destruct (Z.ltb_spec count limit); [|lia].
    unfold RecordFileHandler.get_record. rewrite Hd.
    rewrite bool_decide_eq_false_2 by (by intros ?).
    destruct (Table.visible tb trx (mkRec r d) && passes filter (mkRec r d)).
    + cbn [collect]. rewrite bool_decide_eq_false_2 by (by intros ?).
      rewrite IH; [by rewrite <- app_assoc|lia|done].
    + rewrite IH; [done|lia|done].
Qed.

(** So does the heap path. *)
Lemma heap_path_collects tb trx filter limit rids count acc :
  (count + Z.of_nat (length rids) <= limit)%Z ->
  Table.scan_record_heap_loop trx rids filter limit count collect tb acc
  = (SUCCESS, tb, acc ++ omap (delivered tb trx filter) rids).
Proof.
  revert count acc. induction rids as [|r rids IH]; intros count acc Hl.
  - simpl. by rewrite app_nil_r.
  - rewrite omap_cons_match. unfold delivered at 1.
    cbn [Table.scan_record_heap_loop length] in *.
    destruct (RecordFileHandler.slots (Table.record_handler_ tb) !! r)
      as [d|]; [|apply IH; lia].
    destruct (passes filter (mkRec r d)); [|rewrite andb_false_r; apply IH; lia].
    rewrite andb_true_r.
    destruct (Z.ltb_spec count limit); [|lia].
    destruct (Table.visible tb trx (mkRec r d)); [|apply IH; lia].
    cbn [collect]. rewrite bool_decide_eq_false_2 by (by intros ?).
    rewrite IH by lia. by rewrite <- app_assoc.
Qed.

Lemma omap_filter_is_Some {A B} (f : A -> option B) (l : list A) :
  omap f (filter (fun x => is_Some (f x)) l) = omap f l.
Proof.
  induction l as [|x l IH]; [done|].
  rewrite filter_cons, (omap_cons_match f x l).
  destruct (decide (is_Some (f x))) as [[y E]|Hn].
  - by rewrite omap_cons_match, E, IH.
  - rewrite IH. destruct (f x) eqn:E; [|done]. destruct Hn. eauto.
Qed.

Lemma scan_order_elem h r :
  r ∈ RecordFileHandler.scan_order h <->
  is_Some (RecordFileHandler.slots h !! r).
Proof.
  unfold RecordFileHandler.scan_order.
  rewrite merge_sort_Permutation, elem_of_elements. apply elem_of_dom.
Qed.

Lemma scan_order_NoDup h : NoDup (RecordFileHandler.scan_order h).
Proof.
  unfold RecordFileHandler.scan_order.
  rewrite merge_sort_Permutation. apply NoDup_elements.
Qed.

Lemma scan_order_length h :
  length (RecordFileHandler.scan_order h) = size (RecordFileHandler.slots h).
Proof.
  unfold RecordFileHandler.scan_order.
  rewrite merge_sort_Permutation. rewrite <- size_dom. reflexivity.
Qed.

Lemma length_omap_le {A B} (f : A -> option B) (l : list A) :
  (length (omap f l) <= length l)%nat.
Proof.
  induction l as [|x l IH]; [done|].
  rewrite omap_cons_match. destruct (f x); simpl; lia.
Qed.

(** The heap path counts what it hands over and nothing else, so it
    does not reach a limit that is at least the number of the records it
    has to hand over. *)
Lemma heap_path_collects_delivered tb trx filter limit rids count acc :
  (count + Z.of_nat (length (omap (delivered tb trx filter) rids))
   <= limit)%Z ->
  Table.scan_record_heap_loop trx rids filter limit count collect tb acc
  = (SUCCESS, tb, acc ++ omap (delivered tb trx filter) rids).
Proof.
  revert count acc. induction rids as [|r rids IH]; intros count acc Hl.
  - simpl. by rewrite app_nil_r.
  - rewrite omap_cons_match in Hl |- *. unfold delivered at 1 in Hl.
    unfold delivered at 1.
    cbn [Table.scan_record_heap_loop].
    destruct (RecordFileHandler.slots (Table.record_handler_ tb) !! r)
      as [d|]; [|by apply IH].
    destruct (passes filter (mkRec r d));
      [|rewrite andb_false_r in Hl |- *; by apply IH].
    rewrite andb_true_r in Hl |- *.
    destruct (Table.visible tb trx (mkRec r d)).
    + cbn [length] in Hl.
      destruct (Z.ltb_spec count limit); [|lia].
      cbn [collect]. rewrite bool_decide_eq_false_2 by (by intros ?).
      rewrite IH by lia. by rewrite <- app_assoc.
    + destruct (Z.ltb_spec count limit); [by apply IH|].
      destruct (omap (delivered tb trx filter) rids); [|simpl in Hl; lia].
      by rewrite app_nil_r.
Qed.

(** What an index scanner that keeps its contract towards the heap
    yields is, as far as it is handed over, what the heap holds. *)
Lemma scanner_exact_delivers tb trx filter (scanner : IndexScanner) :
  scanner_exact tb trx filter scanner = true ->
  Forall (fun r => is_Some (RecordFileHandler.slots
                              (Table.record_handler_ tb) !! r)) scanner /\
  omap (delivered tb trx filter) scanner
  ≡ₚ omap (delivered tb trx filter)
       (RecordFileHandler.scan_order (Table.record_handler_ tb)).
Proof.
  intros Hexact. unfold scanner_exact in Hexact.
  apply andb_prop in Hexact as [Hexact Hcomplete].
  apply andb_prop in Hexact as [Hnd Hlive].
  apply bool_decide_eq_true in Hnd.
  rewrite forallb_forall in Hlive, Hcomplete.
  assert (Hlive' : Forall (fun r => is_Some (RecordFileHandler.slots
                                               (Table.record_handler_ tb) !! r))
                     scanner).
  { apply Forall_forall. intros r Hr. apply list_elem_of_In, Hlive in Hr.
    by destruct (_ !! r). }
  split; [done|].
  rewrite <- (omap_filter_is_Some _ scanner),
          <- (omap_filter_is_Some _ (RecordFileHandler.scan_order _)).
  apply omap_Permutation, NoDup_Permutation.
  - by apply NoDup_filter.
  - apply NoDup_filter, scan_order_NoDup.
  - intros r. rewrite !list_elem_of_filter, scan_order_elem. split.
    + intros [Hd Hr]. split; [done|]. by eapply Forall_forall in Hlive'.
    + intros [Hd Hr]. split; [done|].
      apply scan_order_elem, list_elem_of_In, Hcomplete in Hr.
      destruct Hd as [x Hd]. unfold delivered in Hd.
      destruct (RecordFileHandler.slots (Table.record_handler_ tb) !! r)
        as [d|]; [|done].
      destruct (Table.visible tb trx (mkRec r d) && passes filter (mkRec r d));
        [|done].
      by apply bool_decide_eq_true in Hr.
Qed.

(** C9, as the code has it.  When the limit is at least the number of
    index entries that the scanner yields, and the scanner keeps its
    contract towards the heap, the index path and the heap path hand the
    same multiset of records to the reader.  The heap may hold any
    number of records: the heap path counts the records it hands over,
    which are among those that the scanner yields. *)
Theorem scan_paths_agree_below_limit tb trx filter (scanner : IndexScanner)
    (limit : Z) :
  scanner_exact tb trx filter scanner = true ->
  (Z.of_nat (length scanner) <= limit)%Z ->
  delivered_by_index tb trx scanner filter limit
  ≡ₚ delivered_by_heap tb trx filter limit.
Proof.
  intros Hexact Hl.
  destruct (scanner_exact_delivers tb trx filter scanner Hexact)
    as [Hlive Hperm].
  unfold delivered_by_index, delivered_by_heap, Table.scan_record_by_index.
  rewrite index_path_collects by (done || lia).
  rewrite heap_path_collects_delivered; [done|].
  rewrite <- Hperm.
  pose proof (length_omap_le (delivered tb trx filter) scanner). lia.
Qed.

End ScanPaths.

(** [a >= 2] on the rows with [a = 1] and [a = 2], under the limit 1:
    the index yields the one entry of the row with [a = 2]; the heap
    holds two records, more than the limit. *)
Lemma scan_paths_agree_below_limit_witness :
  delivered_by_index Scenario.two_rows None [Scenario.rid2]
    (Some (Scenario.a_at_least 2)) 1
  ≡ₚ delivered_by_heap Scenario.two_rows None
       (Some (Scenario.a_at_least 2)) 1.
Proof.
  apply (scan_paths_agree_below_limit Scenario.two_rows None
           (Some (Scenario.a_at_least 2)) [Scenario.rid2] 1).
  - vm_compute. reflexivity.
  - vm_compute. discriminate.
Defined.

(** There both paths hand over the row with [a = 2] and nothing else. *)
Example scan_paths_agree_on_one_of_two :
  let tb := Scenario.two_rows in
  let filter := Some (Scenario.a_at_least 2) in
  delivered_by_index tb None [Scenario.rid2] filter 1
    = [Scenario.record_at tb Scenario.rid2] /\
  delivered_by_heap tb None filter 1 = [Scenario.record_at tb Scenario.rid2] /\
  size (RecordFileHandler.slots (Table.record_handler_ tb)) = 2%nat.
Proof. repeat split; vm_compute; reflexivity. Qed.

(** With the limit 1 the two paths part, all records being visible and
    passing the filter [a >= 1].  The index on [a] yields its entries in
    the order of the keys, here the address of the row with [a = 1]
    before the one of the row with [a = 2]; the heap is scanned in the
    order of the addresses, where the row with [a = 2] comes first.  Each
    path hands over the first record it meets, and they are not the same
    record. *)
Lemma scan_paths_differ_under_limit :
  let tb := Scenario.swapped in
  let filter := Some Scenario.a_at_least_1 in
  delivered_by_index tb None [Scenario.rid2; Scenario.rid1] filter 1
    = [Scenario.record_at tb Scenario.rid2] /\
  delivered_by_heap tb None filter 1 = [Scenario.record_at tb Scenario.rid1] /\
  ~ (delivered_by_index tb None [Scenario.rid2; Scenario.rid1] filter 1
     ≡ₚ delivered_by_heap tb None filter 1).
Proof.
  intros tb filter.
  assert (E1 : delivered_by_index tb None [Scenario.rid2; Scenario.rid1]
                 filter 1 = [Scenario.record_at tb Scenario.rid2])
    by (vm_compute; reflexivity).
  assert (E2 : delivered_by_heap tb None filter 1
               = [Scenario.record_at tb Scenario.rid1])
    by (vm_compute; reflexivity).
  repeat split; [done..|].
  rewrite E1, E2. intros P. apply Permutation_singleton_inj in P.
  vm_compute in P. discriminate.
Qed.

(** The limit counters differ as well.  The row at the first address
    belongs to transaction 7 and is invisible to transaction 9.  The index
    path fetches its entry, counts it and stops, with nothing handed over;
    the heap path skips it without counting and hands over the second
    row. *)
Example scan_paths_count_differently :
  let tb := Scenario.mixed in
  let trx := Some (Scenario.begin 9) in
  let filter := Some Scenario.a_at_least_1 in
  delivered_by_index tb trx [Scenario.rid1; Scenario.rid2] filter 1 = [] /\
  delivered_by_heap tb trx filter 1 = [Scenario.record_at tb Scenario.rid2].
Proof. split; vm_compute; reflexivity. Qed.

(* ===================================================================== *)
(** * Bytes and layout                                                    *)
(* ===================================================================== *)

Section Bytes.

Lemma memcpy_lookup_outside dst off src n p :
  ~ (off <= p < off + n)%nat -> memcpy dst off src n !! p = dst !! p.
Proof.
  intros Hp. unfold memcpy.
  destruct (decide (p < off)%nat).
  - by apply list_lookup_inserts_lt.
  - apply list_lookup_inserts_ge. rewrite length_read_bytes. lia.
Qed.

Lemma memcpy_lookup_inside dst off src n p :
  (off <= p < off + n)%nat -> (p < length dst)%nat ->
  memcpy dst off src n !! p = read_bytes src n !! (p - off)%nat.
Proof.
  intros Hp Hd. unfold memcpy.
  apply list_lookup_inserts; [rewrite length_read_bytes; lia|done].
Qed.

(** The one byte that marks a null. *)
Lemma memcpy_flag_lookup dst pos b :
  (pos < length dst)%nat ->
  memcpy dst pos (Table.null_flag b) 1 !! pos
  = Some (if b then x01 else x00).
Proof.
  intros Hp. rewrite memcpy_lookup_inside by lia.
  rewrite Nat.sub_diag. by destruct b.
Qed.

Lemma null_payload_lookup_outside record f p :
  ~ (FieldMeta.offset f <= p < FieldMeta.offset f + FieldMeta.len f)%nat ->
  Table.null_payload record f !! p = record !! p.
Proof.
  intros Hp. unfold Table.null_payload.
  destruct (FieldMeta.type f); by rewrite ?memcpy_lookup_outside.
Qed.

Lemma read_bytes_lookup src n p :
  (p < length src)%nat -> (p < n)%nat -> read_bytes src n !! p = src !! p.
Proof.
  intros Hs Hn. unfold read_bytes.
  rewrite lookup_take_lt by done. by apply lookup_app_l.
Qed.

End Bytes.

Section Layout.

Implicit Types (m : TableMeta.t) (fs : list FieldMeta.t).

Lemma field_lookup m i f :
  TableMeta.fields m !! i = Some f -> TableMeta.field m i = f.
Proof. intros H. unfold TableMeta.field. by apply nth_lookup_Some with (d := FieldMeta.invalid) in H. Qed.

Lemma contiguous_lookup off fs i f :
  TableMeta.contiguous off fs = true ->
  fs !! i = Some f ->
  FieldMeta.offset f = (off + TableMeta.total_len (take i fs))%nat /\
  (FieldMeta.offset f + FieldMeta.len f <= off + TableMeta.total_len fs)%nat.
Proof.
  revert off i. induction fs as [|g fs IH]; intros off i Hc Hi; [done|].
  simpl in Hc. apply andb_prop in Hc as [Hg Hc]. apply Nat.eqb_eq in Hg.
  destruct i as [|i]; simpl in *.
  - inversion Hi; subst g. lia.
  - destruct (IH _ _ Hc Hi) as [E L]. lia.
Qed.

Lemma total_len_take_le fs i :
  (TableMeta.total_len (take i fs) <= TableMeta.total_len fs)%nat.
Proof.
  revert i. induction fs as [|g fs IH]; intros [|i]; simpl; try lia.
  specialize (IH i). lia.
Qed.

Lemma total_len_take_S fs i f :
  fs !! i = Some f ->
  TableMeta.total_len (take (S i) fs)
  = (TableMeta.total_len (take i fs) + FieldMeta.len f)%nat.
Proof.
  revert i. induction fs as [|g fs IH]; intros [|i] Hi; simpl in *; try done.
  - inversion Hi. lia.
  - rewrite (IH i Hi). lia.
Qed.

Lemma total_len_take_mono fs i k :
  (i <= k)%nat ->
  (TableMeta.total_len (take i fs) <= TableMeta.total_len (take k fs))%nat.
Proof.
  intros Hik.
  replace (take i fs) with (take i (take k fs))
    by (rewrite take_take; f_equal; lia).
  apply total_len_take_le.
Qed.

(** Fields in the order of the list do not overlap. *)
Lemma contiguous_disjoint fs i k f g :
  TableMeta.contiguous 0 fs = true ->
  fs !! i = Some f -> fs !! k = Some g -> (i < k)%nat ->
  (FieldMeta.offset f + FieldMeta.len f <= FieldMeta.offset g)%nat.
Proof.
  intros Hc Hi Hk Hik.
  destruct (contiguous_lookup 0 fs i f Hc Hi) as [Ef _].
  destruct (contiguous_lookup 0 fs k g Hc Hk) as [Eg _].
  rewrite Ef, Eg. simpl. rewrite <- (total_len_take_S fs i f Hi).
  by apply total_len_take_mono.
Qed.

(** The null marks begin where the fields end. *)
Lemma null_field_index_total m :
  TableMeta.contiguous 0 (TableMeta.fields m) = true ->
  TableMeta.null_field_index m = TableMeta.total_len (TableMeta.fields m).
Proof.
  unfold TableMeta.null_field_index, TableMeta.field_num, TableMeta.field.
  generalize (TableMeta.fields m). intros l Hc.
  destruct (decide (l = [])) as [->|Hne]; [done|].
  set (n := (length l - 1)%nat).
  assert (Hlen : (0 < length l)%nat) by (destruct l; simpl; [done|lia]).
  assert (Hlast : l !! n = Some (nth n l FieldMeta.invalid)).
  { destruct (nth_lookup_or_length l n FieldMeta.invalid) as [H|H];
      [done|unfold n in H; lia]. }
  destruct (contiguous_lookup 0 _ _ _ Hc Hlast) as [Eo _].
  rewrite Eo, Nat.add_0_l, <- (total_len_take_S _ _ _ Hlast).
  rewrite take_ge; [done|unfold n; lia].
Qed.

Lemma field_below_null_marks m i f :
  TableMeta.contiguous 0 (TableMeta.fields m) = true ->
  TableMeta.fields m !! i = Some f ->
  (FieldMeta.offset f + FieldMeta.len f <= TableMeta.null_field_index m)%nat.
Proof.
  intros Hc Hi. rewrite null_field_index_total by done.
  by destruct (contiguous_lookup 0 _ _ _ Hc Hi) as [_ L].
Qed.

(** Also an index past the field list yields a field below the marks. *)
Lemma any_field_below_null_marks m i :
  TableMeta.contiguous 0 (TableMeta.fields m) = true ->
  (FieldMeta.offset (TableMeta.field m i) +
   FieldMeta.len (TableMeta.field m i) <= TableMeta.null_field_index m)%nat.
Proof.
  intros Hc. destruct (TableMeta.fields m !! i) as [f|] eqn:E.
  - rewrite (field_lookup _ _ _ E). by eapply field_below_null_marks.
  - unfold TableMeta.field. rewrite nth_overflow; [simpl; lia|].
    by apply lookup_ge_None.
Qed.

Lemma index_of_name_found n fs k i :
  TableMeta.index_of_name n fs k = i -> i <> (-1)%Z -> (0 <= k)%Z ->
  (k <= i)%Z /\
  exists f, fs !! Z.to_nat (i - k) = Some f /\ FieldMeta.name f = n.
Proof.
  revert k. induction fs as [|g fs IH]; intros k Hi Hne Hk; simpl in Hi;
    [congruence|].
  destruct (String.eqb (FieldMeta.name g) n) eqn:E.
  - subst i. split; [lia|]. exists g. rewrite Z.sub_diag. simpl.
    by apply String.eqb_eq in E.
  - destruct (IH (k + 1)%Z Hi Hne) as [Hle (f & Hf & Hn)]; [lia|].
    split; [lia|]. exists f. split; [|done].
    replace (Z.to_nat (i - k)) with (S (Z.to_nat (i - (k + 1)))) by lia.
    done.
Qed.

Lemma find_field_index_found m n :
  TableMeta.find_field_index_by_name m n <> (-1)%Z ->
  (0 <= TableMeta.find_field_index_by_name m n)%Z /\
  exists f,
    TableMeta.fields m !! Z.to_nat (TableMeta.find_field_index_by_name m n)
      = Some f /\ FieldMeta.name f = n.
Proof.
  intros Hne. unfold TableMeta.find_field_index_by_name in *.
  destruct (index_of_name_found n (TableMeta.fields m) 0 _ eq_refl Hne)
    as [Hle (f & Hf & Hn)]; [lia|].
  split; [done|]. exists f. by rewrite Z.sub_0_r in Hf.
Qed.

End Layout.

(* ===================================================================== *)
(** * What an update does to the heap                                     *)
(* ===================================================================== *)

Section UpdateOutcome.

Implicit Types (tb : Table.t) (trx : option Trx.t).

(** The heap after [update_record]: untouched, or with the record
    rewritten, or, when the index refused the new entry, without the
    record.  The record is rewritten only with a legal value. *)
Lemma update_record_outcome tb trx r d attribute_name value :
  let res := Table.update_record tb trx (mkRec r d) attribute_name value in
  let m := Table.table_meta_ tb in
  let i := TableMeta.find_field_index_by_name m attribute_name in
  let h := RecordFileHandler.slots (Table.record_handler_ tb) in
  let h' := RecordFileHandler.slots (Table.record_handler_ res.1.1.2) in
  Table.table_meta_ res.1.1.2 = m /\
  (h' = h \/
   (i <> (-1)%Z /\
    Table.is_legal value (TableMeta.field m (Z.to_nat i)) = SUCCESS /\
    is_Some (h !! r) /\
    (h' = <[r := updated_data m d i value]> h \/ h' = delete r h))) /\
  (res.1.1.1 = SUCCESS ->
   i <> (-1)%Z /\
   Table.is_legal value (TableMeta.field m (Z.to_nat i)) = SUCCESS /\
   is_Some (h !! r) /\
   h' = <[r := updated_data m d i value]> h /\
   res.2 = mkRec r (updated_data m d i value)).
Proof.
  intros res m i h h'. subst res h'.
  unfold Table.update_record. fold m i.
  destruct (Z.eqb_spec i (-1)) as [Hi|Hi]; [by (cbn; intuition (eauto || congruence))|].
  cbn [fst snd]. rewrite bool_decide_eq_false_2 by (by intros ?).
  set (deleted := match Table.find_index tb attribute_name with
                  | Some k => _ | None => _ end).
  destruct deleted as [rc1 idx1] eqn:Hdel. clear Hdel.
  case_bool_decide as Hrc1; [by (cbn; intuition (eauto || congruence))|].
  case_bool_decide as Hleg; [by (cbn; intuition (eauto || congruence))|].
  assert (Hleg' : Table.is_legal value (TableMeta.field m (Z.to_nat i))
                  = SUCCESS)
    by (by destruct (decide (Table.is_legal value
                               (TableMeta.field m (Z.to_nat i)) = SUCCESS))).
  change (if (0 <=? Z.of_nat (TableMeta.null_field_index m) + i - 1)%Z
          then _ else _) with (updated_data m d i value).
  unfold RecordFileHandler.update_record. cbn [rid data]. fold h.
  destruct (h !! r) as [d0|] eqn:Hr; cycle 1.
  { rewrite bool_decide_eq_true_2 by done. cbn. fold h.
    intuition (eauto || congruence). }
  rewrite bool_decide_eq_false_2 by (by intros ?).
  assert (Hsome : is_Some (Some d0)) by eauto.
  destruct (Table.find_index tb attribute_name) as [k|]; [|by (cbn; intuition (eauto || congruence))].
  destruct (idx1 !! k) as [idx|]; [|by (cbn; intuition (eauto || congruence))].
  destruct (Index.insert_entry idx (updated_data m d i value) r)
    as [rc2 idx'].
  case_bool_decide as Hrc2; [|by (cbn; intuition (eauto || congruence))].
  destruct (Table.delete_entry_of_indexes _ _ _ _) as [rc3 idx3].
  unfold RecordFileHandler.delete_record. cbn [RecordFileHandler.slots].
  rewrite lookup_insert_eq. cbn. rewrite delete_insert_eq.
  intuition (eauto || congruence).
Qed.

End UpdateOutcome.

(* ===================================================================== *)
(** * The frame of an update                                              *)
(* ===================================================================== *)

Lemma well_formed_parts m :
  well_formed m = true ->
  TableMeta.contiguous 0 (TableMeta.fields m) = true /\
  TableMeta.sys_field_num m = 1%nat /\
  (1 < TableMeta.field_num m)%nat /\
  (4 <= FieldMeta.len (TableMeta.field m 0))%nat /\
  (TableMeta.null_field_index m <= TableMeta.record_size m)%nat.
Proof.
  unfold well_formed. rewrite !andb_true_iff.
  intros [[[[Hc Hs] Hn] H4] Hr].
  apply Nat.eqb_eq in Hs. apply Nat.ltb_lt in Hn.
  apply Nat.leb_le in H4, Hr.
  by rewrite null_field_index_total.
Qed.

(** The bytes that [update_record] writes: outside the field and the
    place of its null mark nothing changes. *)
Lemma updated_data_frame m d i value p :
  (1 <= i)%Z ->
  let f := TableMeta.field m (Z.to_nat i) in
  ~ (FieldMeta.offset f <= p < FieldMeta.offset f + FieldMeta.len f)%nat ->
  p <> (TableMeta.null_field_index m + (Z.to_nat i - 1))%nat ->
  updated_data m d i value !! p = d !! p.
Proof.
  intros Hi f Hp Hq. unfold updated_data. fold f.
  destruct (Z.leb_spec 0 (Z.of_nat (TableMeta.null_field_index m) + i - 1));
    [|lia].
  rewrite !memcpy_lookup_outside; [done|done|lia].
Qed.

Lemma length_updated_data m d i value :
  length (updated_data m d i value) = length d.
Proof.
  unfold updated_data. case_match; by rewrite !length_memcpy.
Qed.

Lemma field_bytes_ext g d d' :
  (forall p, (FieldMeta.offset g <= p < FieldMeta.offset g + FieldMeta.len g)%nat
             -> d' !! p = d !! p) ->
  field_bytes g d' = field_bytes g d.
Proof.
  intros H. unfold field_bytes. apply list_eq. intros q.
  destruct (decide (q < FieldMeta.len g)%nat).
  - rewrite !lookup_take_lt, !lookup_drop by done. apply H. lia.
  - rewrite !lookup_take_ge by lia. done.
Qed.

(** C10.  A successful [update_record] on a user column of a table with
    well-formed metadata writes the record back at its address with the
    same length; outside the bytes of the named column and the null mark
    of that column every byte is as before, so every other field (the
    transaction header among them) and every other null mark is
    unchanged, and so are the other records and the metadata. *)
Theorem update_record_frame (tb : Table.t) (trx : option Trx.t) (r : RID)
    (d : bytes) (attribute_name : string) (value : Parse.Value) :
  let m := Table.table_meta_ tb in
  let i := TableMeta.find_field_index_by_name m attribute_name in
  let f := TableMeta.field m (Z.to_nat i) in
  let res := Table.update_record tb trx (mkRec r d) attribute_name value in
  well_formed m = true ->
  (1 <= i)%Z ->
  res.1.1.1 = SUCCESS ->
  exists d',
    RecordFileHandler.slots (Table.record_handler_ res.1.1.2) !! r = Some d' /\
    res.2 = mkRec r d' /\
    length d' = length d /\
    (forall p,
       ~ (FieldMeta.offset f <= p < FieldMeta.offset f + FieldMeta.len f)%nat ->
       p <> (TableMeta.null_field_index m + (Z.to_nat i - 1))%nat ->
       d' !! p = d !! p) /\
    (forall k g, TableMeta.fields m !! k = Some g -> k <> Z.to_nat i ->
       field_bytes g d' = field_bytes g d) /\
    (forall j, (j + 1)%nat <> Z.to_nat i ->
       null_mark m j d' = null_mark m j d) /\
    (forall r', r' <> r ->
       RecordFileHandler.slots (Table.record_handler_ res.1.1.2) !! r'
       = RecordFileHandler.slots (Table.record_handler_ tb) !! r') /\
    Table.table_meta_ res.1.1.2 = m.
Proof.
  intros m i f res Hwf Hi Hok.
  destruct (well_formed_parts m Hwf) as (Hc & Hs & Hn & H4 & Hr).
  destruct (update_record_outcome tb trx r d attribute_name value)
    as (Hm & _ & Hsucc).
  fold m i res in Hm, Hsucc.
  destruct (Hsucc Hok) as (Hne & Hleg & Hlive & Hh & Hrec).
  destruct (find_field_index_found m attribute_name Hne)
    as (_ & f' & Hf' & Hname).
  fold i in Hf'. assert (f' = f) as -> by (symmetry; by apply field_lookup).
  pose proof (field_below_null_marks m _ _ Hc Hf') as Hbelow.
  exists (updated_data m d i value).
  split; [by rewrite Hh, lookup_insert_eq|].
  split; [done|]. split; [apply length_updated_data|].
  split; [intros p Hp Hq; by apply updated_data_frame|].
  split; [|split; [|split]].
  - intros k g Hg Hk. apply field_bytes_ext. intros p Hp.
    pose proof (field_below_null_marks m _ _ Hc Hg) as Hgb.
    apply updated_data_frame; [done| |lia]. fold f.
    destruct (decide (k < Z.to_nat i)%nat).
    + pose proof (contiguous_disjoint _ _ _ _ _ Hc Hg Hf' ltac:(done)). lia.
    + pose proof (contiguous_disjoint _ _ _ _ _ Hc Hf' Hg ltac:(lia)). lia.
  - intros j Hj. unfold null_mark.
    apply updated_data_frame; [done|fold f; lia|lia].
  - intros r' Hr'. by rewrite Hh, lookup_insert_ne.
  - done.
Qed.

(** [UPDATE t SET b = "bar"] on the row [(1, "foo")] of the scenario. *)
Lemma update_record_frame_witness :
  let tb := Scenario.one_row in
  let r := Scenario.rid1 in
  let d := data (Scenario.record_at tb r) in
  let value := Parse.value_init_string "bar" false in
  let res := Table.update_record tb None (mkRec r d) "b" value in
  exists d',
    RecordFileHandler.slots (Table.record_handler_ res.1.1.2) !! r = Some d' /\
    res.2 = mkRec r d' /\
    length d' = length d /\
    (forall p,
       ~ (8 <= p < 8 + 4)%nat -> p <> (12 + (2 - 1))%nat ->
       d' !! p = d !! p) /\
    (forall k g, TableMeta.fields Scenario.meta !! k = Some g -> k <> 2%nat ->
       field_bytes g d' = field_bytes g d) /\
    (forall j, (j + 1)%nat <> 2%nat ->
       null_mark Scenario.meta j d' = null_mark Scenario.meta j d) /\
    (forall r', r' <> r ->
       RecordFileHandler.slots (Table.record_handler_ res.1.1.2) !! r'
       = RecordFileHandler.slots (Table.record_handler_ tb) !! r') /\
    Table.table_meta_ res.1.1.2 = Scenario.meta.
Proof.
  intros tb r d value res.
  apply (update_record_frame tb None r d "b" value).
  - reflexivity.
  - vm_compute. discriminate.
  - vm_compute. reflexivity.
Defined.

(* ===================================================================== *)
(** * Null marks of non-nullable columns                                  *)
(* ===================================================================== *)

Section NullMarks.

Implicit Types (tb : Table.t) (trx : option Trx.t) (m : TableMeta.t)
  (values : list Parse.Value).


(** The values that the grammar builds are well formed: NULL comes in
    through [value_init_string (.., "NULL", true)], the other literals
    with [false]. *)
Lemma grammar_values_wf :
  (forall s b, value_wf (Parse.value_init_string s b) = true) /\
  (forall v, value_wf (Parse.value_init_integer v false) = true) /\
  (forall v, value_wf (Parse.value_init_float v false) = true).
Proof.
  repeat split; try done.
  intros s [|]; unfold Parse.value_init_string; [done|].
  destruct (Parse.check_date_format s); [|done].
  destruct (Parse.check_date_data_convert s 1) as [n t].
  by destruct (negb (t =? 0)%Z).
Qed.



(** The second loop of [make_record] does not touch the marks it has
    already set. *)
Lemma fill_record_keeps_marks m nfi i values record p :
  (forall k, FieldMeta.offset (TableMeta.field m k) +
             FieldMeta.len (TableMeta.field m k) <= nfi)%nat ->
  (nfi <= p < nfi + i)%nat ->
  Table.fill_record m nfi i values record !! p = record !! p.
Proof.
  intros Hbelow. revert i record.
  induction values as [|v values IH]; intros i record Hp; [done|].
  cbn [Table.fill_record]. rewrite IH by lia.
  pose proof (Hbelow (i + TableMeta.sys_field_num m)%nat).
  destruct (Parse.is_null v).
  - rewrite memcpy_lookup_outside by lia.
    apply null_payload_lookup_outside. lia.
  - rewrite !memcpy_lookup_outside by lia. done.
Qed.

(** It sets the mark of every value. *)
Lemma fill_record_marks m nfi i values record j v :
  (forall k, FieldMeta.offset (TableMeta.field m k) +
             FieldMeta.len (TableMeta.field m k) <= nfi)%nat ->
  values !! j = Some v ->
  (nfi + i + j < length record)%nat ->
  Table.fill_record m nfi i values record !! (nfi + i + j)%nat
  = Some (if Parse.is_null v then x01 else x00).
Proof.
  intros Hbelow. revert i record j.
  induction values as [|w values IH]; intros i record j Hj Hlen; [done|].
  cbn [Table.fill_record]. destruct j as [|j]; simpl in Hj.
  - inversion Hj; subst w. rewrite Nat.add_0_r in *.
    rewrite fill_record_keeps_marks by (done || lia).
    destruct (Parse.is_null v);
      rewrite memcpy_flag_lookup; try done;
      by rewrite ?length_memcpy, ?length_null_payload.
  - replace (nfi + i + S j)%nat with (nfi + S i + j)%nat by lia.
    apply IH; [done|].
    destruct (Parse.is_null w);
      rewrite ?length_memcpy, ?length_null_payload; lia.
Qed.









End NullMarks.



(** [INSERT INTO t VALUES (NULL, "x")] and [UPDATE t SET a = NULL]: the
    codes. *)
Example null_into_non_nullable :
  (Table.insert_record_values Scenario.two_rows None
     [Parse.value_init_string "NULL" true;
      Parse.value_init_string "x" false]).1.1 = SCHEMA_FIELD_NAME_ILLEGAL /\
  (Table.update_record Scenario.two_rows None
     (Scenario.record_at Scenario.two_rows Scenario.rid1) "a"
     (Parse.value_init_string "NULL" true)).1.1.1 = SCHEMA_FIELD_NAME_ILLEGAL.
Proof. split; vm_compute; reflexivity. Qed.

(* ===================================================================== *)
(** * parse.cpp: numbers as text, file names, dates as numbers            *)
(* ===================================================================== *)

Section NumberToStr.

Import Parse DateSpec.
Local Open Scope Z_scope.

Lemma decimal_snoc l c : decimal (l ++ [c]) = 10 * decimal l + digit_value c.
Proof. unfold decimal. by rewrite fold_left_app. Qed.

Lemma digit_char_value n :
  0 <= n ->
  digit_value (digit_char n) = n mod 10 /\ is_digit (digit_char n) = true.
Proof.
  intros Hn. unfold digit_value, is_digit, digit_char.
  rewrite Z.rem_mod_nonneg by lia.
  pose proof (Z.mod_pos_bound n 10 ltac:(lia)) as Hr.
  rewrite (Z.mod_small (n mod 10 + 48) 256) by lia.
  rewrite N_ascii_embedding by lia.
  rewrite Z2N.id by lia. split; [lia|].
  apply andb_true_intro. split; apply Z.leb_le; lia.
Qed.

(** The loop writes the digits of a number below [10 ^ k] in at most [k]
    rounds, the last digit first. *)
Lemma number_digits_reversed k fuel n :
  0 <= n < 10 ^ Z.of_nat k -> (k <= fuel)%nat ->
  decimal (rev (number_digits fuel n)) = n /\
  Forall (fun c => is_digit c = true) (number_digits fuel n) /\
  (length (number_digits fuel n) <= k)%nat.
Proof.
  revert fuel n. induction k as [|k IH]; intros fuel n Hn Hk.
  - assert (n = 0) as -> by (simpl in Hn; lia).
    destruct fuel; simpl; repeat split; auto.
  - destruct fuel as [|fuel]; [lia|]. simpl.
    destruct (Z.eqb_spec n 0) as [->|Hne]; [simpl; repeat split; auto; lia|].
    rewrite Nat2Z.inj_succ, Z.pow_succ_r in Hn by lia.
    assert (Hq : 0 <= Z.quot n 10 < 10 ^ Z.of_nat k).
    { rewrite Z.quot_div_nonneg by lia. split; [apply Z.div_pos; lia|].
      apply Z.div_lt_upper_bound; lia. }
    destruct (IH fuel (Z.quot n 10) Hq ltac:(lia)) as (Hd & Hall & Hlen).
    destruct (digit_char_value n ltac:(lia)) as [Hv Hdig].
    simpl. rewrite decimal_snoc, Hd, Hv.
    split; [|split].
    + rewrite Z.quot_div_nonneg by lia.
      pose proof (Z.div_mod n 10 ltac:(lia)). lia.
    + by constructor.
    + lia.
Qed.

(** The text of a number from 0 to INT_MAX has digits only, at most ten
    of them, which the buffers of 25 places hold. *)
Lemma number_to_str_digits (n : Z) :
  0 <= n <= INT_MAX ->
  let out := chars_of (number_to_str n) in
  Forall (fun c => is_digit c = true) out /\
  (1 <= length out <= 10)%nat /\
  decimal (rev out) = n.
Proof.
  intros Hn out. subst out. unfold number_to_str, chars_of.
  destruct (Z.eqb_spec n 0) as [->|Hne].
  { cbn. split; [repeat constructor|split; [lia|reflexivity]]. }
  destruct (Z.ltb_spec n 0); [lia|].
  rewrite list_ascii_of_string_of_list_ascii. cbn [app].
  destruct (number_digits_reversed 10 25 n) as (Hd & Hall & Hlen);
    [unfold INT_MAX in Hn; lia|lia|].
  split; [done|]. split; [|done]. split; [|done].
  destruct (number_digits 25 n) eqn:E; [|simpl; lia].
  simpl in Hd. unfold decimal in Hd. simpl in Hd. lia.
Qed.

Lemma mod10_cases n :
  0 <= n ->
  n mod 10 = 0 \/ n mod 10 = 1 \/ n mod 10 = 2 \/ n mod 10 = 3 \/
  n mod 10 = 4 \/ n mod 10 = 5 \/ n mod 10 = 6 \/ n mod 10 = 7 \/
  n mod 10 = 8 \/ n mod 10 = 9.
Proof. intros _. pose proof (Z.mod_pos_bound n 10 ltac:(lia)). lia. Qed.

Lemma digit_char_mod n c :
  0 <= n -> n mod 10 = c ->
  digit_char n = ascii_of_N (Z.to_N (c + 48)).
Proof.
  intros Hn Hc. unfold digit_char. rewrite Z.rem_mod_nonneg by lia.
  rewrite Hc. pose proof (Z.mod_pos_bound n 10 ltac:(lia)).
  by rewrite Z.mod_small by lia.
Qed.

(** The digits that the loop writes are, last digit first, a numeral of
    the standard library for the number: without leading zero, and with
    the number as its value. *)
Lemma number_digits_numeral k fuel n :
  0 <= n < 10 ^ Z.of_nat k -> (k <= fuel)%nat ->
  exists lu,
    DecimalPos.Unsigned.of_lu lu = Z.to_N n /\
    (forall acc,
       chars_of (DecimalString.NilEmpty.string_of_uint (Decimal.revapp lu acc))
       = rev (number_digits fuel n)
         ++ chars_of (DecimalString.NilEmpty.string_of_uint acc)) /\
    (n <> 0 ->
     forall acc, Decimal.unorm (Decimal.revapp lu acc) = Decimal.revapp lu acc) /\
    (n = 0 -> lu = Decimal.Nil).
Proof.
  revert fuel n. induction k as [|k IH]; intros fuel n Hn Hk.
  - assert (n = 0) as -> by (simpl in Hn; lia).
    exists Decimal.Nil. destruct fuel; simpl; repeat split; auto; done.
  - destruct fuel as [|fuel]; [lia|]. cbn [number_digits].
    destruct (Z.eqb_spec n 0) as [->|Hne].
    { exists Decimal.Nil. simpl; repeat split; auto; done. }
    rewrite Nat2Z.inj_succ, Z.pow_succ_r in Hn by lia.
    assert (Hq : 0 <= Z.quot n 10 < 10 ^ Z.of_nat k).
    { rewrite Z.quot_div_nonneg by lia. split; [apply Z.div_pos; lia|].
      apply Z.div_lt_upper_bound; lia. }
    destruct (IH fuel (Z.quot n 10) Hq ltac:(lia)) as (lu & Hv & Hs & Hu & H0).
    rewrite Z.quot_div_nonneg in Hv, Hu, H0 by lia.
    pose proof (Z.div_mod n 10 ltac:(lia)) as Hdm.
    assert (Hval : forall c : Z, n mod 10 = c ->
              (Z.to_N c + 10 * DecimalPos.Unsigned.of_lu lu)%N = Z.to_N n).
    { intros c Hc. rewrite Hv. pose proof (Z.mod_pos_bound n 10 ltac:(lia)).
      assert (0 <= n / 10) by (apply Z.div_pos; lia). lia. }
    destruct (mod10_cases n ltac:(lia))
      as [Hc|[Hc|[Hc|[Hc|[Hc|[Hc|[Hc|[Hc|[Hc|Hc]]]]]]]]];
      rewrite (digit_char_mod n _ ltac:(lia) Hc);
      pose proof (Hval _ Hc) as Hv'.
    1: exists (Decimal.D0 lu).
    2: exists (Decimal.D1 lu).
    3: exists (Decimal.D2 lu).
    4: exists (Decimal.D3 lu).
    5: exists (Decimal.D4 lu).
    6: exists (Decimal.D5 lu).
    7: exists (Decimal.D6 lu).
    8: exists (Decimal.D7 lu).
    9: exists (Decimal.D8 lu).
    10: exists (Decimal.D9 lu).
    all: (split; [cbn [DecimalPos.Unsigned.of_lu]; lia|]);
      (split; [intros acc; cbn [Decimal.revapp rev]; rewrite Hs;
               rewrite <- app_assoc; reflexivity|]);
      (split; [|intros ->; done]);
      intros _ acc; cbn [Decimal.revapp];
      destruct (Z.eq_dec (n / 10) 0) as [Hz|Hz];
      [rewrite (H0 Hz); cbn [Decimal.revapp]; try reflexivity; lia
      |by apply Hu].
Qed.

(** X1.  For a number from 0 to INT_MAX the text of [number_to_str] is
    the decimal numeral of the number, as the standard library prints
    it, read from its end to its start: the digits come out last digit
    first, 120 as "021". *)
Theorem number_to_str_reversed (n : Z) :
  0 <= n <= INT_MAX ->
  number_to_str n
  = string_of_list_ascii
      (rev (chars_of (DecimalString.NilZero.string_of_uint
                        (N.to_uint (Z.to_N n))))).
Proof.
  intros Hn. unfold number_to_str.
  destruct (Z.eqb_spec n 0) as [->|Hne]; [reflexivity|].
  destruct (Z.ltb_spec n 0); [lia|]. cbn [app].
  destruct (number_digits_numeral 10 25 n) as (lu & Hv & Hs & Hu & _);
    [unfold INT_MAX in Hn; lia|lia|].
  specialize (Hu Hne Decimal.Nil). specialize (Hs Decimal.Nil).
  rewrite <- Hv. rewrite <- DecimalPos.Unsigned.of_lu_rev.
  rewrite DecimalPos.Unsigned.to_of. unfold Decimal.rev. rewrite Hu.
  assert (Hnn : Decimal.revapp lu Decimal.Nil <> Decimal.Nil).
  { intros E. rewrite E in Hu. discriminate. }
  assert (DecimalString.NilZero.string_of_uint (Decimal.revapp lu Decimal.Nil)
          = DecimalString.NilEmpty.string_of_uint
              (Decimal.revapp lu Decimal.Nil)) as ->
    by (destruct (Decimal.revapp lu Decimal.Nil); done).
  rewrite Hs. cbn [DecimalString.NilEmpty.string_of_uint chars_of
                   list_ascii_of_string].
  by rewrite app_nil_r, rev_involutive.
Qed.

Lemma number_to_str_reversed_witness :
  number_to_str 120
  = string_of_list_ascii
      (rev (chars_of (DecimalString.NilZero.string_of_uint
                        (N.to_uint (Z.to_N 120))))).
Proof. apply (number_to_str_reversed 120). unfold INT_MAX. lia. Defined.

(** The text of 120 is "021". *)
Example number_to_str_120 : number_to_str 120 = "021"%string.
Proof. reflexivity. Qed.

(** X2.  For a negative number above INT_MIN the text is a minus sign in
    front of the text of its absolute value. *)
Theorem number_to_str_negative (n : Z) :
  - INT_MAX <= n < 0 ->
  number_to_str n = String "-" (number_to_str (- n)).
Proof.
  intros Hn. unfold number_to_str, INT_MAX in *.
  destruct (Z.eqb_spec n 0); [lia|].
  destruct (Z.eqb_spec (- n) 0); [lia|].
  destruct (Z.ltb_spec n 0); [|lia].
  destruct (Z.ltb_spec (- n) 0); [lia|].
  assert (wrap32 (- n) = - n) as ->.
  { unfold wrap32. rewrite Z.mod_small by lia. lia. }
  reflexivity.
Qed.

Lemma number_to_str_negative_witness :
  number_to_str (-45) = String "-" (number_to_str (- (-45))).
Proof. apply (number_to_str_negative (-45)). unfold INT_MAX. lia. Defined.

End NumberToStr.

Section LoadDataInit.

Import Parse.

Lemma chars_of_string l : chars_of (string_of_list_ascii l) = l.
Proof. apply list_ascii_of_string_of_list_ascii. Qed.

Lemma nth_last_snoc (l : list ascii) (c d : ascii) :
  nth (length (l ++ [c]) - 1) (l ++ [c]) d = c.
Proof.
  rewrite length_app. simpl.
  replace (length l + 1 - 1)%nat with (length l) by lia.
  rewrite app_nth2 by lia. by rewrite Nat.sub_diag.
Qed.

(** X3.  A file name between two quotes, of either kind, is stored
    without them; the text between the quotes is kept as it is. *)
Theorem load_data_init_strips_quotes (relation_name : string)
    (q1 q2 : ascii) (body : list ascii) :
  is_quote q1 = true -> is_quote q2 = true ->
  load_data_init relation_name (string_of_list_ascii (q1 :: body ++ [q2]))
  = Some (mkLoadData relation_name (string_of_list_ascii body)).
Proof.
  intros H1 H2. unfold load_data_init. rewrite chars_of_string, H1.
  rewrite nth_last_snoc, H2.
  destruct (Nat.eqb_spec (length (body ++ [q2])) 0) as [E|_].
  { rewrite length_app in E. simpl in E. lia. }
  rewrite length_app. simpl.
  replace (length body + 1 - 1)%nat with (length body) by lia.
  by rewrite take_app_length.
Qed.

Lemma load_data_init_strips_quotes_witness :
  load_data_init "t" (string_of_list_ascii ("'"%char :: chars_of "a.csv" ++ ["034"%char]))
  = Some (mkLoadData "t" (string_of_list_ascii (chars_of "a.csv"))).
Proof.
  apply (load_data_init_strips_quotes "t" "'" "034" (chars_of "a.csv"));
    reflexivity.
Defined.

(** X4.  A file name that neither starts nor ends with a quote is stored
    as it is. *)
Theorem load_data_init_keeps_plain_name (relation_name : string)
    (f : list ascii) (c e : ascii) :
  head f = Some c -> last f = Some e ->
  is_quote c = false -> is_quote e = false ->
  load_data_init relation_name (string_of_list_ascii f)
  = Some (mkLoadData relation_name (string_of_list_ascii f)).
Proof.
  intros Hh Hl H1 H2. unfold load_data_init. rewrite chars_of_string.
  apply last_Some in Hl as [f' ->].
  assert ((match f' ++ [e] with
           | c0 :: r => if is_quote c0 then r else f' ++ [e]
           | [] => f' ++ [e]
           end) = f' ++ [e]) as ->.
  { destruct f' as [|c0 f']; simpl in *; simplify_eq; by rewrite ?H1, ?H2. }
  rewrite nth_last_snoc, H2.
  destruct (Nat.eqb_spec (length (f' ++ [e])) 0) as [E|_]; [|done].
  rewrite length_app in E. simpl in E. lia.
Qed.

Lemma load_data_init_keeps_plain_name_witness :
  load_data_init "t" (string_of_list_ascii (chars_of "a.csv"))
  = Some (mkLoadData "t" (string_of_list_ascii (chars_of "a.csv"))).
Proof.
  apply (load_data_init_keeps_plain_name "t" (chars_of "a.csv") "a" "v");
    reflexivity.
Defined.

(** X5.  [load_data_init] reads in front of its buffer exactly on the
    empty file name and on a file name that is one quote. *)
Theorem load_data_init_out_of_bounds (relation_name file_name : string) :
  load_data_init relation_name file_name = None <->
  chars_of file_name = [] \/
  exists q, is_quote q = true /\ chars_of file_name = [q].
Proof.
  unfold load_data_init. destruct (chars_of file_name) as [|c r] eqn:E.
  - simpl. split; auto.
  - destruct (is_quote c) eqn:Hc.
    + destruct r as [|b r]; simpl.
      * split; [intros _; right; eauto|done].
      * split; [done|]. intros [?|(q & _ & ?)]; congruence.
    + simpl. split; [done|].
      intros [?|(q & Hq & ?)]; [congruence|]. simplify_eq. congruence.
Qed.

End LoadDataInit.

Section MatchNull.

Import Parse.

Lemma one_of_lower (u l c : ascii) :
  lower_case u = l -> lower_case l = l ->
  (forall c', lower_case c' = l -> c' = u \/ c' = l) ->
  one_of u l c = true <-> lower_case c = l.
Proof.
  intros Hu Hl Honly. unfold one_of. rewrite orb_true_iff, !Ascii.eqb_eq.
  split; [intros [-> | ->]; done|apply Honly].
Qed.

Lemma lower_case_only (l c : ascii) :
  (97 <= N_of_ascii l <= 122)%N ->
  lower_case c = l -> c = ascii_of_N (N_of_ascii l - 32) \/ c = l.
Proof.
  intros Hl. unfold lower_case.
  destruct ((65 <=? N_of_ascii c)%N && (N_of_ascii c <=? 90)%N) eqn:E.
  - apply andb_prop in E as [E1 E2].
    apply N.leb_le in E1, E2. intros <-. left.
    rewrite N_ascii_embedding by lia.
    replace (N_of_ascii c + 32 - 32)%N with (N_of_ascii c) by lia.
    by rewrite ascii_N_embedding.
  - intros ->. by right.
Qed.

(** X6.  [match_null] accepts exactly the texts that are the word
    "null" up to the case of the letters. *)
Theorem match_null_is_null_word (s : string) :
  match_null s = true <-> map lower_case (chars_of s) = chars_of "null".
Proof.
  unfold match_null.
  assert (Hn : forall c, one_of "N" "n" c = true <-> lower_case c = "n"%char).
  { intros c. apply one_of_lower; [done|done|].
    intros c'. apply (lower_case_only "n" c'). vm_compute. by split. }
  assert (Hu : forall c, one_of "U" "u" c = true <-> lower_case c = "u"%char).
  { intros c. apply one_of_lower; [done|done|].
    intros c'. apply (lower_case_only "u" c'). vm_compute. by split. }
  assert (Hl : forall c, one_of "L" "l" c = true <-> lower_case c = "l"%char).
  { intros c. apply one_of_lower; [done|done|].
    intros c'. apply (lower_case_only "l" c'). vm_compute. by split. }
  destruct (chars_of s) as [|c1 [|c2 [|c3 [|c4 [|c5 r]]]]]; try done.
  rewrite !andb_true_iff, Hn, Hu, !Hl. cbn [map chars_of list_ascii_of_string].
  split.
  - intros [[[-> ->] ->] ->]. done.
  - intros [= -> -> -> ->]. done.
Qed.

End MatchNull.

Section DateNumbers.

Import Parse DateSpec.
Local Open Scope Z_scope.

(** What [value_init_string] makes of a literal that it takes for a
    date. *)
Lemma dates_value s :
  type (value_init_string s false) = DATES ->
  exists y m d,
    date_fields s = Some (y, m, d) /\ date2num s = packed y m d /\
    0 <= m < 100 /\ 0 <= d < 100 /\
    value_init_string s false
    = mkValue DATES (int_to_bytes (date2num s)) false.
Proof.
  unfold value_init_string.
  destruct (check_date_format s) eqn:Hfmt; [|discriminate].
  destruct (check_date_format_shape s Hfmt)
    as (y & m & d & Hs & Hy & Hm & Hd & Hall).
  destruct (date_shape_num s y m d Hs Hy Hm Hd Hall)
    as (Hnum & Hfields & Ry & Rm & Rd).
  assert (Hfst : fst (check_date_data_convert s 1) = date2num s) by done.
  destruct (check_date_data_convert s 1) as [n t]. cbn [fst] in Hfst.
  destruct (Z.eqb_spec t 0); [discriminate|]. simpl. intros _.
  exists (decimal y), (decimal m), (decimal d). subst n. tauto.
Qed.

(** X7.  The number that is stored for a date literal orders the dates as
    the calendar does: between two literals that are taken for dates, the
    stored number of the first is smaller exactly when its year is
    earlier, or the year is the same and the month is earlier, or both
    are the same and the day is earlier. *)
Theorem date_numbers_order_dates (s1 s2 : string) :
  type (value_init_string s1 false) = DATES ->
  type (value_init_string s2 false) = DATES ->
  exists y1 m1 d1 y2 m2 d2,
    date_fields s1 = Some (y1, m1, d1) /\
    date_fields s2 = Some (y2, m2, d2) /\
    data (value_init_string s1 false) = int_to_bytes (date2num s1) /\
    data (value_init_string s2 false) = int_to_bytes (date2num s2) /\
    (date2num s1 < date2num s2 <->
     y1 < y2 \/ (y1 = y2 /\ (m1 < m2 \/ (m1 = m2 /\ d1 < d2)))).
Proof.
  intros H1 H2.
  destruct (dates_value s1 H1) as (y1 & m1 & d1 & F1 & N1 & M1 & D1 & B1).
  destruct (dates_value s2 H2) as (y2 & m2 & d2 & F2 & N2 & M2 & D2 & B2).
  exists y1, m1, d1, y2, m2, d2. rewrite B1, B2.
  repeat split; auto; rewrite N1, N2; unfold packed; lia.
Qed.

Lemma date_numbers_order_dates_witness :
  exists y1 m1 d1 y2 m2 d2,
    date_fields "2020-2-29" = Some (y1, m1, d1) /\
    date_fields "2020-03-01" = Some (y2, m2, d2) /\
    data (value_init_string "2020-2-29" false)
    = int_to_bytes (date2num "2020-2-29") /\
    data (value_init_string "2020-03-01" false)
    = int_to_bytes (date2num "2020-03-01") /\
    (date2num "2020-2-29" < date2num "2020-03-01" <->
     y1 < y2 \/ (y1 = y2 /\ (m1 < m2 \/ (m1 = m2 /\ d1 < d2)))).
Proof.
  apply (date_numbers_order_dates "2020-2-29" "2020-03-01"); reflexivity.
Defined.

(** X8.  Leading zeros in the month and the day of a date literal do not
    matter: two literals of the date format with the same year, month and
    day get the same type, and when that is DATES, the same value. *)
Theorem date_padding_irrelevant (s1 s2 : string) :
  check_date_format s1 = true ->
  check_date_format s2 = true ->
  date_fields s1 = date_fields s2 ->
  type (value_init_string s1 false) = type (value_init_string s2 false) /\
  (type (value_init_string s1 false) = DATES ->
   value_init_string s1 false = value_init_string s2 false).
Proof.
  intros F1 F2 Hf.
  assert (Hn : forall s, check_date_format s = true ->
            exists y m d (b : bool), date_fields s = Some (y, m, d) /\
              (b = true <-> storable_date y m d) /\
              (b = true ->
               value_init_string s false
               = mkValue DATES (int_to_bytes (packed y m d)) false) /\
              (b = false ->
               type (value_init_string s false) = CHARS)).
  { intros s Hfmt. unfold value_init_string. rewrite Hfmt.
    destruct (check_date_format_shape s Hfmt)
      as (y & m & d & Hs & Hy & Hm & Hd & Hall).
    destruct (date_shape_num s y m d Hs Hy Hm Hd Hall)
      as (Hnum & Hfields & Ry & Rm & Rd).
    pose proof (convert_flag_iff s _ _ _ Hnum Ry Rm Rd) as Hflag.
    assert (Hfst : fst (check_date_data_convert s 1) = date2num s) by done.
    destruct (check_date_data_convert s 1) as [n t]. cbn [fst snd] in *.
    exists (decimal y), (decimal m), (decimal d), (negb (t =? 0)).
    split; [done|]. subst n. rewrite Hnum.
    destruct (Z.eqb_spec t 0) as [->|Hne]; simpl.
    - split; [split; [done|]|split; done].
      intros Hst. apply Hflag in Hst. done.
    - split; [split; [intros _; by apply Hflag|done]|split; done]. }
  destruct (Hn s1 F1) as (y1 & m1 & d1 & b1 & E1 & S1 & Y1 & N1).
  destruct (Hn s2 F2) as (y2 & m2 & d2 & b2 & E2 & S2 & Y2 & N2).
  rewrite E1, E2 in Hf. simplify_eq.
  assert (b1 = b2) as <-.
  { destruct b1, b2; try done.
    - symmetry. apply S2, S1. done.
    - apply S1, S2. done. }
  destruct b1.
  - rewrite (Y1 eq_refl), (Y2 eq_refl). done.
  - rewrite (N1 eq_refl), (N2 eq_refl). done.
Qed.

Lemma date_padding_irrelevant_witness :
  type (value_init_string "2020-1-5" false)
  = type (value_init_string "2020-01-05" false) /\
  (type (value_init_string "2020-1-5" false) = DATES ->
   value_init_string "2020-1-5" false = value_init_string "2020-01-05" false).
Proof.
  apply (date_padding_irrelevant "2020-1-5" "2020-01-05"); reflexivity.
Defined.

End DateNumbers.

(* ===================================================================== *)
(** * value.h: the order that [compare] gives, and floats as text         *)
(* ===================================================================== *)

Section CompareOrder.

Context {float : Type}.
Variable float_sub : float -> float -> float.
Variables gt_minus_eps lt_eps gt_zero lt_zero : float -> bool.

Local Open Scope Z_scope.

(** X9.  On two integers that are not NULL and whose difference fits an
    [int], [compare] returns the difference: negative, zero or positive
    as the first is smaller than, equal to or greater than the second. *)
Theorem int_compare_orders (a b : Z) :
  - INT_MAX - 1 <= a - b <= INT_MAX ->
  exists r,
    compare float float_sub gt_minus_eps lt_eps gt_zero lt_zero
      (IntValue a false) (IntValue b false) = Some r /\
    (r < 0 <-> a < b) /\ (r = 0 <-> a = b) /\ (0 < r <-> b < a).
Proof.
  intros Hd. exists (a - b). simpl. unfold wrap32, INT_MAX in *.
  rewrite Z.mod_small by lia.
  split; [f_equal; lia|lia].
Qed.

(** X10.  When the difference of two integers is above INT_MAX, the
    subtraction wraps around and [compare] returns a negative number,
    although the first integer is the greater one. *)
Theorem int_compare_wraps (a b : Z) :
  - INT_MAX - 1 <= a <= INT_MAX -> - INT_MAX - 1 <= b <= INT_MAX ->
  INT_MAX < a - b ->
  exists r,
    compare float float_sub gt_minus_eps lt_eps gt_zero lt_zero
      (IntValue a false) (IntValue b false) = Some r /\
    r < 0 /\ b < a.
Proof.
  intros Ha Hb Hd. unfold INT_MAX in *.
  exists (a - b - 4294967296). simpl. unfold wrap32.
  split; [f_equal|lia].
  assert ((a - b + 2147483648) mod 4294967296 = a - b + 2147483648 - 4294967296)
    as ->; [|lia].
  symmetry. apply Z.mod_unique with (q := 1); lia.
Qed.

Lemma Z_of_byte_inj (x y : byte) : Z_of_byte x = Z_of_byte y -> x = y.
Proof.
  unfold Z_of_byte. intros E. apply N2Z.inj in E.
  assert (Some x = Some y) as [= ->]; [|done].
  by rewrite <- (Byte.of_to_N x), <- (Byte.of_to_N y), E.
Qed.

Lemma Z_of_byte_range (x : byte) : 0 <= Z_of_byte x.
Proof. unfold Z_of_byte. lia. Qed.

Lemma strcmp_zero (a b : bytes) :
  strcmp a b = 0 <-> take (strlen a) a = take (strlen b) b.
Proof.
  revert b. induction a as [|x a IH]; intros [|y b]; simpl.
  - done.
  - destruct (decide (y = x00)) as [->|Hy]; [done|].
    split; [|done]. intros E. exfalso.
    apply Hy, Z_of_byte_inj. change (Z_of_byte x00) with 0. lia.
  - destruct (decide (x = x00)) as [->|Hx]; [done|].
    split; [|done]. intros E. exfalso.
    apply Hx, Z_of_byte_inj. change (Z_of_byte x00) with 0. lia.
  - destruct (decide (x = y)) as [->|Hxy].
    + destruct (decide (y = x00)) as [->|Hy]; [done|].
      rewrite IH. simpl. split; [by intros ->|by intros [= ->]].
    + split.
      * intros E. exfalso. apply Hxy, Z_of_byte_inj. lia.
      * destruct (decide (x = x00)) as [->|Hx],
          (decide (y = x00)) as [->|Hy]; simpl; try done. by intros [= ->].
Qed.

Lemma strcmp_opp (a b : bytes) : strcmp b a = - strcmp a b.
Proof.
  revert b. induction a as [|x a IH]; intros [|y b]; simpl; try lia.
  destruct (decide (x = y)) as [->|Hxy].
  - rewrite decide_True by done.
    destruct (decide (y = x00)); [done|apply IH].
  - rewrite decide_False by congruence. lia.
Qed.

(** X11.  On two strings that are not NULL, [compare] is [strcmp]: it
    returns zero exactly when the two strings have the same bytes in
    front of their first NUL, and exchanging the operands changes the
    sign of the result. *)
Theorem string_compare_equal (a b : bytes) :
  (compare float float_sub gt_minus_eps lt_eps gt_zero lt_zero
      (StringValue a false) (StringValue b false) = Some 0 <->
   take (strlen a) a = take (strlen b) b) /\
  (forall r,
     compare float float_sub gt_minus_eps lt_eps gt_zero lt_zero
      (StringValue a false) (StringValue b false) = Some r ->
     compare float float_sub gt_minus_eps lt_eps gt_zero lt_zero
      (StringValue b false) (StringValue a false) = Some (- r)).
Proof.
  simpl. split.
  - rewrite <- strcmp_zero. split; [by intros [= ->]|by intros ->].
  - intros r [= <-]. by rewrite strcmp_opp.
Qed.

End CompareOrder.

Lemma int_compare_orders_witness :
  exists r,
    compare Z Z.sub (fun r => (-1 <? r)%Z) (fun r => (r <? 1)%Z)
      (fun r => (0 <? r)%Z) (fun r => (r <? 0)%Z)
      (IntValue 3 false) (IntValue 5 false) = Some r /\
    (r < 0 <-> 3 < 5)%Z /\ (r = 0 <-> 3 = 5)%Z /\ (0 < r <-> 5 < 3)%Z.
Proof.
  apply (int_compare_orders Z.sub (fun r => (-1 <? r)%Z)
           (fun r => (r <? 1)%Z) (fun r => (0 <? r)%Z) (fun r => (r <? 0)%Z)
           3 5).
  unfold INT_MAX. lia.
Defined.

Lemma int_compare_wraps_witness :
  exists r,
    compare Z Z.sub (fun r => (-1 <? r)%Z) (fun r => (r <? 1)%Z)
      (fun r => (0 <? r)%Z) (fun r => (r <? 0)%Z)
      (IntValue 2147483647 false) (IntValue (-1) false) = Some r /\
    (r < 0)%Z /\ (-1 < 2147483647)%Z.
Proof.
  apply (int_compare_wraps Z.sub (fun r => (-1 <? r)%Z)
           (fun r => (r <? 1)%Z) (fun r => (0 <? r)%Z) (fun r => (r <? 0)%Z)
           2147483647 (-1)); unfold INT_MAX; lia.
Defined.

Section FloatToString.

Lemma digit_not_zero_point c :
  Parse.is_digit c = true -> Ascii.eqb c "." = false.
Proof.
  destruct c as [[] [] [] [] [] [] [] []]; vm_compute; congruence.
Qed.

Lemma nth_app_0 (l : list ascii) (c : ascii) (r : list ascii) (d : ascii) :
  nth (length l) (l ++ c :: r) d = c.
Proof. rewrite app_nth2 by lia. by rewrite Nat.sub_diag. Qed.

(** X12.  [FloatValue::to_string] on what ["%.2f"] writes, an integer
    part, the point and two digits: zeros at the end of the fraction are
    dropped, the point goes with them when the fraction is 00, and the
    integer part is never touched. *)
Theorem float_to_string_strips_fraction (ip : list ascii) (d1 d2 : ascii) :
  Parse.is_digit d1 = true -> Parse.is_digit d2 = true ->
  float_to_string (ip ++ "."%char :: [d1; d2]) =
  Some (if negb (Ascii.eqb d2 "0") then ip ++ "."%char :: [d1; d2]
        else if negb (Ascii.eqb d1 "0") then ip ++ "."%char :: [d1]
        else ip).
Proof.
  intros H1 H2. unfold float_to_string.
  pose proof (digit_not_zero_point _ H1) as P1.
  pose proof (digit_not_zero_point _ H2) as P2.
  rewrite length_app. cbn [length].
  replace (length ip + 3)%nat with (S (S (S (length ip)))) by lia.
  assert (N2 : forall d, nth (S (S (length ip))) (ip ++ "."%char :: [d1; d2]) d
                         = d2).
  { intros d. by rewrite (app_nth2 ip) by lia;
      replace (S (S (length ip)) - length ip)%nat with 2%nat by lia. }
  assert (N1 : forall d, nth (S (length ip)) (ip ++ "."%char :: [d1; d2]) d
                         = d1).
  { intros d. by rewrite (app_nth2 ip) by lia;
      replace (S (length ip) - length ip)%nat with 1%nat by lia. }
  assert (N0 : forall d, nth (length ip) (ip ++ "."%char :: [d1; d2]) d
                         = "."%char) by (intros d; apply nth_app_0).
  cbn [to_string_end]. rewrite N2.
  destruct (Ascii.eqb d2 "0") eqn:Z2; cbn [negb].
  - rewrite N1. destruct (Ascii.eqb d1 "0") eqn:Z1; cbn [negb].
    + rewrite N0. cbn [Ascii.eqb Bool.eqb]. rewrite N0.
      cbn [Ascii.eqb Bool.eqb]. by rewrite take_app_length.
    + rewrite N1, P1. f_equal.
      replace (S (S (length ip))) with (length (ip ++ "."%char :: [d1]))
        by (rewrite length_app; simpl; lia).
      change (ip ++ "."%char :: [d1; d2])
        with (ip ++ ("."%char :: [d1]) ++ [d2]).
      rewrite app_assoc. by rewrite take_app_length.
  - rewrite N2, P2. f_equal.
    replace (S (S (S (length ip))))
      with (length (ip ++ "."%char :: [d1; d2]))
      by (rewrite length_app; simpl; lia).
    by rewrite firstn_all.
Qed.

Lemma float_to_string_strips_fraction_witness :
  float_to_string (Parse.chars_of "100" ++ "."%char :: ["5"%char; "0"%char]) =
  Some (if negb (Ascii.eqb "0" "0")
        then Parse.chars_of "100" ++ "."%char :: ["5"%char; "0"%char]
        else if negb (Ascii.eqb "5" "0")
             then Parse.chars_of "100" ++ "."%char :: ["5"%char]
             else Parse.chars_of "100").
Proof.
  apply (float_to_string_strips_fraction (Parse.chars_of "100") "5" "0");
    reflexivity.
Defined.

End FloatToString.

(* ===================================================================== *)
(** * table.cpp: updates, commits and the indexes                         *)
(* ===================================================================== *)

Section UpdateAndIndexes.

Implicit Types (tb : Table.t) (trx : option Trx.t).

(** Without an index that has the name of the attribute, [update_record]
    does not touch the index list. *)
Lemma update_record_indexes_untouched tb trx record attribute_name value :
  Table.find_index tb attribute_name = None ->
  Table.indexes_ (Table.update_record tb trx record attribute_name value).1.1.2
  = Table.indexes_ tb.
Proof.
  intros Hf. unfold Table.update_record. rewrite Hf.
  repeat (case_match; simplify_eq/=); done.
Qed.

Lemma index_agrees_entry h idx r d :
  index_agrees h idx -> h !! r = Some d ->
  (Index.key_of idx d, r) ∈ Index.entries idx.
Proof.
  unfold index_agrees. intros -> Hr.
  apply elem_of_map_to_set. eauto.
Qed.

Lemma index_agrees_key h idx k r :
  index_agrees h idx -> (k, r) ∈ Index.entries idx ->
  exists d, h !! r = Some d /\ k = Index.key_of idx d.
Proof.
  unfold index_agrees. intros -> Hk.
  apply elem_of_map_to_set in Hk as (i & x & Hi & E). simplify_eq. eauto.
Qed.

(** X13.  [update_record] looks for the index of the column under the
    name of the column.  When no index has that name, the index list
    stays as it is; an index that agreed with the heap, under another
    name, no longer does once the update has changed the key of the
    record. *)
Theorem update_leaves_other_named_index_stale tb trx r d attribute_name
    value idx :
  Table.find_index tb attribute_name = None ->
  idx ∈ Table.indexes_ tb ->
  index_agrees (slots_of tb) idx ->
  slots_of tb !! r = Some d ->
  let res := Table.update_record tb trx (mkRec r d) attribute_name value in
  res.1.1.1 = SUCCESS ->
  Index.key_of idx (data res.2) <> Index.key_of idx d ->
  Table.indexes_ res.1.1.2 = Table.indexes_ tb /\
  ~ index_agrees (slots_of res.1.1.2) idx.
Proof.
  intros Hf Hin Hag Hr res Hrc Hkey. subst res.
  split; [by apply update_record_indexes_untouched|].
  destruct (update_record_outcome tb trx r d attribute_name value)
    as (_ & _ & Hok).
  destruct (Hok Hrc) as (_ & _ & _ & Hh & Hrec). clear Hok.
  rewrite Hrec in Hkey. cbn [data] in Hkey.
  intros Hag'. rewrite Hh in Hag'.
  pose proof (index_agrees_entry _ _ _ _ Hag Hr) as He.
  apply (index_agrees_key _ _ _ _ Hag') in He as (d' & Hd' & E).
  rewrite lookup_insert_eq in Hd'. by simplify_eq.
Qed.

Lemma one_row_slots :
  slots_of Scenario.one_row
  = {[ Scenario.rid1 := data (Scenario.record_at Scenario.one_row Scenario.rid1) ]}.
Proof. vm_compute. reflexivity. Qed.

Lemma indexed_agrees name :
  index_agrees (slots_of (Scenario.indexed name))
    (Scenario.index_on_a name {[ (int_to_bytes 1, Scenario.rid1) ]} false).
Proof.
  unfold index_agrees. cbn [Scenario.indexed Table.with_indexes
    Table.record_handler_]. rewrite one_row_slots.
  rewrite <- insert_empty, map_to_set_insert_L, map_to_set_empty
    by apply lookup_empty.
  rewrite union_empty_r_L. reflexivity.
Qed.

Lemma update_leaves_other_named_index_stale_witness :
  let tb := Scenario.indexed "idx_a" in
  let idx := Scenario.index_on_a "idx_a" {[ (int_to_bytes 1, Scenario.rid1) ]}
               false in
  let res := Table.update_record tb None
               (Scenario.record_at tb Scenario.rid1) "a"
               (Parse.value_init_integer 5 false) in
  Table.indexes_ res.1.1.2 = Table.indexes_ tb /\
  ~ index_agrees (slots_of res.1.1.2) idx.
Proof.
  apply (update_leaves_other_named_index_stale (Scenario.indexed "idx_a")
           None Scenario.rid1
           (data (Scenario.record_at Scenario.one_row Scenario.rid1)) "a"
           (Parse.value_init_integer 5 false)).
  - reflexivity.
  - apply list_elem_of_here.
  - apply indexed_agrees.
  - reflexivity.
  - reflexivity.
  - vm_compute. discriminate.
Defined.

(** X14.  [update_record] takes the entry of the record out of the index
    before it checks the value.  An update with a value that is not legal
    for the column returns the code of the check and leaves the heap as
    it is, but the index under the name of the column has lost the entry
    of the record. *)
Theorem rejected_update_loses_index_entry tb trx r d attribute_name value
    k idx :
  let m := Table.table_meta_ tb in
  let i := TableMeta.find_field_index_by_name m attribute_name in
  i <> (-1)%Z ->
  Table.is_legal value (TableMeta.field m (Z.to_nat i)) <> SUCCESS ->
  Table.find_index tb attribute_name = Some k ->
  Table.indexes_ tb !! k = Some idx ->
  Index.delete_fault idx = false ->
  (Index.key_of idx d, r) ∈ Index.entries idx ->
  let res := Table.update_record tb trx (mkRec r d) attribute_name value in
  res.1.1.1 = Table.is_legal value (TableMeta.field m (Z.to_nat i)) /\
  Table.record_handler_ res.1.1.2 = Table.record_handler_ tb /\
  exists idx', Table.indexes_ res.1.1.2 !! k = Some idx' /\
    (Index.key_of idx d, r) ∉ Index.entries idx'.
Proof.
  intros m i Hi Hleg Hf Hk Hfault Hin res. subst res.
  unfold Table.update_record. fold m i.
  destruct (Z.eqb_spec i (-1)) as [|_]; [done|].
  cbn [fst snd]. rewrite bool_decide_eq_false_2 by (by intros ?).
  rewrite Hf, Hk. cbn [rid data].
  unfold Index.delete_entry. rewrite Hfault, decide_True by done.
  rewrite bool_decide_eq_false_2 by (by intros ?).
  rewrite bool_decide_eq_true_2 by done. cbn.
  repeat split.
  eexists. split.
  - apply list_lookup_insert_eq. by apply lookup_lt_Some in Hk.
  - cbn. rewrite elem_of_difference, elem_of_singleton. by intros [_ ?].
Qed.

Lemma rejected_update_loses_index_entry_witness :
  let tb := Scenario.indexed "a" in
  let res := Table.update_record tb None
               (Scenario.record_at tb Scenario.rid1) "a"
               (Parse.value_init_string "five" false) in
  res.1.1.1 = Table.is_legal (Parse.value_init_string "five" false)
                (TableMeta.field Scenario.meta 1) /\
  Table.record_handler_ res.1.1.2 = Table.record_handler_ tb /\
  exists idx', Table.indexes_ res.1.1.2 !! 0%nat = Some idx' /\
    (int_to_bytes 1, Scenario.rid1) ∉ Index.entries idx'.
Proof.
  apply (rejected_update_loses_index_entry (Scenario.indexed "a") None
           Scenario.rid1
           (data (Scenario.record_at Scenario.one_row Scenario.rid1)) "a"
           (Parse.value_init_string "five" false) 0
           (Scenario.index_on_a "a" {[ (int_to_bytes 1, Scenario.rid1) ]}
              false)).
  - vm_compute. discriminate.
  - vm_compute. discriminate.
  - reflexivity.
  - reflexivity.
  - reflexivity.
  - vm_compute. reflexivity.
Defined.

End UpdateAndIndexes.

Section Commits.

Implicit Types (tb : Table.t).

(** X15.  [commit_delete] drops the code of the index deletion: for a
    live record it returns SUCCESS and takes the record out of the heap
    whatever the indexes did, and when the first index refuses the
    deletion, every index keeps its entries, also those of the record
    that is gone. *)
Theorem commit_delete_ignores_index_failure tb r d :
  slots_of tb !! r = Some d ->
  (Table.commit_delete tb r).1 = SUCCESS /\
  slots_of (Table.commit_delete tb r).2 = delete r (slots_of tb) /\
  (forall idx rest,
     Table.indexes_ tb = idx :: rest -> Index.delete_fault idx = true ->
     Table.indexes_ (Table.commit_delete tb r).2 = Table.indexes_ tb).
Proof.
  intros Hr. unfold Table.commit_delete, RecordFileHandler.get_record,
    RecordFileHandler.delete_record. rewrite Hr.
  rewrite bool_decide_eq_false_2 by (by intros ?). cbn [rid data].
  destruct (Table.delete_entry_of_indexes _ _ _ _) as [rc idx'] eqn:Hdel.
  cbn. repeat split.
  intros idx rest Hl Hfault. rewrite Hl in Hdel |- *.
  unfold Table.delete_entry_of_indexes in Hdel. cbn in Hdel.
  unfold Index.delete_entry in Hdel. rewrite Hfault in Hdel. cbn in Hdel.
  rewrite !bool_decide_eq_true_2 in Hdel by done. cbn in Hdel.
  by simplify_eq.
Qed.

(** The row of the scenario behind an index on [a] whose file fails on
    deletion. *)
Lemma commit_delete_ignores_index_failure_witness :
  let bad :=
    Index.mk (IndexMeta.mk "idx_a" "a") (TableMeta.field Scenario.meta 1)
      {[ (int_to_bytes 1, Scenario.rid1) ]} false true in
  let tb := Table.with_indexes Scenario.one_row [bad] in
  (Table.commit_delete tb Scenario.rid1).1 = SUCCESS /\
  slots_of (Table.commit_delete tb Scenario.rid1).2
  = delete Scenario.rid1 (slots_of tb) /\
  (forall idx rest,
     Table.indexes_ tb = idx :: rest -> Index.delete_fault idx = true ->
     Table.indexes_ (Table.commit_delete tb Scenario.rid1).2
     = Table.indexes_ tb).
Proof.
  intros bad tb.
  apply (commit_delete_ignores_index_failure tb Scenario.rid1
           (data (Scenario.record_at Scenario.one_row Scenario.rid1))).
  reflexivity.
Defined.

(** There the commit returns SUCCESS, the heap is empty afterwards, and
    the index still holds the entry of the record that is gone. *)
Example commit_delete_leaves_dangling_entry :
  let bad :=
    Index.mk (IndexMeta.mk "idx_a" "a") (TableMeta.field Scenario.meta 1)
      {[ (int_to_bytes 1, Scenario.rid1) ]} false true in
  let tb := Table.with_indexes Scenario.one_row [bad] in
  (Table.commit_delete tb Scenario.rid1).1 = SUCCESS /\
  slots_of (Table.commit_delete tb Scenario.rid1).2 !! Scenario.rid1 = None /\
  Table.indexes_ (Table.commit_delete tb Scenario.rid1).2 = [bad].
Proof. repeat split; vm_compute; reflexivity. Qed.

Lemma strcpy_lookup_behind dst src j :
  (strlen src < j)%nat -> strcpy dst src !! j = dst !! j.
Proof.
  intros Hj. unfold strcpy. apply list_lookup_inserts_ge.
  rewrite length_app, length_take. simpl. lia.
Qed.

Lemma length_strcpy dst src : length (strcpy dst src) = length dst.
Proof. unfold strcpy. apply length_inserts. Qed.

Lemma commit_update_success tb r new_record_data :
  (Table.commit_update tb r new_record_data).1 = SUCCESS ->
  exists d, slots_of tb !! r = Some d /\
    slots_of (Table.commit_update tb r new_record_data).2
    = <[r := strcpy d new_record_data]> (slots_of tb).
Proof.
  unfold Table.commit_update, RecordFileHandler.get_record.
  destruct (slots_of tb !! r) as [d|] eqn:Hr; [|by cbn].
  rewrite bool_decide_eq_false_2 by (by intros ?). cbn [rid data].
  destruct (Table.delete_entry_of_indexes _ _ _ _) as [rc1 idx1].
  case_bool_decide as H1; [cbn; congruence|].
  unfold RecordFileHandler.update_record. cbn [rid data]. rewrite Hr.
  rewrite bool_decide_eq_false_2 by (by intros ?).
  destruct (Table.insert_entry_of_indexes _ _ _) as [rc2 idx2].
  case_bool_decide as H2.
  - destruct (Table.delete_entry_of_indexes _ _ _ _) as [rc3 idx3].
    destruct (RecordFileHandler.delete_record _ _) as [rc4 h4].
    cbn. congruence.
  - cbn. eauto.
Qed.

(** X16.  [commit_update] copies the new bytes with [strcpy]: after a
    commit that succeeded, the record has its old length, and every byte
    behind the place of the first NUL of the new bytes is the old
    byte. *)
Theorem commit_update_stops_at_first_nul tb r new_record_data :
  (Table.commit_update tb r new_record_data).1 = SUCCESS ->
  exists d d',
    slots_of tb !! r = Some d /\
    slots_of (Table.commit_update tb r new_record_data).2 !! r = Some d' /\
    length d' = length d /\
    forall j, (strlen new_record_data < j)%nat -> d' !! j = d !! j.
Proof.
  intros Hrc. destruct (commit_update_success tb r _ Hrc) as (d & Hr & Hh).
  exists d, (strcpy d new_record_data). rewrite Hh, lookup_insert_eq.
  repeat split; [done|apply length_strcpy|].
  intros j Hj. by apply strcpy_lookup_behind.
Qed.

Lemma commit_update_stops_at_first_nul_witness :
  exists d d',
    slots_of Scenario.one_row !! Scenario.rid1 = Some d /\
    slots_of (Table.commit_update Scenario.one_row Scenario.rid1
                (replicate 4 x00 ++ int_to_bytes 9 ++ Parse.strdup "bar")).2
      !! Scenario.rid1 = Some d' /\
    length d' = length d /\
    forall j,
      (strlen (replicate 4 x00 ++ int_to_bytes 9 ++ Parse.strdup "bar") < j)%nat ->
      d' !! j = d !! j.
Proof.
  apply (commit_update_stops_at_first_nul Scenario.one_row Scenario.rid1
           (replicate 4 x00 ++ int_to_bytes 9 ++ Parse.strdup "bar")).
  reflexivity.
Defined.

(** The new bytes of the scenario start with the four NUL bytes of the
    transaction header: the commit changes nothing but the first byte of
    the record, and column [a] is still 1 and not 9. *)
Example commit_update_keeps_old_columns :
  Scenario.column_b
    (Table.commit_update Scenario.one_row Scenario.rid1
       (replicate 4 x00 ++ int_to_bytes 9 ++ Parse.strdup "bar")).2
    Scenario.rid1
  = Parse.strdup "foo" /\
  field_bytes (TableMeta.field Scenario.meta 1)
    (data (Scenario.record_at
             (Table.commit_update Scenario.one_row Scenario.rid1
                (replicate 4 x00 ++ int_to_bytes 9 ++ Parse.strdup "bar")).2
             Scenario.rid1))
  = int_to_bytes 1.
Proof. split; vm_compute; reflexivity. Qed.

End Commits.

Section Compensation.

Implicit Types (idx : Index.t) (l : list Index.t).

Lemma delete_entry_cleared idx record r rc idx' :
  Index.delete_fault idx = false ->
  Index.delete_entry idx record r = (rc, idx') ->
  (rc = SUCCESS \/ rc = RECORD_INVALID_KEY) /\
  Index.entries idx'
  = Index.entries idx ∖ {[ (Index.key_of idx record, r) ]} /\
  Index.field_meta idx' = Index.field_meta idx /\
  Index.delete_fault idx' = false.
Proof.
  unfold Index.delete_entry. intros Hf. rewrite Hf.
  destruct (decide _) as [Hin|Hin]; intros [= <- <-]; cbn.
  - auto.
  - split; [auto|]. split; [|done]. apply set_eq. intros e.
    rewrite elem_of_difference, elem_of_singleton. split; [|by intros []].
    intros He. split; [done|]. by intros ->.
Qed.

Lemma delete_entry_loop_clears rc0 l record r rc l' :
  deletes_work_in l ->
  Table.delete_entry_loop rc0 l record r true = (rc, l') ->
  Forall2
    (fun idx idx' =>
       Index.entries idx'
       = Index.entries idx ∖ {[ (Index.key_of idx record, r) ]} /\
       Index.field_meta idx' = Index.field_meta idx)
    l l'.
Proof.
  revert rc0 rc l'. induction l as [|idx l IH]; intros rc0 rc l' Hd;
    cbn [Table.delete_entry_loop].
  - intros [= _ <-]. constructor.
  - destruct (Index.delete_entry idx record r) as [rc1 idx1] eqn:Hdel.
    destruct (delete_entry_cleared idx record r rc1 idx1) as (Hrc & He & Hfm & _);
      [apply Hd, list_elem_of_here|done|].
    assert ((bool_decide (rc1 <> SUCCESS) &&
             (bool_decide (rc1 <> RECORD_INVALID_KEY) || negb true)) = false)
      as ->.
    { destruct Hrc as [-> | ->]; [by rewrite bool_decide_eq_false_2 by (by intros ?)|].
      rewrite (bool_decide_eq_false_2 (RECORD_INVALID_KEY <> RECORD_INVALID_KEY))
        by (by intros ?). by rewrite andb_false_r. }
    destruct (Table.delete_entry_loop rc1 l record r true) as [rc' rest'] eqn:Hrest.
    intros [= <- <-]. constructor; [done|].
    apply (IH rc1 rc' rest'); [|done].
    intros i Hi. apply Hd. by apply elem_of_cons; right.
Qed.

(** Without the flag the loop goes on as long as the deletions succeed
    and stops at the first index that does not have the entry: the
    indexes in front of it have lost their entry by then. *)
Lemma delete_entry_loop_stops rc0 pre idx rest record r :
  deletes_work_in (pre ++ idx :: rest) ->
  Forall (fun i => (Index.key_of i record, r) ∈ Index.entries i) pre ->
  (Index.key_of idx record, r) ∉ Index.entries idx ->
  Table.delete_entry_loop rc0 (pre ++ idx :: rest) record r false
  = (RECORD_INVALID_KEY,
     map (fun i =>
            Index.with_entries i
              (Index.entries i ∖ {[ (Index.key_of i record, r) ]})) pre
     ++ idx :: rest).
Proof.
  revert rc0. induction pre as [|i pre IH]; intros rc0 Hd Hin Hn;
    cbn [app map Table.delete_entry_loop].
  - rewrite delete_entry_absent; [|apply Hd, list_elem_of_here|done].
    by rewrite !bool_decide_eq_true_2 by done.
  - apply Forall_cons in Hin as [Hi Hin].
    unfold Index.delete_entry at 1.
    rewrite (Hd i) by apply list_elem_of_here.
    rewrite decide_True by done.
    rewrite (bool_decide_eq_false_2 (SUCCESS <> SUCCESS)) by (by intros ?).
    cbn [andb].
    rewrite (IH SUCCESS); [done| |done|done].
    intros j Hj. apply Hd. by apply elem_of_cons; right.
Qed.

(** X17.  [delete_entry_of_indexes] with [error_on_not_exists] set, as
    the compensations call it, goes through all indexes also when some
    do not have the entry: where no index refuses a deletion, afterwards
    every index is without the entry of the record and has kept its
    other entries.  Without the flag the loop stops at the first index
    that does not have the entry, with RECORD_INVALID_KEY: that index
    and the ones behind it are as they were, and the indexes in front of
    it have lost their entry of the record all the same. *)
Theorem compensation_clears_every_index l record r :
  deletes_work_in l ->
  Forall2
    (fun idx idx' =>
       Index.entries idx'
       = Index.entries idx ∖ {[ (Index.key_of idx record, r) ]} /\
       (Index.key_of idx' record, r) ∉ Index.entries idx')
    l (Table.delete_entry_of_indexes l record r true).2 /\
  (forall pre idx rest,
     l = pre ++ idx :: rest ->
     Forall (fun i => (Index.key_of i record, r) ∈ Index.entries i) pre ->
     (Index.key_of idx record, r) ∉ Index.entries idx ->
     Table.delete_entry_of_indexes l record r false
     = (RECORD_INVALID_KEY,
        map (fun i =>
               Index.with_entries i
                 (Index.entries i ∖ {[ (Index.key_of i record, r) ]})) pre
        ++ idx :: rest)).
Proof.
  intros Hd. split.
  - unfold Table.delete_entry_of_indexes.
    destruct (Table.delete_entry_loop SUCCESS l record r true) as [rc l'] eqn:E.
    apply delete_entry_loop_clears in E; [|done]. cbn [snd].
    eapply Forall2_impl; [exact E|].
    intros idx idx' [He Hfm]. split; [done|].
    unfold Index.key_of. rewrite He, Hfm.
    rewrite elem_of_difference, elem_of_singleton. by intros [_ ?].
  - intros pre idx rest -> Hin Hn. unfold Table.delete_entry_of_indexes.
    by apply delete_entry_loop_stops.
Qed.

(** The index [i2] holds the entry of the row and comes first, the index
    [i1] does not hold it. *)
Lemma compensation_clears_every_index_witness :
  let l := [Scenario.index_on_a "i2" {[ (int_to_bytes 1, Scenario.rid1) ]}
              false;
            Scenario.index_on_a "i1" ∅ false] in
  let record := data (Scenario.record_at Scenario.one_row Scenario.rid1) in
  Forall2
    (fun idx idx' =>
       Index.entries idx'
       = Index.entries idx ∖ {[ (Index.key_of idx record, Scenario.rid1) ]} /\
       (Index.key_of idx' record, Scenario.rid1) ∉ Index.entries idx')
    l (Table.delete_entry_of_indexes l record Scenario.rid1 true).2 /\
  (forall pre idx rest,
     l = pre ++ idx :: rest ->
     Forall (fun i => (Index.key_of i record, Scenario.rid1)
                      ∈ Index.entries i) pre ->
     (Index.key_of idx record, Scenario.rid1) ∉ Index.entries idx ->
     Table.delete_entry_of_indexes l record Scenario.rid1 false
     = (RECORD_INVALID_KEY,
        map (fun i =>
               Index.with_entries i
                 (Index.entries i
                  ∖ {[ (Index.key_of i record, Scenario.rid1) ]})) pre
        ++ idx :: rest)).
Proof.
  intros l record.
  apply (compensation_clears_every_index l record Scenario.rid1).
  intros idx Hin. apply elem_of_cons in Hin as [->|Hin]; [reflexivity|].
  apply elem_of_cons in Hin as [->|Hin]; [reflexivity|].
  by apply elem_of_nil in Hin.
Defined.

(** There, without the flag, the deletion is refused by [i1] with
    RECORD_INVALID_KEY after [i2] has lost its entry. *)
Example compensation_stops_behind_first_index :
  let i2 := Scenario.index_on_a "i2" {[ (int_to_bytes 1, Scenario.rid1) ]}
              false in
  let i1 := Scenario.index_on_a "i1" ∅ false in
  let record := data (Scenario.record_at Scenario.one_row Scenario.rid1) in
  forall rc l',
    Table.delete_entry_of_indexes [i2; i1] record Scenario.rid1 false
    = (rc, l') ->
    rc = RECORD_INVALID_KEY /\
    exists i2', l' = [i2'; i1] /\ Index.entries i2' = ∅.
Proof.
  intros i2 i1 record rc l'. unfold Table.delete_entry_of_indexes.
  change [i2; i1] with ([i2] ++ [i1]).
  rewrite (delete_entry_loop_stops SUCCESS [i2] i1 [] record Scenario.rid1).
  - intros [= <- <-]. split; [done|]. eexists. split; [reflexivity|].
    cbn [Index.with_entries Index.entries].
    apply set_eq. intros e.
    rewrite elem_of_difference, elem_of_singleton.
    assert (Hk : Index.key_of i2 record = int_to_bytes 1)
      by (vm_compute; reflexivity).
    rewrite Hk. subst i2. cbn [Scenario.index_on_a Index.entries].
    rewrite elem_of_singleton. split; [by intros [? ?]|].
    intros He. by apply elem_of_empty in He.
  - intros idx Hin. apply elem_of_cons in Hin as [->|Hin]; [reflexivity|].
    apply elem_of_cons in Hin as [->|Hin]; [reflexivity|].
    by apply elem_of_nil in Hin.
  - constructor; [|constructor].
    assert (Hk : Index.key_of i2 record = int_to_bytes 1)
      by (vm_compute; reflexivity).
    rewrite Hk. subst i2. cbn [Scenario.index_on_a Index.entries].
    by apply elem_of_singleton.
  - subst i1. cbn [Scenario.index_on_a Index.entries]. apply not_elem_of_empty.
Qed.

End Compensation.

(* ===================================================================== *)
(** * table.cpp: an insert and its undo                                   *)
(* ===================================================================== *)

Section InsertUndo.

Implicit Types (tb : Table.t) (trx : option Trx.t) (idx : Index.t)
  (l : list Index.t).

(** The key of a record is the same in the bytes that reach the heap,
    when the column of the index lies within them. *)
Lemma key_of_read_bytes idx d n :
  (FieldMeta.offset (Index.field_meta idx) +
   FieldMeta.len (Index.field_meta idx) <= length d)%nat ->
  (FieldMeta.offset (Index.field_meta idx) +
   FieldMeta.len (Index.field_meta idx) <= n)%nat ->
  Index.key_of idx (read_bytes d n) = Index.key_of idx d.
Proof.
  intros Hd Hn. unfold Index.key_of, read_bytes.
  set (off := FieldMeta.offset (Index.field_meta idx)) in *.
  set (len := FieldMeta.len (Index.field_meta idx)) in *.
  apply list_eq. intros j.
  destruct (decide (j < len)%nat) as [Hj|Hj].
  - rewrite !lookup_take_lt, !lookup_drop by lia.
    rewrite lookup_take_lt, lookup_app_l by lia. done.
  - rewrite !lookup_take_ge by lia. done.
Qed.

Lemma delete_entry_same_key idx record record' r :
  Index.key_of idx record' = Index.key_of idx record ->
  Index.delete_entry idx record' r = Index.delete_entry idx record r.
Proof. unfold Index.delete_entry. by intros ->. Qed.

Lemma insert_entry_field idx idx' record r rc :
  Index.insert_entry idx record r = (rc, idx') ->
  Index.field_meta idx' = Index.field_meta idx.
Proof.
  unfold Index.insert_entry. destruct (Index.insert_fault idx);
    by intros [= <- <-].
Qed.

(** Deleting the entry of a record from all indexes undoes its insertion
    into all of them. *)
Lemma delete_after_insert l l1 record record' r rc0 :
  deletes_work_in l -> rid_unused r l ->
  (forall idx, idx ∈ l -> Index.key_of idx record' = Index.key_of idx record) ->
  Table.insert_entry_of_indexes l record r = (SUCCESS, l1) ->
  exists rc, Table.delete_entry_loop rc0 l1 record' r false = (rc, l) /\
             (rc0 = SUCCESS -> rc = SUCCESS).
Proof.
  revert l1 rc0. induction l as [|idx l IH]; intros l1 rc0 Hd Hu Hk; simpl.
  - intros [= <-]. simpl. eauto.
  - destruct (Index.insert_entry idx record r) as [rc1 idx'] eqn:Hins.
    case_bool_decide as Hrc1; [intros [= -> _]; done|].
    assert (rc1 = SUCCESS) as -> by (by destruct (decide (rc1 = SUCCESS))).
    destruct (Table.insert_entry_of_indexes l record r) as [rc' l'] eqn:Hrest.
    intros [= -> <-]. simpl.
    assert (Hkey : Index.key_of idx' record' = Index.key_of idx' record).
    { unfold Index.key_of. rewrite (insert_entry_field _ _ _ _ _ Hins).
      apply Hk. set_solver. }
    rewrite (delete_entry_same_key idx' record record' r Hkey).
    rewrite (delete_entry_inserted idx idx' record r);
      [|apply Hd; set_solver|apply Hu; set_solver|done].
    simpl.
    destruct (IH l' SUCCESS) as (rc & -> & Hrc); eauto.
    + intros i Hi. apply Hd. set_solver.
    + intros i k Hi. apply Hu. set_solver.
    + intros i Hi. apply Hk. set_solver.
Qed.

Lemma index_fields_within_list n tb idx :
  index_fields_within n tb = true -> idx ∈ Table.indexes_ tb ->
  (FieldMeta.offset (Index.field_meta idx) +
   FieldMeta.len (Index.field_meta idx) <= n)%nat.
Proof.
  unfold index_fields_within. rewrite forallb_forall. intros Hall Hin.
  apply list_elem_of_In, Hall in Hin. by apply Nat.leb_le.
Qed.

(** What an insert that succeeded has done. *)
Lemma insert_record_success tb trx record :
  let m := Table.table_meta_ tb in
  let stamped :=
    match trx with
    | Some x => Trx.init_trx_info x m (data record)
    | None => data record
    end in
  let size := (TableMeta.record_size m + TableMeta.field_num m)%nat in
  let r := RecordFileHandler.free_slot (Table.record_handler_ tb) in
  (Table.insert_record tb trx record).1.1.1 = SUCCESS ->
  exists l1,
    Table.insert_entry_of_indexes (Table.indexes_ tb) stamped r
    = (SUCCESS, l1) /\
    (Table.insert_record tb trx record).1.1.2
    = Table.mk m
        (RecordFileHandler.mk
           (RecordFileHandler.record_capacity (Table.record_handler_ tb))
           (<[r := read_bytes stamped size]> (slots_of tb)))
        l1 /\
    (Table.insert_record tb trx record).2 = mkRec r stamped.
Proof.
  intros m stamped size r. unfold Table.insert_record. fold m.
  set (rec1 := match trx with
               | Some x => mkRec (rid record)
                             (Trx.init_trx_info x m (data record))
               | None => record
               end).
  assert (data rec1 = stamped) as Hst by (by destruct trx).
  unfold RecordFileHandler.insert_record. fold size. fold r.
  cbn [rid data]. rewrite Hst.
  rewrite bool_decide_eq_false_2 by (by intros ?).
  destruct (match trx with
            | Some x => let '(rc, x') := Trx.insert_record x _ in (rc, Some x')
            | None => (SUCCESS, None)
            end) as [rc1 trx1].
  case_bool_decide as H1.
  { destruct (RecordFileHandler.delete_record _ _). cbn. congruence. }
  destruct (Table.insert_entry_of_indexes _ _ _) as [rc2 idx] eqn:Hins.
  case_bool_decide as H2.
  { destruct (Table.delete_entry_of_indexes _ _ _ _).
    destruct (RecordFileHandler.delete_record _ _). cbn. congruence. }
  cbn. intros ->. eauto.
Qed.

Lemma length_init_trx_info x m d :
  length (Trx.init_trx_info x m d) = length d.
Proof. unfold Trx.init_trx_info, Trx.set_record_trx_id. apply length_memcpy. Qed.

(** The heap and the indexes after the undo of an insert that
    succeeded. *)
Lemma undo_of_insert tb trx record :
  index_rids_live tb = true ->
  deletes_work tb = true ->
  index_fields_within (length (data record)) tb = true ->
  index_fields_within
    (TableMeta.record_size (Table.table_meta_ tb) +
     TableMeta.field_num (Table.table_meta_ tb)) tb = true ->
  let res := Table.insert_record tb trx record in
  res.1.1.1 = SUCCESS ->
  exists stored,
    RecordFileHandler.get_record (Table.record_handler_ res.1.1.2) (rid res.2)
    = (SUCCESS, mkRec (rid res.2) stored) /\
    Table.table_meta_ res.1.1.2 = Table.table_meta_ tb /\
    Table.delete_entry_of_indexes (Table.indexes_ res.1.1.2) stored
      (rid res.2) false = (SUCCESS, Table.indexes_ tb) /\
    RecordFileHandler.delete_record (Table.record_handler_ res.1.1.2)
      (rid res.2) = (SUCCESS, Table.record_handler_ tb).
Proof.
  intros Hlive Hdel Hw1 Hw2 res Hrc. subst res.
  apply index_rids_live_unused in Hlive. apply deletes_work_in_list in Hdel.
  destruct (insert_record_success tb trx record Hrc) as (l1 & Hins & -> & ->).
  set (stamped := match trx with
                  | Some x => Trx.init_trx_info x (Table.table_meta_ tb)
                                (data record)
                  | None => data record
                  end) in *.
  assert (Hlen : length stamped = length (data record)).
  { subst stamped. destruct trx; [apply length_init_trx_info|done]. }
  set (size := (TableMeta.record_size (Table.table_meta_ tb) +
                TableMeta.field_num (Table.table_meta_ tb))%nat) in *.
  set (r := RecordFileHandler.free_slot (Table.record_handler_ tb)) in *.
  exists (read_bytes stamped size). cbn [Table.record_handler_
    Table.indexes_ Table.table_meta_ rid data].
  unfold RecordFileHandler.get_record, RecordFileHandler.delete_record.
  cbn [RecordFileHandler.slots RecordFileHandler.record_capacity].
  rewrite lookup_insert_eq. repeat split.
  - destruct (delete_after_insert (Table.indexes_ tb) l1 stamped
                (read_bytes stamped size) r SUCCESS Hdel Hlive)
      as (rc & Hloop & Hok); [|done|].
    + intros idx Hin. apply key_of_read_bytes.
      * rewrite Hlen. by apply index_fields_within_list with tb.
      * by apply index_fields_within_list with tb.
    + unfold Table.delete_entry_of_indexes. rewrite Hloop. by rewrite Hok.
  - rewrite delete_insert_eq, delete_id by apply free_slot_free.
    by destruct (Table.record_handler_ tb).
Qed.

(** X18.  [rollback_insert] undoes an insert that succeeded: the table
    is again what it was before the insert.  The index entries point to
    live records, no index refuses a deletion, and the columns of the
    indexes lie within the record. *)
Theorem insert_then_rollback_insert tb trx record :
  index_rids_live tb = true ->
  deletes_work tb = true ->
  index_fields_within (length (data record)) tb = true ->
  index_fields_within
    (TableMeta.record_size (Table.table_meta_ tb) +
     TableMeta.field_num (Table.table_meta_ tb)) tb = true ->
  let res := Table.insert_record tb trx record in
  res.1.1.1 = SUCCESS ->
  Table.rollback_insert res.1.1.2 (rid res.2) = (SUCCESS, tb).
Proof.
  intros Hlive Hdel Hw1 Hw2 res Hrc.
  destruct (undo_of_insert tb trx record Hlive Hdel Hw1 Hw2 Hrc)
    as (stored & Hget & Hm & Hidx & Hh).
  fold res in Hget, Hm, Hidx, Hh.
  unfold Table.rollback_insert. rewrite Hget.
  rewrite bool_decide_eq_false_2 by (by intros ?). cbn [data].
  rewrite Hidx. rewrite bool_decide_eq_false_2 by (by intros ?).
  rewrite Hh, Hm. by destruct tb.
Qed.

Lemma insert_then_rollback_insert_witness :
  let tb := Scenario.indexed "idx_a" in
  let res := Table.insert_record tb (Some (Scenario.begin 7))
               (mkRec (mkRID 0 0) (Table.make_record tb Scenario.row2).2) in
  Table.rollback_insert res.1.1.2 (rid res.2) = (SUCCESS, tb).
Proof.
  apply (insert_then_rollback_insert (Scenario.indexed "idx_a")
           (Some (Scenario.begin 7))
           (mkRec (mkRID 0 0)
              (Table.make_record (Scenario.indexed "idx_a") Scenario.row2).2));
    reflexivity.
Defined.

(** X19.  Without a transaction, [delete_record] on the record that an
    insert has just stored gives back the table of before the insert. *)
Theorem insert_then_delete_is_identity tb record :
  index_rids_live tb = true ->
  deletes_work tb = true ->
  index_fields_within (length (data record)) tb = true ->
  index_fields_within
    (TableMeta.record_size (Table.table_meta_ tb) +
     TableMeta.field_num (Table.table_meta_ tb)) tb = true ->
  let res := Table.insert_record tb None record in
  res.1.1.1 = SUCCESS ->
  Table.delete_record res.1.1.2 None
    (RecordFileHandler.get_record (Table.record_handler_ res.1.1.2)
       (rid res.2)).2
  = (SUCCESS, tb, None).
Proof.
  intros Hlive Hdel Hw1 Hw2 res Hrc.
  destruct (undo_of_insert tb None record Hlive Hdel Hw1 Hw2 Hrc)
    as (stored & Hget & Hm & Hidx & Hh).
  fold res in Hget, Hm, Hidx, Hh.
  unfold Table.delete_record. rewrite Hget. cbn [snd rid data].
  rewrite Hidx. rewrite bool_decide_eq_false_2 by (by intros ?).
  rewrite Hh, Hm. by destruct tb.
Qed.

Lemma insert_then_delete_is_identity_witness :
  let tb := Scenario.indexed "idx_a" in
  let res := Table.insert_record tb None
               (mkRec (mkRID 0 0) (Table.make_record tb Scenario.row2).2) in
  Table.delete_record res.1.1.2 None
    (RecordFileHandler.get_record (Table.record_handler_ res.1.1.2)
       (rid res.2)).2
  = (SUCCESS, tb, None).
Proof.
  apply (insert_then_delete_is_identity (Scenario.indexed "idx_a")
           (mkRec (mkRID 0 0)
              (Table.make_record (Scenario.indexed "idx_a") Scenario.row2).2));
    reflexivity.
Defined.

(** What an insertion into all indexes leaves in each of them. *)
Lemma insert_entries_shape l l1 record r :
  Table.insert_entry_of_indexes l record r = (SUCCESS, l1) ->
  Forall2
    (fun idx idx' =>
       idx' = Index.with_entries idx
                ({[ (Index.key_of idx record, r) ]} ∪ Index.entries idx))
    l l1.
Proof.
  revert l1. induction l as [|idx l IH]; intros l1; simpl.
  - intros [= <-]. constructor.
  - unfold Index.insert_entry at 1.
    destruct (Index.insert_fault idx); [by rewrite bool_decide_eq_true_2|].
    rewrite bool_decide_eq_false_2 by (by intros ?).
    destruct (Table.insert_entry_of_indexes l record r) as [rc' l'].
    intros [= -> <-]. constructor; [done|by apply IH].
Qed.

Lemma key_of_with_entries idx es d :
  Index.key_of (Index.with_entries idx es) d = Index.key_of idx d.
Proof. reflexivity. Qed.

Lemma agree_after_insert (h : gmap RID bytes) r stamped stored l l1 :
  h !! r = None ->
  (forall idx, idx ∈ l -> Index.key_of idx stored = Index.key_of idx stamped) ->
  Forall (index_agrees h) l ->
  Forall2
    (fun idx idx' =>
       idx' = Index.with_entries idx
                ({[ (Index.key_of idx stamped, r) ]} ∪ Index.entries idx))
    l l1 ->
  Forall (index_agrees (<[r := stored]> h)) l1.
Proof.
  intros Hr Hk Hag Hshape. induction Hshape as [|idx idx' l l1 -> _ IH];
    [constructor|].
  apply Forall_cons in Hag as [Hag1 Hag].
  constructor.
  - unfold index_agrees in *. apply set_eq. intros [k r'].
    cbn [Index.entries Index.with_entries].
    rewrite elem_of_union, elem_of_singleton, Hag1, !elem_of_map_to_set.
    pose proof (Hk idx (list_elem_of_here _ _)) as Hkey.
    split.
    + intros [[= -> ->]|(i & x & Hi & [= <- <-])].
      * exists r, stored. rewrite lookup_insert_eq, key_of_with_entries.
        split; [done|]. by rewrite Hkey.
      * exists i, x. rewrite key_of_with_entries. split; [|done].
        rewrite lookup_insert_ne; [done|]. intros <-. congruence.
    + intros (i & x & Hi & E). rewrite key_of_with_entries in E.
      injection E as <- <-.
      apply lookup_insert_Some in Hi as [[<- <-]|[Hne Hi]].
      * left. by rewrite Hkey.
      * right. eauto.
  - apply IH; [|done]. intros i Hi. apply Hk. by apply elem_of_cons; right.
Qed.

(** X20.  An insert that succeeded keeps the indexes in agreement with
    the heap: where every index held exactly the keys of the records
    before, it does so after, the key of the new record included.  The
    columns of the indexes lie within the record. *)
Theorem insert_keeps_indexes_in_agreement tb trx record :
  indexes_agree tb ->
  index_fields_within (length (data record)) tb = true ->
  index_fields_within
    (TableMeta.record_size (Table.table_meta_ tb) +
     TableMeta.field_num (Table.table_meta_ tb)) tb = true ->
  (Table.insert_record tb trx record).1.1.1 = SUCCESS ->
  indexes_agree (Table.insert_record tb trx record).1.1.2.
Proof.
  intros Hag Hw1 Hw2 Hrc.
  destruct (insert_record_success tb trx record Hrc) as (l1 & Hins & -> & _).
  set (stamped := match trx with
                  | Some x => Trx.init_trx_info x (Table.table_meta_ tb)
                                (data record)
                  | None => data record
                  end) in *.
  assert (Hlen : length stamped = length (data record)).
  { subst stamped. destruct trx; [apply length_init_trx_info|done]. }
  apply insert_entries_shape in Hins.
  unfold indexes_agree in *.
  cbn [Table.record_handler_ Table.indexes_ RecordFileHandler.slots].
  apply (agree_after_insert _ _ stamped _ (Table.indexes_ tb));
    [apply free_slot_free| |done|done].
  intros idx Hin. apply key_of_read_bytes.
  - rewrite Hlen. by apply index_fields_within_list with tb.
  - by apply index_fields_within_list with tb.
Qed.

Lemma insert_keeps_indexes_in_agreement_witness :
  let tb := Scenario.indexed "idx_a" in
  indexes_agree
    (Table.insert_record tb None
       (mkRec (mkRID 0 0) (Table.make_record tb Scenario.row2).2)).1.1.2.
Proof.
  apply (insert_keeps_indexes_in_agreement (Scenario.indexed "idx_a") None
           (mkRec (mkRID 0 0)
              (Table.make_record (Scenario.indexed "idx_a") Scenario.row2).2)).
  - constructor; [apply indexed_agrees|constructor].
  - reflexivity.
  - reflexivity.
  - reflexivity.
Defined.

End InsertUndo.

(* ===================================================================== *)
(** * table.cpp: what a scan hands over                                   *)
(* ===================================================================== *)

Section ScanFacts.

Variable create_scanner : Index.t -> CompOp -> bytes -> Z -> IndexScanner.

Implicit Types (tb : Table.t) (trx : option Trx.t)
  (filter : option ConditionFilter).

Local Open Scope Z_scope.

Local Ltac nothing_new :=
  cbn; split; [done|]; exists []; rewrite app_nil_r;
  split; [done|split; [cbn [length]; lia|constructor]].

Lemma index_loop_delivers tb trx filter limit scanner count acc :
  let res := Table.scan_record_by_index_loop trx scanner filter limit count
               collect tb acc in
  res.1.2 = tb /\
  (exists new, res.2 = acc ++ new /\
     Z.of_nat (length new) <= Z.max 0 (limit - count) /\
     Forall (matching tb trx filter) new).
Proof.
  revert count acc. induction scanner as [|r scanner IH]; intros count acc;
    cbn [Table.scan_record_by_index_loop].
  - destruct (count <? limit); nothing_new.
  - destruct (Z.ltb_spec count limit) as [Hc|Hc]; [|nothing_new].
    unfold RecordFileHandler.get_record.
    destruct (slots_of tb !! r) as [d|] eqn:Hr; cycle 1.
    { rewrite bool_decide_eq_true_2 by done. nothing_new. }
    rewrite bool_decide_eq_false_2 by (by intros ?).
    destruct (Table.visible tb trx (mkRec r d) && passes filter (mkRec r d))
      eqn:Hvp.
    + cbn [collect]. rewrite bool_decide_eq_false_2 by (by intros ?).
      destruct (IH (count + 1) (acc ++ [mkRec r d])) as (Htb & new & E & Hl & Hall).
      split; [done|]. exists (mkRec r d :: new).
      rewrite E, <- app_assoc. split; [done|split; [cbn [length]; lia|]].
      apply andb_prop in Hvp as [Hv Hp]. by constructor.
    + destruct (IH (count + 1) acc) as (Htb & new & E & Hl & Hall).
      split; [done|]. exists new. split; [done|split; [lia|done]].
Qed.

Lemma heap_loop_delivers tb trx filter limit rids count acc :
  let res := Table.scan_record_heap_loop trx rids filter limit count
               collect tb acc in
  res.1.2 = tb /\
  (exists new, res.2 = acc ++ new /\
     Z.of_nat (length new) <= Z.max 0 (limit - count) /\
     Forall (matching tb trx filter) new).
Proof.
  revert count acc. induction rids as [|r rids IH]; intros count acc;
    cbn [Table.scan_record_heap_loop].
  - nothing_new.
  - destruct (slots_of tb !! r) as [d|] eqn:Hr; [|apply IH].
    destruct (passes filter (mkRec r d)) eqn:Hp; [|apply IH].
    destruct (Z.ltb_spec count limit) as [Hc|Hc]; [|nothing_new].
    destruct (Table.visible tb trx (mkRec r d)) eqn:Hv; [|apply IH].
    cbn [collect]. rewrite bool_decide_eq_false_2 by (by intros ?).
    destruct (IH (count + 1) (acc ++ [mkRec r d])) as (Htb & new & E & Hl & Hall).
    split; [done|]. exists (mkRec r d :: new).
    rewrite E, <- app_assoc. split; [done|split; [cbn [length]; lia|]].
    by constructor.
Qed.

(** X21.  Whatever path a scan takes and whatever the index scanner
    yields, the reader gets at most [limit] records (at most INT_MAX for
    a negative limit, none for the limit 0), each of them a record of the
    heap that the transaction sees and that passes the filter; a reader
    that only collects leaves the table as it is. *)
Theorem scan_delivers_matching_up_to_limit tb trx filter (limit : Z) :
  let res := Table.scan_record create_scanner tb trx filter limit []
               (Some collect) in
  res.1.2 = tb /\
  Z.of_nat (length res.2) <= (if limit <? 0 then INT_MAX else limit) /\
  Forall (matching tb trx filter) res.2.
Proof.
  unfold Table.scan_record.
  destruct (Z.eqb_spec limit 0) as [->|Hne].
  { cbn. split; [done|split; [done|constructor]]. }
  set (lim := if limit <? 0 then INT_MAX else limit).
  assert (Hlim : Z.max 0 (lim - 0) = lim).
  { subst lim. unfold INT_MAX. destruct (Z.ltb_spec limit 0); lia. }
  destruct (Table.find_index_for_scan create_scanner tb filter) as [sc|].
  - unfold Table.scan_record_by_index.
    destruct (index_loop_delivers tb trx filter lim sc 0 [])
      as (Htb & new & E & Hl & Hall).
    cbn zeta. rewrite E, Htb. simpl. rewrite Hlim in Hl. auto.
  - destruct (heap_loop_delivers tb trx filter lim
                (RecordFileHandler.scan_order (Table.record_handler_ tb)) 0 [])
      as (Htb & new & E & Hl & Hall).
    cbn zeta. rewrite E, Htb. simpl. rewrite Hlim in Hl. auto.
Qed.

Lemma omap_delivered_all tb rids :
  Forall (fun r => is_Some (slots_of tb !! r)) rids ->
  rid <$> omap (delivered tb None None) rids = rids /\
  Forall (fun rec => slots_of tb !! rid rec = Some (data rec))
    (omap (delivered tb None None) rids).
Proof.
  induction 1 as [|r rids [d Hd] _ [IH1 IH2]]; [done|].
  assert (delivered tb None None r = Some (mkRec r d)) as E
    by (unfold delivered; by rewrite Hd).
  rewrite omap_cons_match, E, fmap_cons, IH1. split; [done|]. by constructor.
Qed.

(** X22.  A scan without transaction, without filter and with a negative
    limit hands every record of the heap to the reader, once, in the
    order of the addresses (page by page, slot by slot); the heap has at
    most INT_MAX records. *)
Theorem full_scan_delivers_every_record tb :
  Z.of_nat (size (slots_of tb)) <= INT_MAX ->
  let res := Table.scan_record create_scanner tb None None (-1) []
               (Some collect) in
  res.1.1 = SUCCESS /\
  Forall (fun rec => slots_of tb !! rid rec = Some (data rec)) res.2 /\
  (forall r, r ∈ rid <$> res.2 <-> is_Some (slots_of tb !! r)) /\
  NoDup (rid <$> res.2) /\
  Sorted RID_le (rid <$> res.2).
Proof.
  intros Hsize res. subst res. unfold Table.scan_record.
  cbn [Table.find_index_for_scan Z.eqb Z.ltb Z.compare].
  rewrite heap_path_collects by (rewrite scan_order_length; lia).
  cbn [fst snd app].
  destruct (omap_delivered_all tb
              (RecordFileHandler.scan_order (Table.record_handler_ tb)))
    as [Hr Hall].
  { apply Forall_forall. intros r. apply scan_order_elem. }
  rewrite Hr. repeat split; try done.
  - by apply scan_order_elem.
  - by apply scan_order_elem.
  - apply scan_order_NoDup.
  - apply (Sorted_merge_sort RID_le).
Qed.

End ScanFacts.

Lemma full_scan_delivers_every_record_witness :
  let tb := Scenario.two_rows in
  let res := Table.scan_record (fun _ _ _ _ => []) tb None None (-1) []
               (Some collect) in
  res.1.1 = SUCCESS /\
  Forall (fun rec =>
            RecordFileHandler.slots (Table.record_handler_ tb) !! rid rec
            = Some (data rec)) res.2 /\
  (forall r, r ∈ rid <$> res.2 <->
             is_Some (RecordFileHandler.slots (Table.record_handler_ tb) !! r)) /\
  NoDup (rid <$> res.2) /\
  Sorted RID_le (rid <$> res.2).
Proof.
  apply (full_scan_delivers_every_record (fun _ _ _ _ => []) Scenario.two_rows).
  vm_compute. discriminate.
Defined.

(* ===================================================================== *)
(** * table.cpp: what [create_index] builds                               *)
(* ===================================================================== *)

Section CreateIndexRun.

Variable create_scanner : Index.t -> CompOp -> bytes -> Z -> IndexScanner.

Implicit Types (tb : Table.t) (trx : option Trx.t).

Lemma fill_index_entries tb trx limit rids count index :
  Index.insert_fault index = false ->
  (count + Z.of_nat (length rids) <= limit)%Z ->
  exists index',
    Table.scan_record_heap_loop trx rids None limit count
      Table.insert_index_record_reader_adapter tb index
    = (SUCCESS, tb, index') /\
    Index.index_meta index' = Index.index_meta index /\
    Index.field_meta index' = Index.field_meta index /\
    forall e,
      e ∈ Index.entries index' <->
      e ∈ Index.entries index \/
      exists r d, r ∈ rids /\ slots_of tb !! r = Some d /\
                  Table.visible tb trx (mkRec r d) = true /\
                  e = (Index.key_of index d, r).
Proof.
  revert count index. induction rids as [|r rids IH]; intros count index Hf Hl.
  - exists index. cbn. repeat split; auto.
    intros [?|(r & d & Hr & _)]; [done|]. by apply elem_of_nil in Hr.
  - cbn [Table.scan_record_heap_loop length passes] in *.
    destruct (slots_of tb !! r) as [d|] eqn:Hr; cycle 1.
    { destruct (IH count index Hf ltac:(lia)) as (i' & -> & Hm & Hfm & He).
      exists i'. repeat split; auto.
      - intros H. apply He in H as [?|(r' & d' & Hin & ?)]; [by left|].
        right. exists r', d'. split; [by apply elem_of_cons; right|done].
      - intros [?|(r' & d' & Hin & Hd' & Hv & ->)]; apply He; [by left|].
        apply elem_of_cons in Hin as [->|Hin]; [congruence|].
        right. eauto 6. }
    destruct (Z.ltb_spec count limit) as [Hc|Hc]; [|lia].
    destruct (Table.visible tb trx (mkRec r d)) eqn:Hv; cycle 1.
    { destruct (IH count index Hf ltac:(lia)) as (i' & -> & Hm & Hfm & He).
      exists i'. repeat split; auto.
      - intros H. apply He in H as [?|(r' & d' & Hin & ?)]; [by left|].
        right. exists r', d'. split; [by apply elem_of_cons; right|done].
      - intros [?|(r' & d' & Hin & Hd' & Hv' & ->)]; apply He; [by left|].
        apply elem_of_cons in Hin as [->|Hin]; [congruence|].
        right. eauto 6. }
    unfold Table.insert_index_record_reader_adapter at 1.
    unfold Index.insert_entry. rewrite Hf. cbn [rid data].
    rewrite bool_decide_eq_false_2 by (by intros ?).
    set (index1 := Index.with_entries index _).
    destruct (IH (count + 1)%Z index1 Hf ltac:(lia))
      as (i' & -> & Hm & Hfm & He).
    exists i'. repeat split; auto.
    + intros H. apply He in H as [H|(r' & d' & Hin & ?)].
      * subst index1. cbn in H. apply elem_of_union in H as [H|H]; [|by left].
        apply elem_of_singleton in H as ->. right. exists r, d.
        split; [apply list_elem_of_here|done].
      * right. exists r', d'. split; [by apply elem_of_cons; right|done].
    + intros [H|(r' & d' & Hin & Hd' & Hv' & ->)]; apply He.
      * left. subst index1. cbn. apply elem_of_union. by right.
      * apply elem_of_cons in Hin as [->|Hin].
        -- left. subst index1. cbn. apply elem_of_union. left.
           apply elem_of_singleton. congruence.
        -- right. eauto 6.
Qed.

(** What [create_index] does once the names are accepted, the column is
    found and the index file is there. *)
Lemma create_index_run tb trx index_name attribute_name sys field_meta :
  is_blank index_name = false ->
  is_blank attribute_name = false ->
  Table.is_some (TableMeta.index (Table.table_meta_ tb) index_name) ||
  Table.is_some (TableMeta.find_index_by_field (Table.table_meta_ tb)
                   attribute_name) = false ->
  TableMeta.field_by_name (Table.table_meta_ tb) attribute_name
  = Some field_meta ->
  Table.index_file_created sys = true ->
  (Z.of_nat (size (slots_of tb)) <= INT_MAX)%Z ->
  let im := IndexMeta.mk index_name (FieldMeta.name field_meta) in
  exists idx,
    Index.index_meta idx = im /\
    Index.field_meta idx = field_meta /\
    holds_visible tb trx idx /\
    Table.create_index create_scanner tb trx (Some index_name)
      (Some attribute_name) sys
    = if Table.tmp_file_opened sys && Table.meta_serialized sys &&
         Table.tmp_file_renamed sys
      then (SUCCESS,
            Table.mk (TableMeta.add_index (Table.table_meta_ tb) im).2
              (Table.record_handler_ tb) (Table.indexes_ tb ++ [idx]))
      else (IOERR,
            Table.mk (Table.table_meta_ tb) (Table.record_handler_ tb)
              (Table.indexes_ tb ++ [idx])).
Proof.
  intros Hn Ha Hex Hfield Hfile Hsize im.
  destruct (fill_index_entries tb trx INT_MAX
              (RecordFileHandler.scan_order (Table.record_handler_ tb)) 0
              (Index.create im field_meta) eq_refl)
    as (idx & Hscan & Him & Hfm & He).
  { rewrite scan_order_length. lia. }
  exists idx. split; [done|]. split; [done|]. split.
  - intros k r. rewrite He. cbn [Index.create Index.entries].
    unfold Index.key_of. rewrite Hfm. cbn [Index.create Index.field_meta].
    split.
    + intros [H|(r' & d & _ & Hd & Hv & [= -> ->])]; [by apply elem_of_empty in H|].
      eauto.
    + intros (d & Hd & Hv & ->). right. exists r, d.
      split; [apply scan_order_elem; eauto|done].
  - unfold Table.create_index. rewrite Hn, Ha. cbn [orb]. rewrite Hex, Hfield.
    unfold IndexMeta.init. rewrite Hn.
    rewrite bool_decide_eq_false_2 by (by intros ?).
    rewrite Hfile. cbn [negb]. unfold Table.scan_record.
    cbn [Table.find_index_for_scan].
    change (-1 =? 0)%Z with false. change (-1 <? 0)%Z with true. cbv iota.
    fold im. rewrite Hscan.
    rewrite bool_decide_eq_false_2 by (by intros ?).
    unfold TableMeta.add_index.
    rewrite bool_decide_eq_false_2 by (by intros ?).
    destruct (Table.tmp_file_opened sys), (Table.meta_serialized sys),
      (Table.tmp_file_renamed sys); reflexivity.
Qed.

(** X23.  After a [create_index] that succeeded, the table has one more
    index at the end of its list and the metadata one more entry, the
    heap is as before, and the new index holds exactly the keys of the
    records that the transaction of the call sees, each with the address
    of its record; the heap has at most INT_MAX records. *)
Theorem create_index_indexes_visible_records tb trx index_name
    attribute_name sys :
  (Z.of_nat (size (slots_of tb)) <= INT_MAX)%Z ->
  let res := Table.create_index create_scanner tb trx (Some index_name)
               (Some attribute_name) sys in
  res.1 = SUCCESS ->
  exists idx field_meta,
    TableMeta.field_by_name (Table.table_meta_ tb) attribute_name
    = Some field_meta /\
    Index.index_meta idx = IndexMeta.mk index_name attribute_name /\
    Index.field_meta idx = field_meta /\
    Table.indexes_ res.2 = Table.indexes_ tb ++ [idx] /\
    TableMeta.indexes (Table.table_meta_ res.2)
    = TableMeta.indexes (Table.table_meta_ tb) ++ [Index.index_meta idx] /\
    Table.record_handler_ res.2 = Table.record_handler_ tb /\
    holds_visible tb trx idx.
Proof.
  intros Hsize res Hrc. subst res.
  destruct (is_blank index_name) eqn:Hn;
    [by unfold Table.create_index in Hrc; rewrite Hn in Hrc|].
  destruct (is_blank attribute_name) eqn:Ha;
    [by unfold Table.create_index in Hrc; rewrite Hn, Ha in Hrc|].
  destruct (Table.is_some (TableMeta.index (Table.table_meta_ tb) index_name) ||
            Table.is_some (TableMeta.find_index_by_field (Table.table_meta_ tb)
                             attribute_name)) eqn:Hex;
    [by unfold Table.create_index in Hrc; rewrite Hn, Ha, Hex in Hrc|].
  destruct (TableMeta.field_by_name (Table.table_meta_ tb) attribute_name)
    as [field_meta|] eqn:Hfield;
    [|by unfold Table.create_index in Hrc; rewrite Hn, Ha, Hex, Hfield in Hrc].
  destruct (Table.index_file_created sys) eqn:Hfile; cycle 1.
  { unfold Table.create_index, IndexMeta.init in Hrc.
    rewrite Hn, Ha, Hex, Hfield, Hfile in Hrc. by cbn in Hrc. }
  destruct (create_index_run tb trx index_name attribute_name sys field_meta
              Hn Ha Hex Hfield Hfile Hsize) as (idx & Him & Hfm & He & Hrun).
  rewrite Hrun in Hrc |- *.
  destruct (Table.tmp_file_opened sys && Table.meta_serialized sys &&
            Table.tmp_file_renamed sys); [|done].
  assert (FieldMeta.name field_meta = attribute_name) as Hname.
  { unfold TableMeta.field_by_name in Hfield.
    apply find_some in Hfield as [_ E]. by apply String.eqb_eq in E. }
  exists idx, field_meta. rewrite Him, Hname. repeat split; try done.
  - by apply He.
  - by apply He.
Qed.

(** X24.  When [create_index] has filled the new index and then fails at
    the metadata file (it cannot open the temporary file, write it or
    rename it), it returns IOERR with the new index in the index list of
    the table and the metadata as before: the table names an index that
    its metadata does not know. *)
Theorem create_index_failure_leaves_index tb trx index_name attribute_name
    sys field_meta :
  is_blank index_name = false ->
  is_blank attribute_name = false ->
  ~ index_known (Table.table_meta_ tb) index_name attribute_name ->
  TableMeta.field_by_name (Table.table_meta_ tb) attribute_name
  = Some field_meta ->
  (Z.of_nat (size (slots_of tb)) <= INT_MAX)%Z ->
  Table.index_file_created sys = true ->
  Table.tmp_file_opened sys && Table.meta_serialized sys &&
  Table.tmp_file_renamed sys = false ->
  let res := Table.create_index create_scanner tb trx (Some index_name)
               (Some attribute_name) sys in
  res.1 = IOERR /\
  Table.table_meta_ res.2 = Table.table_meta_ tb /\
  Table.record_handler_ res.2 = Table.record_handler_ tb /\
  Table.get_index_names res.2 = Table.get_index_names tb ++ [index_name] /\
  TableMeta.index (Table.table_meta_ res.2) index_name = None.
Proof.
  intros Hn Ha Hunknown Hfield Hsize Hfile Hsys res. subst res.
  assert (Hex : Table.is_some (TableMeta.index (Table.table_meta_ tb)
                                 index_name) ||
                Table.is_some (TableMeta.find_index_by_field
                                 (Table.table_meta_ tb) attribute_name)
                = false).
  { destruct (_ || _) eqn:E; [|done]. destruct Hunknown.
    by apply index_known_test. }
  destruct (create_index_run tb trx index_name attribute_name sys field_meta
              Hn Ha Hex Hfield Hfile Hsize) as (idx & Him & Hfm & He & Hrun).
  rewrite Hrun, Hsys. cbn. repeat split.
  - unfold Table.get_index_names. cbn [Table.indexes_].
    rewrite map_app. cbn. by rewrite Him.
  - apply orb_false_elim in Hex as [H _].
    by destruct (TableMeta.index (Table.table_meta_ tb) index_name).
Qed.

End CreateIndexRun.

Lemma create_index_indexes_visible_records_witness :
  let cs : Index.t -> CompOp -> bytes -> Z -> IndexScanner :=
    fun _ _ _ _ => [] in
  let tb := Scenario.mixed in
  let trx := Some (Scenario.begin 9) in
  let res := Table.create_index cs tb trx (Some "ix_a"%string)
               (Some "a"%string) (Table.mkSysCalls true true true true) in
  exists idx field_meta,
    TableMeta.field_by_name (Table.table_meta_ tb) "a" = Some field_meta /\
    Index.index_meta idx = IndexMeta.mk "ix_a" "a" /\
    Index.field_meta idx = field_meta /\
    Table.indexes_ res.2 = Table.indexes_ tb ++ [idx] /\
    TableMeta.indexes (Table.table_meta_ res.2)
    = TableMeta.indexes (Table.table_meta_ tb) ++ [Index.index_meta idx] /\
    Table.record_handler_ res.2 = Table.record_handler_ tb /\
    holds_visible tb trx idx.
Proof.
  intros cs tb trx.
  apply (create_index_indexes_visible_records cs tb trx "ix_a" "a"
           (Table.mkSysCalls true true true true)).
  - vm_compute. discriminate.
  - vm_compute. reflexivity.
Defined.

Lemma create_index_failure_leaves_index_witness :
  let cs : Index.t -> CompOp -> bytes -> Z -> IndexScanner :=
    fun _ _ _ _ => [] in
  let tb := Scenario.two_rows in
  let res := Table.create_index cs tb None (Some "ix_a"%string)
               (Some "a"%string) (Table.mkSysCalls true true true false) in
  res.1 = IOERR /\
  Table.table_meta_ res.2 = Table.table_meta_ tb /\
  Table.record_handler_ res.2 = Table.record_handler_ tb /\
  Table.get_index_names res.2 = Table.get_index_names tb ++ ["ix_a"%string] /\
  TableMeta.index (Table.table_meta_ res.2) "ix_a" = None.
Proof.
  intros cs tb.
  apply (create_index_failure_leaves_index cs tb None "ix_a" "a"
           (Table.mkSysCalls true true true false)
           (TableMeta.field Scenario.meta 1)).
  - reflexivity.
  - reflexivity.
  - intros (im & Hin & _). vm_compute in Hin. by apply elem_of_nil in Hin.
  - reflexivity.
  - vm_compute. discriminate.
  - reflexivity.
  - reflexivity.
Defined.

(* ===================================================================== *)
(** * table.cpp: the statements UPDATE and DELETE                         *)
(* ===================================================================== *)

Section UpdateStatement.

Variable create_scanner : Index.t -> CompOp -> bytes -> Z -> IndexScanner.
Variable composite_init :
  Table.t -> list ParseDefs.Condition -> RC * ConditionFilter.

Implicit Types (tb : Table.t) (trx : option Trx.t)
  (filter : option ConditionFilter).

Local Open Scope Z_scope.

(** X25.  An UPDATE whose WHERE clause names another table on one side
    of a condition is refused with SCHEMA_TABLE_NAME_ILLEGAL before
    anything is done: table and transaction are as before, and no count
    is written. *)
Theorem update_rejects_condition_on_other_table tb trx attribute_name value
    (conditions : list ParseDefs.Condition) (cond : ParseDefs.Condition)
    (cond_rel_name : string) :
  cond ∈ conditions ->
  (ParseDefs.left_is_attr cond = 1 /\
   ParseDefs.relation_name (ParseDefs.left_attr cond) = Some cond_rel_name) \/
  (ParseDefs.right_is_attr cond = 1 /\
   ParseDefs.relation_name (ParseDefs.right_attr cond) = Some cond_rel_name) ->
  cond_rel_name <> TableMeta.name (Table.table_meta_ tb) ->
  Table.update_record_conditions create_scanner composite_init tb trx
    (Some attribute_name) (Some value) conditions
  = (SCHEMA_TABLE_NAME_ILLEGAL, tb, trx, None).
Proof.
  intros Hin Hside Hne. unfold Table.update_record_conditions.
  destruct conditions as [|c cs]; [by apply elem_of_nil in Hin|].
  cbn [length Nat.ltb Nat.leb].
  assert (existsb (Table.names_other_table
                     (TableMeta.name (Table.table_meta_ tb))) (c :: cs)
          = true) as ->; [|done].
  apply existsb_exists. exists cond. split; [by apply list_elem_of_In|].
  unfold Table.names_other_table.
  assert (negb (String.eqb cond_rel_name
                  (TableMeta.name (Table.table_meta_ tb))) = true) as Hn.
  { apply negb_true_iff, String.eqb_neq. done. }
  destruct Hside as [[-> ->]|[-> ->]]; rewrite Hn; cbn;
    [done|by rewrite orb_true_r].
Qed.

(** An UPDATE that gets past its checks is the scan with the updater. *)
Lemma update_conditions_scan tb trx attribute_name value conditions filter :
  update_scans_with composite_init tb conditions filter ->
  Table.update_record_conditions create_scanner composite_init tb trx
    (Some attribute_name) (Some value) conditions
  = let '(rc, tb', updater') :=
      Table.scan_record create_scanner tb trx filter (-1)
        (Table.mkRecordUpdater trx 0 attribute_name value)
        (Some Table.record_reader_update_adapter) in
    (rc, tb', Table.trx_ updater', Some (Table.updated_count_ updater')).
Proof.
  unfold update_scans_with, Table.update_record_conditions.
  destruct conditions as [|c cs].
  - by intros ->.
  - intros (Hnames & f & Hinit & ->). cbn [length Nat.ltb Nat.leb].
    rewrite Hnames, Hinit. by rewrite bool_decide_eq_false_2 by (by intros ?).
Qed.

(** One call of [update_record] on a record of the heap, where no index
    has the name of the column and the value is legal. *)
Lemma update_record_plain tb trx r d attribute_name value :
  let m := Table.table_meta_ tb in
  let i := TableMeta.find_field_index_by_name m attribute_name in
  i <> -1 ->
  Table.is_legal value (TableMeta.field m (Z.to_nat i)) = SUCCESS ->
  Table.find_index tb attribute_name = None ->
  slots_of tb !! r = Some d ->
  Table.update_record tb trx (mkRec r d) attribute_name value
  = (SUCCESS,
     Table.mk m
       (RecordFileHandler.mk
          (RecordFileHandler.record_capacity (Table.record_handler_ tb))
          (<[r := updated_data m d i value]> (slots_of tb)))
       (Table.indexes_ tb),
     trx, mkRec r (updated_data m d i value)).
Proof.
  intros m i Hi Hleg Hf Hr. unfold Table.update_record. fold m i.
  destruct (Z.eqb_spec i (-1)) as [|_]; [done|].
  cbn [fst snd]. rewrite bool_decide_eq_false_2 by (by intros ?).
  rewrite Hf. rewrite bool_decide_eq_false_2 by (by intros ?).
  rewrite Hleg. rewrite bool_decide_eq_false_2 by (by intros ?).
  change (if (0 <=? Z.of_nat (TableMeta.null_field_index m) + i - 1)
          then _ else _) with (updated_data m d i value).
  unfold RecordFileHandler.update_record. cbn [rid data]. rewrite Hr.
  rewrite bool_decide_eq_false_2 by (by intros ?). reflexivity.
Qed.

(** The heap path of the scan of an UPDATE. *)
Lemma update_loop tb0 trx filter limit attribute_name value :
  let m := Table.table_meta_ tb0 in
  let i := TableMeta.find_field_index_by_name m attribute_name in
  i <> -1 ->
  Table.is_legal value (TableMeta.field m (Z.to_nat i)) = SUCCESS ->
  Table.find_index tb0 attribute_name = None ->
  forall rids tb count c,
    NoDup rids ->
    Table.table_meta_ tb = m ->
    Table.indexes_ tb = Table.indexes_ tb0 ->
    (forall r, r ∈ rids -> slots_of tb !! r = slots_of tb0 !! r) ->
    count + Z.of_nat (length rids) <= limit ->
    exists tb',
      Table.scan_record_heap_loop trx rids filter limit count
        Table.record_reader_update_adapter tb
        (Table.mkRecordUpdater trx c attribute_name value)
      = (SUCCESS, tb',
         Table.mkRecordUpdater trx
           (c + Z.of_nat (length (omap (delivered tb0 trx filter) rids)))
           attribute_name value) /\
      Table.table_meta_ tb' = m /\
      Table.indexes_ tb' = Table.indexes_ tb0 /\
      forall r,
        slots_of tb' !! r =
        if decide (r ∈ rids) then updated_slot tb0 trx filter i value r
        else slots_of tb !! r.
Proof.
  intros m i Hi Hleg Hf rids.
  induction rids as [|r rids IH]; intros tb count c Hnd Hm Hidx Hsame Hl.
  - exists tb. cbn. rewrite Z.add_0_r. repeat split; auto.
  - apply NoDup_cons in Hnd as [Hnotin Hnd].
    cbn [Table.scan_record_heap_loop length] in *.
    rewrite omap_cons_match. unfold delivered at 1.
    assert (Hr0 : slots_of tb !! r = slots_of tb0 !! r)
      by (apply Hsame, list_elem_of_here).
    assert (Hrest : forall r', r' ∈ rids ->
              slots_of tb !! r' = slots_of tb0 !! r')
      by (intros r' Hr'; apply Hsame; by apply elem_of_cons; right).
    assert (Hvis : forall d, Table.visible tb trx (mkRec r d)
                             = Table.visible tb0 trx (mkRec r d))
      by (intros d; unfold Table.visible; by rewrite Hm).
    pose (skip := fun (tb' : Table.t) =>
            forall r', slots_of tb' !! r' =
              if decide (r' ∈ rids)
              then updated_slot tb0 trx filter i value r'
              else slots_of tb !! r').
    assert (Hskip : forall tb' : Table.t,
              updated_slot tb0 trx filter i value r = slots_of tb !! r ->
              skip tb' ->
              forall r', slots_of tb' !! r' =
                if decide (r' ∈ r :: rids)
                then updated_slot tb0 trx filter i value r'
                else slots_of tb !! r').
    { intros tb' Hu Hs r'. rewrite (Hs r').
      destruct (decide (r' = r)) as [->|Hne].
      - rewrite decide_False by done.
        rewrite decide_True by apply list_elem_of_here. done.
      - destruct (decide (r' ∈ rids)) as [Hin|Hin].
        + rewrite decide_True by (by apply elem_of_cons; right). done.
        + rewrite decide_False; [done|].
          intros [?|?]%elem_of_cons; done. }
    rewrite <- Hr0.
    destruct (slots_of tb !! r) as [d|] eqn:Hr; cycle 1.
    { destruct (IH tb count c Hnd Hm Hidx Hrest ltac:(lia))
        as (tb' & -> & Hm' & Hi' & Hs').
      exists tb'. repeat split; auto. apply Hskip; [|done].
      unfold updated_slot. by rewrite <- Hr0. }
    rewrite <- Hvis.
    destruct (passes filter (mkRec r d)) eqn:Hp; cycle 1.
    { rewrite andb_false_r.
      destruct (IH tb count c Hnd Hm Hidx Hrest ltac:(lia))
        as (tb' & -> & Hm' & Hi' & Hs').
      exists tb'. repeat split; auto. apply Hskip; [|done].
      unfold updated_slot. rewrite <- Hr0, Hp. by rewrite andb_false_r. }
    rewrite andb_true_r.
    destruct (Z.ltb_spec count limit) as [Hc|Hc]; [|lia].
    destruct (Table.visible tb trx (mkRec r d)) eqn:Hv; cycle 1.
    { destruct (IH tb count c Hnd Hm Hidx Hrest ltac:(lia))
        as (tb' & -> & Hm' & Hi' & Hs').
      exists tb'. repeat split; auto. apply Hskip; [|done].
      unfold updated_slot. rewrite <- Hr0, <- Hvis, Hv. done. }
    unfold Table.record_reader_update_adapter at 1.
    cbn [Table.trx_ Table.attribute_name_ Table.value_ Table.updated_count_].
    rewrite update_record_plain; [|by rewrite Hm|by rewrite Hm| |done];
      cycle 1.
    { unfold Table.find_index in *. by rewrite Hidx. }
    rewrite bool_decide_eq_false_2 by (by intros ?).
    rewrite bool_decide_eq_true_2 by done.
    rewrite Hm. fold m i.
    set (tb1 := Table.mk m _ (Table.indexes_ tb)).
    destruct (IH tb1 (count + 1) (c + 1) Hnd eq_refl Hidx)
      as (tb' & -> & Hm' & Hi' & Hs'); [|cbn [length]; lia|].
    { intros r' Hr'. subst tb1. cbn.
      rewrite lookup_insert_ne by (intros ->; done). by apply Hrest. }
    exists tb'. split; [|split; [done|split; [done|]]].
    { do 2 f_equal. cbn [length]. lia. }
    intros r'. rewrite (Hs' r').
    destruct (decide (r' = r)) as [->|Hne].
    + rewrite decide_False by done.
      rewrite decide_True by apply list_elem_of_here.
      subst tb1. cbn. rewrite lookup_insert_eq.
      unfold updated_slot. rewrite <- Hr0, <- Hvis, Hv, Hp. done.
    + subst tb1. cbn. rewrite lookup_insert_ne by done.
      destruct (decide (r' ∈ rids)) as [Hin|Hin].
      * rewrite decide_True by (by apply elem_of_cons; right). done.
      * rewrite decide_False; [done|]. intros [?|?]%elem_of_cons; done.
Qed.

(** X26.  An UPDATE that scans the heap, with a legal value for a column
    that has no index under its name: every record that the transaction
    sees and that passes the filter of the WHERE clause gets the new
    value and null mark, every other record stays as it is, the count is
    the number of the records that were updated, and metadata and
    indexes are untouched.  Of the bytes of the column behind the
    payload of the value, where the value is a text shorter than the
    column, nothing is said: [memcpy] takes them from the memory behind
    the payload.  Without conditions the filter is absent; with
    conditions it is the one that [CompositeConditionFilter::init]
    builds. *)
Theorem update_statement_updates_matching tb trx attribute_name value
    (conditions : list ParseDefs.Condition) filter :
  let m := Table.table_meta_ tb in
  let i := TableMeta.find_field_index_by_name m attribute_name in
  i <> -1 ->
  Table.is_legal value (TableMeta.field m (Z.to_nat i)) = SUCCESS ->
  Table.find_index tb attribute_name = None ->
  update_scans_with composite_init tb conditions filter ->
  Table.find_index_for_scan create_scanner tb filter = None ->
  Z.of_nat (size (slots_of tb)) <= INT_MAX ->
  exists tb',
    Table.update_record_conditions create_scanner composite_init tb trx
      (Some attribute_name) (Some value) conditions
    = (SUCCESS, tb', trx,
       Some (Z.of_nat
               (length (omap (delivered tb trx filter)
                          (RecordFileHandler.scan_order
                             (Table.record_handler_ tb)))))) /\
    Table.table_meta_ tb' = m /\
    Table.indexes_ tb' = Table.indexes_ tb /\
    forall r, update_leaves tb trx filter i value r (slots_of tb' !! r).
Proof.
  intros m i Hi Hleg Hf Hcond Hscan Hsize.
  destruct (update_loop tb trx filter INT_MAX attribute_name value Hi Hleg Hf
              (RecordFileHandler.scan_order (Table.record_handler_ tb))
              tb 0 0 (scan_order_NoDup _) eq_refl eq_refl)
    as (tb' & Hloop & Hm' & Hi' & Hs'); [done|rewrite scan_order_length; lia|].
  exists tb'. split; [|split; [done|split; [done|]]].
  - assert (Hrun : Table.scan_record create_scanner tb trx filter (-1)
                     (Table.mkRecordUpdater trx 0 attribute_name value)
                     (Some Table.record_reader_update_adapter)
                   = (SUCCESS, tb',
                      Table.mkRecordUpdater trx
                        (0 + Z.of_nat
                               (length (omap (delivered tb trx filter)
                                  (RecordFileHandler.scan_order
                                     (Table.record_handler_ tb)))))
                        attribute_name value)).
    { unfold Table.scan_record.
      change (-1 =? 0) with false. change (-1 <? 0) with true. cbv iota.
      by rewrite Hscan. }
    by rewrite (update_conditions_scan tb trx attribute_name value conditions
                  filter Hcond), Hrun.
  - intros r. rewrite (Hs' r). unfold update_leaves.
    destruct (decide (r ∈ RecordFileHandler.scan_order
                            (Table.record_handler_ tb))) as [Hin|Hn].
    + unfold updated_slot. destruct (slots_of tb !! r) as [d|]; [|done].
      destruct (Table.visible tb trx (mkRec r d) && passes filter (mkRec r d));
        [|done].
      eexists. split; [done|]. split; [apply length_updated_data|done].
    + destruct (slots_of tb !! r) eqn:E; [|done].
      destruct Hn. apply scan_order_elem. eauto.
Qed.

(** A scan of the heap that finds nothing to hand over ends with
    SUCCESS and has not called the reader. *)
Lemma heap_loop_nothing {C : Type} tb trx filter limit rids count
    (reader : Table.record_reader C) (context : C) :
  (forall r, r ∈ rids -> delivered tb trx filter r = None) ->
  Table.scan_record_heap_loop trx rids filter limit count reader tb context
  = (SUCCESS, tb, context).
Proof.
  induction rids as [|r rids IH]; intros Hnone; [done|].
  cbn [Table.scan_record_heap_loop].
  pose proof (Hnone r (list_elem_of_here _ _)) as Hr. unfold delivered in Hr.
  assert (Hrest : forall r', r' ∈ rids -> delivered tb trx filter r' = None)
    by (intros r' Hr'; apply Hnone; by apply elem_of_cons; right).
  destruct (slots_of tb !! r) as [d|]; [|by apply IH].
  destruct (passes filter (mkRec r d)); [|by apply IH].
  destruct (count <? limit); [|done].
  destruct (Table.visible tb trx (mkRec r d)); [done|by apply IH].
Qed.

(** X27.  An UPDATE that scans the heap and finds no record that the
    transaction sees and that passes the filter returns SUCCESS with the
    count 0 and leaves the table as it is, also when the table has no
    column of the given name or the value is not legal for it: column
    and value are looked at only when a record is updated. *)
Theorem update_without_match_succeeds tb trx attribute_name value
    (conditions : list ParseDefs.Condition) filter :
  update_scans_with composite_init tb conditions filter ->
  Table.find_index_for_scan create_scanner tb filter = None ->
  (forall r d, slots_of tb !! r = Some d ->
     Table.visible tb trx (mkRec r d) && passes filter (mkRec r d) = false) ->
  Table.update_record_conditions create_scanner composite_init tb trx
    (Some attribute_name) (Some value) conditions
  = (SUCCESS, tb, trx, Some 0).
Proof.
  intros Hcond Hscan Hnone.
  rewrite (update_conditions_scan tb trx attribute_name value conditions
             filter Hcond).
  unfold Table.scan_record.
  change (-1 =? 0) with false. change (-1 <? 0) with true. cbv iota.
  rewrite Hscan, heap_loop_nothing; [done|].
  intros r _. unfold delivered.
  destruct (slots_of tb !! r) as [d|] eqn:Hr; [|done].
  by rewrite (Hnone r d Hr).
Qed.

(** A scan of the heap whose reader refuses every record and changes
    nothing stops at the first record it hands over. *)
Lemma heap_loop_refused {C : Type} tb trx filter limit rids count
    (reader : Table.record_reader C) (context : C) (rc : RC) :
  rc <> SUCCESS ->
  (forall record, reader record tb context = (rc, tb, context)) ->
  count < limit ->
  (exists r, r ∈ rids /\ is_Some (delivered tb trx filter r)) ->
  Table.scan_record_heap_loop trx rids filter limit count reader tb context
  = (rc, tb, context).
Proof.
  intros Hrc Hreader Hc. induction rids as [|r rids IH]; intros (r0 & Hin & Hd).
  { by apply elem_of_nil in Hin. }
  cbn [Table.scan_record_heap_loop].
  apply elem_of_cons in Hin as [->|Hin]; cycle 1.
  { assert (Hex : exists r, r ∈ rids /\ is_Some (delivered tb trx filter r))
      by eauto.
    destruct (slots_of tb !! r) as [d|]; [|by apply IH].
    destruct (passes filter (mkRec r d)); [|by apply IH].
    destruct (Z.ltb_spec count limit); [|lia].
    destruct (Table.visible tb trx (mkRec r d)); [|by apply IH].
    rewrite Hreader. by rewrite bool_decide_eq_true_2. }
  unfold delivered in Hd.
  destruct (slots_of tb !! r) as [d|]; [|by destruct Hd].
  destruct (Table.visible tb trx (mkRec r d)) eqn:Hv; [|by destruct Hd].
  destruct (passes filter (mkRec r d)) eqn:Hp; [|by destruct Hd].
  destruct (Z.ltb_spec count limit); [|lia].
  rewrite Hreader. by rewrite bool_decide_eq_true_2.
Qed.

(** X28.  An UPDATE of a column that the table does not have, which
    scans the heap and finds a record to update, returns
    SCHEMA_FIELD_NOT_EXIST with the count 0 and leaves the table as it
    is. *)
Theorem update_of_unknown_column_refused tb trx attribute_name value
    (conditions : list ParseDefs.Condition) filter r d :
  TableMeta.find_field_index_by_name (Table.table_meta_ tb) attribute_name
  = -1 ->
  update_scans_with composite_init tb conditions filter ->
  Table.find_index_for_scan create_scanner tb filter = None ->
  slots_of tb !! r = Some d ->
  Table.visible tb trx (mkRec r d) && passes filter (mkRec r d) = true ->
  Table.update_record_conditions create_scanner composite_init tb trx
    (Some attribute_name) (Some value) conditions
  = (SCHEMA_FIELD_NOT_EXIST, tb, trx, Some 0).
Proof.
  intros Hi Hcond Hscan Hr Hvp.
  rewrite (update_conditions_scan tb trx attribute_name value conditions
             filter Hcond).
  unfold Table.scan_record.
  change (-1 =? 0) with false. change (-1 <? 0) with true. cbv iota.
  rewrite Hscan.
  rewrite (heap_loop_refused tb trx filter INT_MAX _ 0 _ _
             SCHEMA_FIELD_NOT_EXIST); [done|done| |done|].
  - intros record. unfold Table.record_reader_update_adapter,
      Table.update_record. cbn [Table.trx_ Table.attribute_name_
      Table.value_ Table.updated_count_]. rewrite Hi. cbn.
    done.
  - exists r. split; [apply scan_order_elem; eauto|].
    unfold delivered. rewrite Hr, Hvp. eauto.
Qed.

End UpdateStatement.

Section DeleteStatement.

Variable create_scanner : Index.t -> CompOp -> bytes -> Z -> IndexScanner.

Implicit Types (tb : Table.t) (filter : option ConditionFilter)
  (idx : Index.t) (l : list Index.t) (h : gmap RID bytes).

Local Open Scope Z_scope.

Lemma map_to_set_delete_entry idx h r d :
  h !! r = Some d ->
  map_to_set (C := gset (bytes * RID))
    (fun r d => (Index.key_of idx d, r)) (delete r h)
  = map_to_set (fun r d => (Index.key_of idx d, r)) h
    ∖ {[ (Index.key_of idx d, r) ]}.
Proof.
  intros Hr. apply set_eq. intros [k r'].
  rewrite elem_of_difference, !elem_of_map_to_set, elem_of_singleton. split.
  - intros (i & x & Hi & E). apply lookup_delete_Some in Hi as [Hne Hi].
    split; [eauto|]. intros E'. congruence.
  - intros [(i & x & Hi & E) Hne]. exists i, x. split; [|done].
    apply lookup_delete_Some. split; [|done]. intros <-.
    apply Hne. congruence.
Qed.

Lemma delete_entry_agrees idx h r d :
  Index.delete_fault idx = false -> index_agrees h idx -> h !! r = Some d ->
  exists idx',
    Index.delete_entry idx d r = (SUCCESS, idx') /\
    Index.delete_fault idx' = false /\
    index_agrees (delete r h) idx'.
Proof.
  intros Hf Hag Hr. unfold Index.delete_entry. rewrite Hf.
  rewrite decide_True by (by apply index_agrees_entry with h).
  eexists. split; [done|]. split; [done|].
  unfold index_agrees in *. cbn.
  change (Index.key_of (Index.with_entries idx _))
    with (Index.key_of idx).
  rewrite (map_to_set_delete_entry idx h r d Hr). by rewrite Hag.
Qed.

Lemma delete_entries_agree l h r d rc0 :
  deletes_work_in l -> Forall (index_agrees h) l -> h !! r = Some d ->
  exists rc l',
    Table.delete_entry_loop rc0 l d r false = (rc, l') /\
    (rc0 = SUCCESS -> rc = SUCCESS) /\
    deletes_work_in l' /\ Forall (index_agrees (delete r h)) l'.
Proof.
  revert rc0. induction l as [|idx l IH]; intros rc0 Hd Hag Hr; simpl.
  - exists rc0, []. repeat split; auto.
  - apply Forall_cons in Hag as [Hag1 Hag].
    assert (Hf : Index.delete_fault idx = false)
      by (apply Hd, list_elem_of_here).
    assert (Hdl : deletes_work_in l)
      by (intros i Hi; apply Hd; by apply elem_of_cons; right).
    destruct (delete_entry_agrees idx h r d Hf Hag1 Hr)
      as (idx' & E & Hf' & Hag').
    rewrite E. simpl.
    destruct (IH SUCCESS Hdl Hag Hr) as (rc & l' & E' & Hrc & Hd' & Hag'').
    rewrite E'.
    exists rc, (idx' :: l'). split; [done|]. split; [auto|]. split.
    + intros i [->|Hi]%elem_of_cons; [done|by apply Hd'].
    + by constructor.
Qed.

(** One call of [delete_record] without transaction on a record of the
    heap. *)
Lemma delete_record_plain tb r d :
  deletes_work_in (Table.indexes_ tb) -> indexes_agree tb ->
  slots_of tb !! r = Some d ->
  exists l',
    Table.delete_record tb None (mkRec r d)
    = (SUCCESS,
       Table.mk (Table.table_meta_ tb)
         (RecordFileHandler.mk
            (RecordFileHandler.record_capacity (Table.record_handler_ tb))
            (delete r (slots_of tb)))
         l',
       None) /\
    deletes_work_in l' /\ Forall (index_agrees (delete r (slots_of tb))) l'.
Proof.
  intros Hd Hag Hr. unfold Table.delete_record, Table.delete_entry_of_indexes.
  cbn [rid data].
  destruct (delete_entries_agree (Table.indexes_ tb) (slots_of tb) r d SUCCESS
              Hd Hag Hr) as (rc & l' & -> & Hrc & Hd' & Hag').
  rewrite (Hrc eq_refl). rewrite bool_decide_eq_false_2 by (by intros ?).
  unfold RecordFileHandler.delete_record. rewrite Hr. eauto.
Qed.

(** The heap path of the scan of a DELETE without transaction. *)
Lemma delete_loop tb0 filter limit rids :
  forall tb count c,
    NoDup rids ->
    Table.table_meta_ tb = Table.table_meta_ tb0 ->
    deletes_work_in (Table.indexes_ tb) -> indexes_agree tb ->
    (forall r, r ∈ rids -> slots_of tb !! r = slots_of tb0 !! r) ->
    count + Z.of_nat (length rids) <= limit ->
    exists tb',
      Table.scan_record_heap_loop None rids filter limit count
        Table.record_reader_delete_adapter tb (Table.RecordDeleter.mk None c)
      = (SUCCESS, tb',
         Table.RecordDeleter.mk None
           (c + Z.of_nat (length (omap (delivered tb0 None filter) rids)))) /\
      Table.table_meta_ tb' = Table.table_meta_ tb0 /\
      deletes_work_in (Table.indexes_ tb') /\ indexes_agree tb' /\
      forall r,
        slots_of tb' !! r =
        if decide (r ∈ rids) then remaining_slot tb0 filter r
        else slots_of tb !! r.
Proof.
  induction rids as [|r rids IH]; intros tb count c Hnd Hm Hd Hag Hsame Hl.
  - exists tb. cbn. rewrite Z.add_0_r. repeat split; auto.
  - apply NoDup_cons in Hnd as [Hnotin Hnd].
    cbn [Table.scan_record_heap_loop length Table.visible] in *.
    rewrite omap_cons_match. unfold delivered at 1.
    cbn [Table.visible andb].
    assert (Hr0 : slots_of tb !! r = slots_of tb0 !! r)
      by (apply Hsame, list_elem_of_here).
    assert (Hrest : forall r', r' ∈ rids ->
              slots_of tb !! r' = slots_of tb0 !! r')
      by (intros r' Hr'; apply Hsame; by apply elem_of_cons; right).
    assert (Hskip : forall tb' : Table.t,
              remaining_slot tb0 filter r = slots_of tb !! r ->
              (forall r', slots_of tb' !! r' =
                 if decide (r' ∈ rids) then remaining_slot tb0 filter r'
                 else slots_of tb !! r') ->
              forall r', slots_of tb' !! r' =
                if decide (r' ∈ r :: rids) then remaining_slot tb0 filter r'
                else slots_of tb !! r').
    { intros tb' Hu Hs r'. rewrite (Hs r').
      destruct (decide (r' = r)) as [->|Hne].
      - rewrite decide_False by done.
        rewrite decide_True by apply list_elem_of_here. done.
      - destruct (decide (r' ∈ rids)) as [Hin|Hin].
        + rewrite decide_True by (by apply elem_of_cons; right). done.
        + rewrite decide_False; [done|].
          intros [?|?]%elem_of_cons; done. }
    rewrite <- Hr0.
    destruct (slots_of tb !! r) as [d|] eqn:Hr; cycle 1.
    { destruct (IH tb count c Hnd Hm Hd Hag Hrest ltac:(lia))
        as (tb' & -> & Hm' & Hd' & Hag' & Hs').
      exists tb'. repeat split; auto. apply Hskip; [|done].
      unfold remaining_slot. by rewrite <- Hr0. }
    destruct (passes filter (mkRec r d)) eqn:Hp; cycle 1.
    { destruct (IH tb count c Hnd Hm Hd Hag Hrest ltac:(lia))
        as (tb' & -> & Hm' & Hd' & Hag' & Hs').
      exists tb'. repeat split; auto. apply Hskip; [|done].
      unfold remaining_slot. by rewrite <- Hr0, Hp. }
    destruct (Z.ltb_spec count limit) as [Hc|Hc]; [|lia].
    unfold Table.record_reader_delete_adapter at 1.
    cbn [Table.RecordDeleter.trx_ Table.RecordDeleter.deleted_count_].
    destruct (delete_record_plain tb r d Hd Hag) as (l' & -> & Hd1 & Hag1);
      [by rewrite Hr|].
    rewrite bool_decide_eq_false_2 by (by intros ?).
    rewrite bool_decide_eq_true_2 by done.
    set (tb1 := Table.mk (Table.table_meta_ tb) _ l').
    destruct (IH tb1 (count + 1) (c + 1) Hnd Hm Hd1 Hag1)
      as (tb' & -> & Hm' & Hd' & Hag' & Hs'); [|cbn [length]; lia|].
    { intros r' Hr'. subst tb1. cbn.
      rewrite lookup_delete_ne by (intros ->; done). by apply Hrest. }
    exists tb'. split; [|split; [done|split; [done|split; [done|]]]].
    { do 2 f_equal. cbn [length]. lia. }
    intros r'. rewrite (Hs' r').
    destruct (decide (r' = r)) as [->|Hne].
    + rewrite decide_False by done.
      rewrite decide_True by apply list_elem_of_here.
      subst tb1. cbn. rewrite lookup_delete_eq.
      unfold remaining_slot. by rewrite <- Hr0, Hp.
    + subst tb1. cbn. rewrite lookup_delete_ne by done.
      destruct (decide (r' ∈ rids)) as [Hin|Hin].
      * rewrite decide_True by (by apply elem_of_cons; right). done.
      * rewrite decide_False; [done|]. intros [?|?]%elem_of_cons; done.
Qed.

Lemma deletes_work_of_list tb :
  deletes_work_in (Table.indexes_ tb) -> deletes_work tb = true.
Proof.
  intros Hd. unfold deletes_work. apply forallb_forall. intros idx Hin.
  apply list_elem_of_In, Hd in Hin. by rewrite Hin.
Qed.

(** X29.  A DELETE without transaction that scans the heap, on a table
    whose indexes agree with the heap and refuse no deletion: the records
    that pass the filter are gone, the others stay as they are, the
    count is the number of records that passed, and the indexes agree
    with the heap again. *)
Theorem delete_statement_removes_matching tb filter :
  deletes_work tb = true ->
  indexes_agree tb ->
  Table.find_index_for_scan create_scanner tb filter = None ->
  Z.of_nat (size (slots_of tb)) <= INT_MAX ->
  exists tb',
    Table.delete_record_filter create_scanner tb None filter
    = (SUCCESS, tb', None,
       Z.of_nat (length (omap (delivered tb None filter)
                           (RecordFileHandler.scan_order
                              (Table.record_handler_ tb))))) /\
    Table.table_meta_ tb' = Table.table_meta_ tb /\
    (forall r, slots_of tb' !! r = remaining_slot tb filter r) /\
    indexes_agree tb' /\ deletes_work tb' = true.
Proof.
  intros Hd Hag Hscan Hsize. apply deletes_work_in_list in Hd.
  destruct (delete_loop tb filter INT_MAX
              (RecordFileHandler.scan_order (Table.record_handler_ tb))
              tb 0 0 (scan_order_NoDup _) eq_refl Hd Hag)
    as (tb' & Hloop & Hm' & Hd' & Hag' & Hs');
    [done|rewrite scan_order_length; lia|].
  exists tb'. split; [|split; [done|split; [|split]]].
  - unfold Table.delete_record_filter, Table.scan_record.
    change (-1 =? 0) with false. change (-1 <? 0) with true. cbv iota.
    by rewrite Hscan, Hloop.
  - intros r. rewrite (Hs' r).
    destruct (decide (r ∈ RecordFileHandler.scan_order
                            (Table.record_handler_ tb))) as [|Hn]; [done|].
    unfold remaining_slot.
    destruct (slots_of tb !! r) eqn:E; [|done].
    destruct Hn. apply scan_order_elem. eauto.
  - done.
  - by apply deletes_work_of_list.
Qed.

End DeleteStatement.

(** [UPDATE t SET b = 'bar' WHERE u.a = 1] on the table [t] of the
    scenario. *)
Lemma update_rejects_condition_on_other_table_witness :
  let cs : Index.t -> CompOp -> bytes -> Z -> IndexScanner :=
    fun _ _ _ _ => [] in
  let ci : Table.t -> list ParseDefs.Condition -> RC * ConditionFilter :=
    fun _ _ => (SUCCESS, Scenario.a_at_least_1) in
  let blank :=
    ParseDefs.mkCondition NO_OP false
      0 (ParseDefs.relation_attr_init None "" None 0)
        (Parse.value_init_integer 0 false)
      0 (ParseDefs.relation_attr_init None "" None 0)
        (Parse.value_init_integer 0 false) in
  let cond :=
    ParseDefs.condition_init blank EQUAL_TO
      1 (ParseDefs.relation_attr_init (Some "u"%string) "a" None 0)
        (Parse.value_init_integer 0 false)
      0 (ParseDefs.relation_attr_init None "" None 0)
        (Parse.value_init_integer 1 false) in
  Table.update_record_conditions cs ci Scenario.two_rows None
    (Some "b"%string) (Some (Parse.value_init_string "bar" false)) [cond]
  = (SCHEMA_TABLE_NAME_ILLEGAL, Scenario.two_rows, None, None).
Proof.
  intros cs ci blank cond.
  apply (update_rejects_condition_on_other_table cs ci Scenario.two_rows
           None "b" (Parse.value_init_string "bar" false) [cond] cond "u").
  - apply list_elem_of_here.
  - left. split; reflexivity.
  - vm_compute. discriminate.
Defined.

(** [UPDATE t SET b = 'ba' WHERE a >= 1] on the two rows of the
    scenario: the text and its terminator are three bytes, one less
    than the column is long. *)
Lemma update_statement_updates_matching_witness :
  let cs : Index.t -> CompOp -> bytes -> Z -> IndexScanner :=
    fun _ _ _ _ => [] in
  let ci : Table.t -> list ParseDefs.Condition -> RC * ConditionFilter :=
    fun _ _ => (SUCCESS, Scenario.a_at_least_1) in
  let blank :=
    ParseDefs.mkCondition NO_OP false
      0 (ParseDefs.relation_attr_init None "" None 0)
        (Parse.value_init_integer 0 false)
      0 (ParseDefs.relation_attr_init None "" None 0)
        (Parse.value_init_integer 0 false) in
  let cond :=
    ParseDefs.condition_init blank GREAT_EQUAL
      1 (ParseDefs.relation_attr_init (Some "t"%string) "a" None 0)
        (Parse.value_init_integer 0 false)
      0 (ParseDefs.relation_attr_init None "" None 0)
        (Parse.value_init_integer 1 false) in
  let tb := Scenario.two_rows in
  let value := Parse.value_init_string "ba" false in
  let filter := Some Scenario.a_at_least_1 in
  exists tb',
    Table.update_record_conditions cs ci tb None (Some "b"%string)
      (Some value) [cond]
    = (SUCCESS, tb', None,
       Some (Z.of_nat
               (length (omap (delivered tb None filter)
                          (RecordFileHandler.scan_order
                             (Table.record_handler_ tb)))))) /\
    Table.table_meta_ tb' = Table.table_meta_ tb /\
    Table.indexes_ tb' = Table.indexes_ tb /\
    forall r,
      update_leaves tb None filter 2 value r
        (RecordFileHandler.slots (Table.record_handler_ tb') !! r).
Proof.
  intros cs ci blank cond tb value filter.
  apply (update_statement_updates_matching cs ci tb None "b" value [cond]
           filter).
  - vm_compute. discriminate.
  - reflexivity.
  - reflexivity.
  - split; [reflexivity|]. exists Scenario.a_at_least_1. split; reflexivity.
  - reflexivity.
  - vm_compute. discriminate.
Defined.

(** [DELETE FROM t WHERE a >= 1] on the row of the scenario, with an
    index on [a]. *)
Lemma delete_statement_removes_matching_witness :
  let cs : Index.t -> CompOp -> bytes -> Z -> IndexScanner :=
    fun _ _ _ _ => [] in
  let tb := Scenario.indexed "idx_a" in
  let filter := Some Scenario.a_at_least_1 in
  exists tb',
    Table.delete_record_filter cs tb None filter
    = (SUCCESS, tb', None,
       Z.of_nat (length (omap (delivered tb None filter)
                           (RecordFileHandler.scan_order
                              (Table.record_handler_ tb))))) /\
    Table.table_meta_ tb' = Table.table_meta_ tb /\
    (forall r,
       RecordFileHandler.slots (Table.record_handler_ tb') !! r
       = remaining_slot tb filter r) /\
    indexes_agree tb' /\ deletes_work tb' = true.
Proof.
  intros cs tb filter.
  apply (delete_statement_removes_matching cs tb filter).
  - reflexivity.
  - constructor; [apply indexed_agrees|constructor].
  - reflexivity.
  - vm_compute. discriminate.
Defined.

Lemma two_rows_slots :
  slots_of Scenario.two_rows
  = <[Scenario.rid1 := data (Scenario.record_at Scenario.two_rows
                               Scenario.rid1)]>
      {[ Scenario.rid2 := data (Scenario.record_at Scenario.two_rows
                                  Scenario.rid2) ]}.
Proof. vm_compute. reflexivity. Qed.

(** [UPDATE t SET nosuch = 'bar' WHERE a >= 3] on the rows with [a = 1]
    and [a = 2]: no row passes, and the statement succeeds although the
    table has no column [nosuch]. *)
Lemma update_without_match_succeeds_witness :
  let cs : Index.t -> CompOp -> bytes -> Z -> IndexScanner :=
    fun _ _ _ _ => [] in
  let ci : Table.t -> list ParseDefs.Condition -> RC * ConditionFilter :=
    fun _ _ => (SUCCESS, Scenario.a_at_least 3) in
  let blank :=
    ParseDefs.mkCondition NO_OP false
      0 (ParseDefs.relation_attr_init None "" None 0)
        (Parse.value_init_integer 0 false)
      0 (ParseDefs.relation_attr_init None "" None 0)
        (Parse.value_init_integer 0 false) in
  let cond :=
    ParseDefs.condition_init blank GREAT_EQUAL
      1 (ParseDefs.relation_attr_init (Some "t"%string) "a" None 0)
        (Parse.value_init_integer 0 false)
      0 (ParseDefs.relation_attr_init None "" None 0)
        (Parse.value_init_integer 3 false) in
  Table.update_record_conditions cs ci Scenario.two_rows None
    (Some "nosuch"%string) (Some (Parse.value_init_string "bar" false))
    [cond]
  = (SUCCESS, Scenario.two_rows, None, Some 0%Z).
Proof.
  intros cs ci blank cond.
  apply (update_without_match_succeeds cs ci Scenario.two_rows None "nosuch"
           (Parse.value_init_string "bar" false) [cond]
           (Some (Scenario.a_at_least 3))).
  - split; [reflexivity|]. exists (Scenario.a_at_least 3).
    split; reflexivity.
  - reflexivity.
  - intros r d. rewrite two_rows_slots.
    intros [[<- <-]|[_ [<- <-]%lookup_singleton_Some]]%lookup_insert_Some;
      vm_compute; reflexivity.
Defined.

Lemma update_of_unknown_column_refused_witness :
  let cs : Index.t -> CompOp -> bytes -> Z -> IndexScanner :=
    fun _ _ _ _ => [] in
  let ci : Table.t -> list ParseDefs.Condition -> RC * ConditionFilter :=
    fun _ _ => (SUCCESS, Scenario.a_at_least_1) in
  Table.update_record_conditions cs ci Scenario.two_rows None
    (Some "nosuch"%string) (Some (Parse.value_init_string "bar" false)) []
  = (SCHEMA_FIELD_NOT_EXIST, Scenario.two_rows, None, Some 0%Z).
Proof.
  intros cs ci.
  apply (update_of_unknown_column_refused cs ci Scenario.two_rows None
           "nosuch" (Parse.value_init_string "bar" false) [] None
           Scenario.rid1
           (data (Scenario.record_at Scenario.two_rows Scenario.rid1)));
    reflexivity.
Defined.

(* ===================================================================== *)
(** * table.cpp: the columns of an inserted record                        *)
(* ===================================================================== *)

Section InsertedColumns.

Implicit Types (tb : Table.t) (trx : option Trx.t) (m : TableMeta.t)
  (values : list Parse.Value).

(** What one round of the second loop of [make_record] leaves in the
    bytes of the column. *)
Lemma payload_written record f nfi i v src p :
  stored_payload f v = Some src ->
  (FieldMeta.offset f + FieldMeta.len f <= nfi)%nat ->
  (FieldMeta.offset f <= p < FieldMeta.offset f + FieldMeta.len f)%nat ->
  (p < length record)%nat ->
  (if Parse.is_null v then
     memcpy (Table.null_payload record f) (nfi + i) (Table.null_flag true) 1
   else
     memcpy (memcpy record (FieldMeta.offset f) (Parse.data v)
               (FieldMeta.len f))
            (nfi + i) (Table.null_flag false) 1) !! p
  = read_bytes src (FieldMeta.len f) !! (p - FieldMeta.offset f)%nat.
Proof.
  unfold stored_payload. intros Hsrc Hnfi Hp Hlen.
  destruct (Parse.is_null v).
  - rewrite memcpy_lookup_outside by lia. unfold Table.null_payload.
    destruct (FieldMeta.type f); simplify_eq;
      by rewrite memcpy_lookup_inside.
  - simplify_eq. rewrite memcpy_lookup_outside by lia.
    by rewrite memcpy_lookup_inside.
Qed.

(** The loop from value [i] on leaves the bytes in front of the column of
    value [i] alone. *)
Lemma fill_record_keeps_front m nfi i values record p :
  TableMeta.contiguous 0 (TableMeta.fields m) = true ->
  (i + length values + TableMeta.sys_field_num m <= TableMeta.field_num m)%nat ->
  (p < FieldMeta.offset (TableMeta.field m (i + TableMeta.sys_field_num m)))%nat
  \/ (length values = 0)%nat ->
  (p < nfi)%nat ->
  Table.fill_record m nfi i values record !! p = record !! p.
Proof.
  intros Hc. revert i record.
  induction values as [|v values IH]; intros i record Hn Hp Hq; [done|].
  destruct Hp as [Hp|Hp]; [|done].
  cbn [Table.fill_record length] in *.
  set (f := TableMeta.field m (i + TableMeta.sys_field_num m)) in *.
  assert (Hf : TableMeta.fields m !! (i + TableMeta.sys_field_num m)%nat
               = Some f).
  { unfold f, TableMeta.field.
    destruct (nth_lookup_or_length (TableMeta.fields m)
                (i + TableMeta.sys_field_num m) FieldMeta.invalid) as [H|H];
      [done|]. unfold TableMeta.field_num in Hn. lia. }
  rewrite IH; [| lia | | lia].
  - destruct (Parse.is_null v).
    + rewrite memcpy_lookup_outside by lia.
      apply null_payload_lookup_outside. fold f. lia.
    + rewrite !memcpy_lookup_outside by lia. done.
  - destruct values as [|w values]; [by right|left].
    cbn [length] in Hn.
    assert (Hg : TableMeta.fields m !! (S i + TableMeta.sys_field_num m)%nat
                 = Some (TableMeta.field m (S i + TableMeta.sys_field_num m))).
    { unfold TableMeta.field.
      destruct (nth_lookup_or_length (TableMeta.fields m)
                  (S i + TableMeta.sys_field_num m) FieldMeta.invalid) as [H|H];
        [done|]. unfold TableMeta.field_num in Hn. lia. }
    pose proof (contiguous_disjoint _ _ _ _ _ Hc Hf Hg ltac:(lia)). lia.
Qed.

Lemma length_fill_step record f nfi i v :
  length (if Parse.is_null v then
            memcpy (Table.null_payload record f) (nfi + i)
                   (Table.null_flag true) 1
          else
            memcpy (memcpy record (FieldMeta.offset f) (Parse.data v)
                      (FieldMeta.len f))
                   (nfi + i) (Table.null_flag false) 1)
  = length record.
Proof.
  destruct (Parse.is_null v);
    by rewrite ?length_memcpy, ?length_null_payload.
Qed.

(** The second loop of [make_record] puts the payload of every value
    into its column. *)
Lemma fill_record_payload m i values record j v f src p :
  TableMeta.contiguous 0 (TableMeta.fields m) = true ->
  (i + length values + TableMeta.sys_field_num m <= TableMeta.field_num m)%nat ->
  values !! j = Some v ->
  TableMeta.fields m !! (i + j + TableMeta.sys_field_num m)%nat = Some f ->
  stored_payload f v = Some src ->
  (FieldMeta.offset f <= p < FieldMeta.offset f + FieldMeta.len f)%nat ->
  (p < length record)%nat ->
  Table.fill_record m (TableMeta.null_field_index m) i values record !! p
  = read_bytes src (FieldMeta.len f) !! (p - FieldMeta.offset f)%nat.
Proof.
  intros Hc. revert i record j.
  induction values as [|w values IH]; intros i record j Hn Hj Hf Hsrc Hp Hlen;
    [done|].
  pose proof (field_below_null_marks m _ f Hc Hf) as Hbelow.
  cbn [Table.fill_record length] in *. destruct j as [|j]; simpl in Hj.
  - inversion Hj; subst w. rewrite Nat.add_0_r in Hf.
    rewrite (field_lookup _ _ _ Hf).
    rewrite fill_record_keeps_front; [|done|lia| |lia].
    + by apply payload_written.
    + destruct values as [|w values]; [by right|left].
      cbn [length] in Hn.
      assert (Hg : TableMeta.fields m !! (S i + TableMeta.sys_field_num m)%nat
                   = Some (TableMeta.field m
                             (S i + TableMeta.sys_field_num m))).
      { unfold TableMeta.field.
        destruct (nth_lookup_or_length (TableMeta.fields m)
                    (S i + TableMeta.sys_field_num m) FieldMeta.invalid)
          as [H|H]; [done|]. unfold TableMeta.field_num in Hn. lia. }
      pose proof (contiguous_disjoint _ _ _ _ _ Hc Hf Hg ltac:(lia)). lia.
  - apply (IH (S i) _ j); try done; try lia.
    + by replace (S i + j)%nat with (i + S j)%nat by lia.
    + by rewrite length_fill_step.
Qed.

(** Stamping the transaction header leaves the user columns alone. *)
Lemma init_trx_info_keeps_columns x m d p :
  well_formed m = true ->
  (FieldMeta.offset (TableMeta.field m 0) + 4 <= p)%nat ->
  Trx.init_trx_info x m d !! p = d !! p.
Proof.
  intros Hwf Hp. unfold Trx.init_trx_info, Trx.set_record_trx_id,
    Trx.trx_field.
  apply memcpy_lookup_outside. lia.
Qed.

(** Of what [memcpy] reads, the bytes that lie within the source are
    the bytes of the source. *)
Lemma take_read_bytes (src : bytes) (n : nat) :
  take (length src) (read_bytes src n) = take n src.
Proof.
  unfold read_bytes. rewrite take_take.
  destruct (decide (n <= length src)%nat).
  - rewrite Nat.min_r by lia. by rewrite take_app_le.
  - rewrite Nat.min_l by lia. rewrite take_app_length.
    by rewrite take_ge by lia.
Qed.

(** X30.  After an INSERT that succeeded, on a table with well-formed
    metadata, the record in the slot that was free holds the values of
    the statement: the null mark of every user column says whether its
    value is null, and the column starts with the bytes of the payload
    of the value, or of the stand-in for NULL of the type of the column,
    as far as the payload reaches and the column is long.  Of the bytes
    of the column behind a payload that is shorter than the column
    nothing is said: [memcpy] takes them from the memory behind the
    payload. *)
Theorem inserted_record_holds_values tb trx values :
  well_formed (Table.table_meta_ tb) = true ->
  let m := Table.table_meta_ tb in
  let res := Table.insert_record_values tb trx values in
  res.1.1 = SUCCESS ->
  exists d,
    slots_of res.1.2
      !! RecordFileHandler.free_slot (Table.record_handler_ tb) = Some d /\
    forall j v f,
      values !! j = Some v ->
      TableMeta.fields m !! (j + 1)%nat = Some f ->
      null_mark m j d = Some (if Parse.is_null v then x01 else x00) /\
      forall src,
        stored_payload f v = Some src ->
        take (length src) (field_bytes f d) = take (FieldMeta.len f) src.
Proof.
  intros Hwf m res Hrc. subst res.
  destruct (well_formed_parts m Hwf) as (Hc & Hs & Hn & H4 & Hr).
  unfold Table.insert_record_values in *.
  case_bool_decide as Hlen; [done|].
  destruct (Table.make_record tb values) as [rc0 buf] eqn:Hmk.
  case_bool_decide as Hrc0; [done|].
  assert (rc0 = SUCCESS) as -> by (by destruct (decide (rc0 = SUCCESS))).
  destruct (make_record_success _ _ _ Hmk) as (Har & Hcheck & Hbuf).
  fold m in Har, Hcheck, Hbuf.
  assert (Hvn : (0 < length values)%nat) by lia.
  replace (length values - 1 + TableMeta.sys_field_num m)%nat
    with (TableMeta.field_num m - 1)%nat in Hbuf by lia.
  change (FieldMeta.offset (TableMeta.field m (TableMeta.field_num m - 1)) +
          FieldMeta.len (TableMeta.field m (TableMeta.field_num m - 1)))%nat
    with (TableMeta.null_field_index m) in Hbuf.
  assert (Hblen : length buf
                  = (TableMeta.record_size m + length values)%nat)
    by (by rewrite Hbuf, length_fill_record, length_replicate).
  pose proof (insert_record_success tb trx (mkRec (mkRID 0 0) buf)) as Hins.
  destruct (Table.insert_record tb trx (mkRec (mkRID 0 0) buf))
    as [[[rc1 tb1] trx1] rec1] eqn:Hres.
  cbn [fst snd] in Hrc, Hins |- *. subst rc1.
  destruct (Hins eq_refl) as (l1 & _ & -> & _). clear Hins.
  cbn [Table.record_handler_ RecordFileHandler.slots data].
  rewrite lookup_insert_eq. fold m. eexists. split; [done|].
  set (stamped := match trx with
                  | Some x => Trx.init_trx_info x m buf
                  | None => buf
                  end).
  set (size := (TableMeta.record_size m + TableMeta.field_num m)%nat).
  assert (Hst : forall p,
            (FieldMeta.offset (TableMeta.field m 0) + 4 <= p)%nat ->
            (p < length buf)%nat ->
            read_bytes stamped size !! p = buf !! p).
  { intros p Hp Hpl. assert (length stamped = length buf) as Hsl
      by (subst stamped; destruct trx; [apply length_init_trx_info|done]).
    rewrite read_bytes_lookup by (subst size; lia).
    subst stamped. destruct trx; [by apply init_trx_info_keeps_columns|done]. }
  assert (H0 : TableMeta.fields m !! 0%nat = Some (TableMeta.field m 0)).
  { unfold TableMeta.field.
    destruct (nth_lookup_or_length (TableMeta.fields m) 0 FieldMeta.invalid)
      as [H|H]; [done|]. unfold TableMeta.field_num in Hn. lia. }
  intros j v f Hj Hf.
  assert (Hjl : (j < length values)%nat) by (by apply lookup_lt_Some in Hj).
  pose proof (contiguous_disjoint _ _ _ _ _ Hc H0 Hf ltac:(lia)) as Hdis.
  pose proof (field_below_null_marks m _ f Hc Hf) as Hbelow.
  split.
  - unfold null_mark. rewrite Hst by lia.
    pose proof (fill_record_marks m (TableMeta.null_field_index m) 0 values
                  (replicate (TableMeta.record_size m + length values) x00)
                  j v) as Hmark.
    rewrite Nat.add_0_r in Hmark. rewrite Hbuf. apply Hmark; [|done|].
    + intros k. by apply any_field_below_null_marks.
    + rewrite length_replicate. lia.
  - intros src Hsrc. rewrite <- (take_read_bytes src (FieldMeta.len f)).
    f_equal. unfold field_bytes. apply list_eq. intros q.
    destruct (decide (q < FieldMeta.len f)%nat) as [Hq|Hq]; cycle 1.
    { rewrite lookup_take_ge by lia. symmetry. apply lookup_ge_None.
      rewrite length_read_bytes. lia. }
    rewrite lookup_take_lt, lookup_drop by done.
    rewrite Hst by lia. rewrite Hbuf.
    rewrite (fill_record_payload m 0 values _ j v f src); try done.
    + f_equal. lia.
    + simpl. lia.
    + simpl. by replace (j + TableMeta.sys_field_num m)%nat with (j + 1)%nat
        by lia.
    + lia.
    + rewrite length_replicate. lia.
Qed.

(** [INSERT INTO t VALUES (3, 'a')] behind the row of the scenario: the
    text and its terminator are two bytes, the column [b] has four. *)
Lemma inserted_record_holds_values_witness :
  let tb := Scenario.one_row in
  let values :=
    [Parse.value_init_integer 3 false; Parse.value_init_string "a" false] in
  let res := Table.insert_record_values tb (Some (Scenario.begin 7)) values in
  exists d,
    slots_of res.1.2
      !! RecordFileHandler.free_slot (Table.record_handler_ tb) = Some d /\
    forall j v f,
      values !! j = Some v ->
      TableMeta.fields Scenario.meta !! (j + 1)%nat = Some f ->
      null_mark Scenario.meta j d
      = Some (if Parse.is_null v then x01 else x00) /\
      forall src,
        stored_payload f v = Some src ->
        take (length src) (field_bytes f d) = take (FieldMeta.len f) src.
Proof.
  intros tb values.
  apply (inserted_record_holds_values Scenario.one_row
           (Some (Scenario.begin 7)) values); reflexivity.
Defined.

End InsertedColumns.
